(** * go-kstat: a shallow embedding of [kstat_solaris.go]

    The Go package wraps the Solaris/illumos libkstat C library.  The
    embedding keeps the two memories apart:

    - the C side ([kstat_ctl], [kstat_t], [kstat_named], C strings) is a
      finite map from addresses to structs, address [0] being [NULL];
    - the Go side ([Token], [KStat]) is a heap of objects addressed by their
      allocation index, a Go pointer being [option nat] ([None] is [nil]).

    libkstat itself is not part of the package.  Every call into it
    ([kstat_open], [kstat_close], [kstat_lookup], [kstat_read],
    [kstat_data_lookup]) takes its result from an argument of the embedded
    operation, so that theorems quantify over everything the library may
    answer. *)

From Stdlib Require Import ZArith String DecimalString DecimalZ.
From Stdlib.Strings Require Import Byte.
From stdpp Require Import gmap strings list.

Open Scope Z_scope.

(** ** Outcomes of Go code

    A Go function returns, panics, or (for the one unbounded loop of the
    package) runs forever. *)

Inductive outcome (A : Type) : Type :=
  | Returns (a : A)
  | Panics (msg : string)
  | Diverges.

Arguments Returns {A} a.
Arguments Panics {A} msg.
Arguments Diverges {A}.

#[global] Instance outcome_bind : MBind outcome := λ A B f m,
  match m with
  | Returns a => f a
  | Panics msg => Panics msg
  | Diverges => Diverges
  end.

(** The Go runtime's message for a nil dereference, and the stand-in for a C
    read outside the modelled C memory (undefined in C; the model stops
    there). *)
Definition nil_deref : string :=
  "runtime error: invalid memory address or nil pointer dereference".
Definition sigsegv : string := "unexpected signal: SIGSEGV".

(** Go's [error] interface values produced by the package: a message from
    [errors.New] / [fmt.Errorf], or the C [errno] cgo hands back. *)
Inductive error : Type :=
  | ErrStr (msg : string)
  | Errno (e : Z).

(** cgo's two-result call form: [errno] is cleared before the call and the
    second result is [nil] when it is still [0] afterwards. *)
Definition cgo_err (errno : Z) : option error :=
  if errno =? 0 then None else Some (Errno errno).

(** [%d] of [fmt]. *)
Definition fmt_d (z : Z) : string := NilEmpty.string_of_int (Z.to_int z).

(** ** cgo string helpers *)

(** Bytes of a C string: everything before the first NUL of the memory that
    starts at the pointer. *)
Fixpoint until_nul (mem : list byte) : list byte :=
  match mem with
  | [] => []
  | b :: rest => if Byte.eqb b x00 then [] else b :: until_nul rest
  end.

(** [C.GoString]: copy up to the terminator. *)
Definition GoString (mem : list byte) : string :=
  string_of_list_byte (until_nul mem).

(** [C.GoStringN]: copy exactly [n] bytes of C data (the runtime's
    [gostringn] is a [memmove] of [n] bytes; it does not look for a NUL). *)
Definition GoStringN (mem : list byte) (n : nat) : string :=
  string_of_list_byte (take n mem).

(** [C.int(x)] for a Go [int]: truncation to 32 bits, two's complement. *)
Definition to_signed (w : Z) (u : Z) : Z :=
  if u <? 2 ^ (w - 1) then u else u - 2 ^ w.
Definition C_int (x : Z) : Z := to_signed 32 (x mod 2 ^ 32).

(** ** The C side: [sys/kstat.h] *)

(** Constants of [sys/kstat.h] (the header is not part of the package). *)
Definition KSTAT_TYPE_RAW : Z := 0.
Definition KSTAT_TYPE_NAMED : Z := 1.
Definition KSTAT_TYPE_INTR : Z := 2.
Definition KSTAT_TYPE_IO : Z := 3.
Definition KSTAT_TYPE_TIMER : Z := 4.

Definition KSTAT_DATA_CHAR : Z := 0.
Definition KSTAT_DATA_INT32 : Z := 1.
Definition KSTAT_DATA_UINT32 : Z := 2.
Definition KSTAT_DATA_INT64 : Z := 3.
Definition KSTAT_DATA_UINT64 : Z := 4.
Definition KSTAT_DATA_STRING : Z := 9.

(** [kstat_named_t].  [value] is the 16-byte union
    [{ char c[16]; int32_t i32; uint32_t ui32; int64_t i64; uint64_t ui64;
       struct { union { char *ptr; char __pad[8]; } addr; uint32_t len; } str; }]
    kept as its bytes; every member starts at offset 0.  Go runs on
    Solaris/illumos on amd64 only, so integers are little-endian and a
    pointer has 8 bytes. *)
Record kstat_named : Type := {
  name : list byte;       (* char name[KSTAT_STRLEN] *)
  data_type : byte;       (* uchar_t *)
  value : list byte;
}.

Definition le_uint (bs : list byte) : Z :=
  foldr (λ b acc, Z.of_N (Byte.to_N b) + 256 * acc) 0 bs.

Definition value_i32 (knp : kstat_named) : Z := to_signed 32 (le_uint (take 4 (value knp))).
Definition value_ui32 (knp : kstat_named) : Z := le_uint (take 4 (value knp)).
Definition value_i64 (knp : kstat_named) : Z := to_signed 64 (le_uint (take 8 (value knp))).
Definition value_ui64 (knp : kstat_named) : Z := le_uint (take 8 (value knp)).
Definition value_str_addr_ptr (knp : kstat_named) : Z := le_uint (take 8 (value knp)).

(** The C helpers of the cgo preamble. *)
Definition get_named_char (knp : kstat_named) : Z := value_str_addr_ptr knp.

Definition get_named_uint (knp : kstat_named) : Z :=
  if Z.of_N (Byte.to_N (data_type knp)) =? KSTAT_DATA_UINT32
  then value_ui32 knp
  else value_ui64 knp.

Definition get_named_int (knp : kstat_named) : Z :=
  if Z.of_N (Byte.to_N (data_type knp)) =? KSTAT_DATA_INT32
  then value_i32 knp
  else value_i64 knp.

(** [kstat_t], with the fields the package reads.  [ks_data] is [None] for a
    [NULL] pointer and otherwise the array of records it points at (only
    named kstats have their data interpreted). *)
Record kstat_t : Type := {
  ks_crtime : Z;
  ks_next : Z;
  ks_module : list byte;
  ks_instance : Z;
  ks_name : list byte;
  ks_type : byte;
  ks_class : list byte;
  ks_snaptime : Z;
  ks_data : option (list kstat_named);
  ks_ndata : Z;
}.

(** [kstat_ctl_t]. *)
Record kstat_ctl : Type := {
  kc_chain : Z;
}.

(** [get_nth_named] of the preamble: [NULL], or the pointer [knp + n], kept
    as the index [n]. *)
Definition get_nth_named (ks : option kstat_t) (n : Z) : option nat :=
  match ks with
  | None => None
  | Some s =>
      match ks_data s with
      | None => None
      | Some _ =>
          if negb (Z.of_N (Byte.to_N (ks_type s)) =? KSTAT_TYPE_NAMED) || (ks_ndata s <=? n)
          then None
          else Some (Z.to_nat n)
      end
  end.

(** Reading through a [kstat_named_t] pointer into the array of [ks]. *)
Definition deref_named (ks : kstat_t) (i : nat) : outcome kstat_named :=
  match ks_data ks with
  | Some arr =>
      match arr !! i with
      | Some knp => Returns knp
      | None => Panics sigsegv
      end
  | None => Panics sigsegv
  end.

(** ** Go types *)

(** [NamedType] and its constants. *)
Definition CharData : Z := KSTAT_DATA_CHAR.
Definition Int32 : Z := KSTAT_DATA_INT32.
Definition Uint32 : Z := KSTAT_DATA_UINT32.
Definition Int64 : Z := KSTAT_DATA_INT64.
Definition Uint64 : Z := KSTAT_DATA_UINT64.
Definition String : Z := KSTAT_DATA_STRING.

(** [KSType] constants. *)
Definition RawStat : Z := KSTAT_TYPE_RAW.
Definition NamedStat : Z := KSTAT_TYPE_NAMED.
Definition IntrStat : Z := KSTAT_TYPE_INTR.
Definition IoStat : Z := KSTAT_TYPE_IO.
Definition TimerStat : Z := KSTAT_TYPE_TIMER.

(** The exported fields carry the name of their struct ([Type], [Module],
    [Class] and [Instance] are taken in Rocq).  A [*Named] is never changed or
    compared once [newNamed] has built it, so the model hands the struct
    itself around; [KStat]s and [Token]s live in the heap, because their
    identity and their updates matter.  A slice is a list, [nil] being the
    empty one. *)
Record Named : Type := {
  Named_Name : string;
  Named_Type : Z;
  Named_StringVal : string;
  Named_IntVal : Z;
  Named_UintVal : Z;
  Named_KStat : option nat;
}.

Record KStat : Type := {
  KStat_Module : string;
  KStat_Instance : Z;
  KStat_Name : string;
  KStat_Class : string;
  KStat_Type : Z;
  KStat_Crtime : Z;
  KStat_Snaptime : Z;
  ksp : Z;
  tok : option nat;
}.

Record Token : Type := {
  kc : Z;
  ksm : gmap Z nat;
}.

(** ** The world: C memory and the Go heap

    C structs by address; [c_chars] gives, for the address of a C string,
    the bytes from there on.  Go objects by allocation index. *)

Record world : Type := {
  c_ctls : gmap Z kstat_ctl;
  c_kstats : gmap Z kstat_t;
  c_chars : gmap Z (list byte);
  tokens : list Token;
  kstats : list KStat;
}.

(** ** The decoder: [newNamed] *)

Definition set_StringVal (s : string) (st : Named) : Named :=
  {| Named_Name := Named_Name st; Named_Type := Named_Type st;
     Named_StringVal := s; Named_IntVal := Named_IntVal st;
     Named_UintVal := Named_UintVal st; Named_KStat := Named_KStat st |}.

Definition set_IntVal (v : Z) (st : Named) : Named :=
  {| Named_Name := Named_Name st; Named_Type := Named_Type st;
     Named_StringVal := Named_StringVal st; Named_IntVal := v;
     Named_UintVal := Named_UintVal st; Named_KStat := Named_KStat st |}.

Definition set_UintVal (v : Z) (st : Named) : Named :=
  {| Named_Name := Named_Name st; Named_Type := Named_Type st;
     Named_StringVal := Named_StringVal st; Named_IntVal := Named_IntVal st;
     Named_UintVal := v; Named_KStat := Named_KStat st |}.

(** [C.GoString(p)] for a [char *] into C memory: [""] for [NULL]. *)
Definition GoString_at (cm : gmap Z (list byte)) (p : Z) : outcome string :=
  if p =? 0 then Returns EmptyString
  else match cm !! p with
       | Some mem => Returns (GoString mem)
       | None => Panics sigsegv
       end.

Definition newNamed (cm : gmap Z (list byte)) (k : option nat) (knp : kstat_named)
    : outcome Named :=
  let st := {| Named_Name := GoString (name knp);
               Named_Type := Z.of_N (Byte.to_N (data_type knp));
               Named_StringVal := EmptyString;
               Named_IntVal := 0;
               Named_UintVal := 0;
               Named_KStat := k |} in
  let ty := Named_Type st in
  if ty =? String then
    s ← GoString_at cm (get_named_char knp);
    Returns (set_StringVal s st)
  else if ty =? CharData then
    Returns (set_StringVal (GoStringN (value knp) 16) st)
  else if (ty =? Int32) || (ty =? Int64) then
    Returns (set_IntVal (get_named_int knp) st)
  else if (ty =? Uint32) || (ty =? Uint64) then
    Returns (set_UintVal (get_named_uint knp) st)
  else
    Panics ("unknown stat type: " +:+ fmt_d ty).

(** ** Updating the world *)

Definition set_tokens (ts : list Token) (w : world) : world :=
  {| c_ctls := c_ctls w; c_kstats := c_kstats w; c_chars := c_chars w;
     tokens := ts; kstats := kstats w |}.

Definition set_kstats (ks : list KStat) (w : world) : world :=
  {| c_ctls := c_ctls w; c_kstats := c_kstats w; c_chars := c_chars w;
     tokens := tokens w; kstats := ks |}.

Definition set_Snaptime (v : Z) (k : KStat) : KStat :=
  {| KStat_Module := KStat_Module k; KStat_Instance := KStat_Instance k;
     KStat_Name := KStat_Name k; KStat_Class := KStat_Class k;
     KStat_Type := KStat_Type k; KStat_Crtime := KStat_Crtime k;
     KStat_Snaptime := v; ksp := ksp k; tok := tok k |}.

(** Dereferencing Go pointers: [None] for [nil] (Go has no dangling
    pointers; an address outside the heap is read as [nil]). *)
Definition load_Token (t : option nat) (w : world) : option Token :=
  match t with
  | Some a => tokens w !! a
  | None => None
  end.

Definition load_KStat (k : option nat) (w : world) : option KStat :=
  match k with
  | Some a => kstats w !! a
  | None => None
  end.

(** [*k.ksp]: the [kstat_t] behind a [KStat]. *)
Definition load_ksp (k : option nat) (w : world) : option kstat_t :=
  match load_KStat k w with
  | Some K => c_kstats w !! ksp K
  | None => None
  end.

(** ** Calls into libkstat *)

(** What one [kstat_read(kc, ksp, NULL)] call answers: its return value and
    [errno], and what it leaves in the [kstat_t] (snapshot time, data
    pointer, record count) and in the C string memory. *)
Record read_result : Type := {
  rd_res : Z;
  rd_errno : Z;
  rd_snaptime : Z;
  rd_data : option (list kstat_named);
  rd_ndata : Z;
  rd_chars : gmap Z (list byte);
}.

Definition read_into (rd : read_result) (s : kstat_t) : kstat_t :=
  {| ks_crtime := ks_crtime s; ks_next := ks_next s; ks_module := ks_module s;
     ks_instance := ks_instance s; ks_name := ks_name s; ks_type := ks_type s;
     ks_class := ks_class s; ks_snaptime := rd_snaptime rd;
     ks_data := rd_data rd; ks_ndata := rd_ndata rd |}.

(** The C memory after the call. *)
Definition kstat_read (p : Z) (rd : read_result) (w : world) : world :=
  {| c_ctls := c_ctls w; c_kstats := alter (read_into rd) p (c_kstats w);
     c_chars := rd_chars rd; tokens := tokens w; kstats := kstats w |}.

(** [kstat_lookup(kc, module, instance, name)]: the found [kstat_t *] (or
    [NULL]) and [errno]. *)
Definition lookup_fn : Type := Z → option string → Z → option string → Z * Z.

(** ** Token *)

Definition Open (r errno : Z) (w : world) : outcome ((option nat * option error) * world) :=
  if r =? 0 then Returns ((None, cgo_err errno), w)
  else
    let t := {| kc := r; ksm := ∅ |} in
    Returns ((Some (length (tokens w)), None), set_tokens (tokens w ++ [t]) w).

Definition Close (t : option nat) (res errno : Z) (w : world)
    : outcome (option error * world) :=
  match load_Token t w with
  | None => Panics nil_deref
  | Some T =>
      if kc T =? 0 then Returns (None, w)
      else
        let w' := set_tokens (<[default 0%nat t := {| kc := 0; ksm := ∅ |}]> (tokens w)) w in
        if negb (res =? 0) then Returns (cgo_err errno, w')
        else Returns (None, w')
  end.

(** [newKStat]: the cached [KStat] of [ks], or a new one, which is cached. *)
Definition newKStat (tk : nat) (ks : Z) (w : world) : outcome (nat * world) :=
  match tokens w !! tk with
  | None => Panics nil_deref
  | Some T =>
      match ksm T !! ks with
      | Some kst => Returns (kst, w)
      | None =>
          match c_kstats w !! ks with
          | None => Panics sigsegv
          | Some s =>
              let kst := {| KStat_Module := GoString (ks_module s);
                            KStat_Instance := ks_instance s;
                            KStat_Name := GoString (ks_name s);
                            KStat_Class := GoString (ks_class s);
                            KStat_Type := Z.of_N (Byte.to_N (ks_type s));
                            KStat_Crtime := ks_crtime s;
                            KStat_Snaptime := ks_snaptime s;
                            ksp := ks;
                            tok := Some tk |} in
              let a := length (kstats w) in
              let T' := {| kc := kc T; ksm := <[ks := a]> (ksm T) |} in
              Returns (a, set_kstats (kstats w ++ [kst]) (set_tokens (<[tk := T']> (tokens w)) w))
          end
      end
  end.

(** The loop of [All]: [r] walks the chain, [n] collects the [KStat]s.  A
    chain over [m] structs that has not ended after [m + 1] steps has come
    back to a struct already visited, and the Go loop never ends. *)
Fixpoint All_loop (fuel : nat) (tk : nat) (r : Z) (n : list nat) (w : world)
    : outcome (list nat * world) :=
  match fuel with
  | O => Diverges
  | S fuel' =>
      if r =? 0 then Returns (n, w)
      else
        '(k, w') ← newKStat tk r w;
        match c_kstats w' !! r with
        | None => Panics sigsegv
        | Some s => All_loop fuel' tk (ks_next s) (n ++ [k]) w'
        end
  end.

Definition All (t : option nat) (w : world) : outcome (list nat * world) :=
  match load_Token t w with
  | None => Panics nil_deref
  | Some T =>
      if kc T =? 0 then Returns ([], w)
      else
        match c_ctls w !! kc T with
        | None => Panics sigsegv
        | Some ctl => All_loop (S (size (c_kstats w))) (default 0%nat t) (kc_chain ctl) [] w
        end
  end.

(** [maybeCString]: [nil] for the empty string. *)
Definition maybeCString (src : string) : option string :=
  if String.eqb src EmptyString then None else Some src.

(** ** KStat *)

Definition invalid (k : option nat) (w : world) : bool :=
  match load_KStat k w with
  | None => true
  | Some K =>
      (ksp K =? 0)
      || match load_Token (tok K) w with
         | None => true
         | Some T => kc T =? 0
         end
  end.

Definition KStat_String (k : option nat) (w : world) : outcome string :=
  match load_KStat k w with
  | None => Panics nil_deref
  | Some K =>
      Returns (KStat_Module K +:+ ":" +:+ fmt_d (KStat_Instance K) +:+ ":"
               +:+ KStat_Name K +:+ " (" +:+ KStat_Class K +:+ ")")
  end.

Definition Refresh (k : option nat) (rd : read_result) (w : world)
    : outcome (option error * world) :=
  if invalid k w then Returns (Some (ErrStr "invalid KStat or closed token"), w)
  else
    match load_KStat k w with
    | None => Panics nil_deref
    | Some K =>
        let w1 := kstat_read (ksp K) rd w in
        if rd_res rd =? -1 then Returns (cgo_err (rd_errno rd), w1)
        else
          match c_kstats w1 !! ksp K with
          | None => Panics sigsegv
          | Some s =>
              Returns (None,
                       set_kstats (<[default 0%nat k := set_Snaptime (ks_snaptime s) K]> (kstats w1)) w1)
          end
    end.

Definition setup (k : option nat) (rd : read_result) (w : world)
    : outcome (option error * world) :=
  if invalid k w then Returns (Some (ErrStr "invalid KStat or closed token"), w)
  else
    match load_KStat k w with
    | None => Panics nil_deref
    | Some K =>
        match c_kstats w !! ksp K with
        | None => Panics sigsegv
        | Some s =>
            if negb (Z.of_N (Byte.to_N (ks_type s)) =? KSTAT_TYPE_NAMED) then
              str ← KStat_String k w;
              Returns (Some (ErrStr ("kstat " +:+ str +:+ " (type "
                                     +:+ fmt_d (Z.of_N (Byte.to_N (ks_type s)))
                                     +:+ ") is not a named kstat")), w)
            else
              match ks_data s with
              | None => Refresh k rd w
              | Some _ => Returns (None, w)
              end
        end
    end.

(** [KStat.GetNamed]; [r] and [errno] are what [kstat_data_lookup] answers,
    [r] being [NULL] or the index of the record found. *)
Definition KStat_GetNamed (k : option nat) (nm : string) (rd : read_result)
    (r : option nat) (errno : Z) (w : world)
    : outcome ((option Named * option error) * world) :=
  '(e, w1) ← setup k rd w;
  match e with
  | Some _ => Returns ((None, e), w1)
  | None =>
      match r, cgo_err errno with
      | Some i, None =>
          match load_ksp k w1 with
          | None => Panics sigsegv
          | Some s =>
              knp ← deref_named s i;
              st ← newNamed (c_chars w1) k knp;
              Returns ((Some st, None), w1)
          end
      | _, err => Returns ((None, err), w1)
      end
  end.

(** The loop of [AllNamed], from index [i], with [todo] records to go. *)
Fixpoint AllNamed_loop (cm : gmap Z (list byte)) (k : option nat) (s : kstat_t)
    (i : Z) (todo : nat) : outcome (list Named) :=
  match todo with
  | O => Returns []
  | S todo' =>
      match get_nth_named (Some s) i with
      | None => Panics "get_nth_named returned surprise nil"
      | Some j =>
          knp ← deref_named s j;
          st ← newNamed cm k knp;
          rest ← AllNamed_loop cm k s (i + 1) todo';
          Returns (st :: rest)
      end
  end.

Definition AllNamed (k : option nat) (rd : read_result) (w : world)
    : outcome ((list Named * option error) * world) :=
  '(e, w1) ← setup k rd w;
  match e with
  | Some _ => Returns (([], e), w1)
  | None =>
      match load_ksp k w1 with
      | None => Panics sigsegv
      | Some s =>
          lst ← AllNamed_loop (c_chars w1) k s 0 (Z.to_nat (ks_ndata s));
          Returns ((lst, None), w1)
      end
  end.

Definition Named_String (ks : Named) (w : world) : outcome string :=
  match load_KStat (Named_KStat ks) w with
  | None => Panics nil_deref
  | Some K =>
      Returns (KStat_Module K +:+ ":" +:+ fmt_d (KStat_Instance K) +:+ ":"
               +:+ KStat_Name K +:+ ":" +:+ Named_Name ks)
  end.

(** ** Display of the two enumerations

    [KSType.String] and [NamedType.String].  The [%d] of their fallback
    prints the number: [fmt] calls a [String] method for the verbs [%v],
    [%s], [%x], [%X] and [%q] only. *)

Definition KSType_String (tp : Z) : string :=
  if tp =? RawStat then "raw"
  else if tp =? NamedStat then "named"
  else if tp =? IntrStat then "interrupt"
  else if tp =? IoStat then "io"
  else if tp =? TimerStat then "timer"
  else "kstat_type:" +:+ fmt_d tp.

Definition NamedType_String (tp : Z) : string :=
  if tp =? CharData then "char"
  else if tp =? Int32 then "int32"
  else if tp =? Uint32 then "uint32"
  else if tp =? Int64 then "int64"
  else if tp =? Uint64 then "uint64"
  else if tp =? String then "string"
  else "named_type-" +:+ fmt_d tp.

(** ** Token, continued *)

Definition Lookup (t : option nat) (module : string) (instance : Z) (nm : string)
    (kstat_lookup : lookup_fn) (rd : read_result) (w : world)
    : outcome ((option nat * option error) * world) :=
  match load_Token t w with
  | None => Returns ((None, Some (ErrStr "Token not valid or closed")), w)
  | Some T =>
      if kc T =? 0 then Returns ((None, Some (ErrStr "Token not valid or closed")), w)
      else
        let ms := maybeCString module in
        let ns := maybeCString nm in
        let '(r, errno) := kstat_lookup (kc T) ms (C_int instance) ns in
        if r =? 0 then Returns ((None, cgo_err errno), w)
        else
          '(k, w1) ← newKStat (default 0%nat t) r w;
          '(err, w2) ← Refresh (Some k) rd w1;
          match err with
          | Some _ => Returns ((None, err), w2)
          | None => Returns ((Some k, None), w2)
          end
  end.

(** [Token.GetNamed]: [Lookup], then [KStat.GetNamed] with its own answers
    from libkstat. *)
Definition Token_GetNamed (t : option nat) (module : string) (instance : Z)
    (nm stat : string) (kstat_lookup : lookup_fn) (rd rd' : read_result)
    (r : option nat) (errno : Z) (w : world)
    : outcome ((option Named * option error) * world) :=
  '((stats, err), w1) ← Lookup t module instance nm kstat_lookup rd w;
  match err with
  | Some _ => Returns ((None, err), w1)
  | None => KStat_GetNamed stats stat rd' r errno w1
  end.

(** * Vocabulary of the properties *)

(** ** The decoder *)

(** [NamedType(knp.data_type)]. *)
Definition NamedType_of (knp : kstat_named) : Z := Z.of_N (Byte.to_N (data_type knp)).

(** The six kinds of [NamedType]. *)
Definition known_type (ty : Z) : bool :=
  (ty =? String) || (ty =? CharData) || (ty =? Int32) || (ty =? Int64)
  || (ty =? Uint32) || (ty =? Uint64).

(** The value fields of a [Named]. *)
Inductive slot : Type := StringVal | IntVal | UintVal.

(** Which field the doc comment of [Named] declares valid for a type. *)
Definition slot_of_type (ty : Z) : option slot :=
  if (ty =? String) || (ty =? CharData) then Some StringVal
  else if (ty =? Int32) || (ty =? Int64) then Some IntVal
  else if (ty =? Uint32) || (ty =? Uint64) then Some UintVal
  else None.

(** The other two fields hold their zero values. *)
Definition others_zero (sl : slot) (st : Named) : Prop :=
  match sl with
  | StringVal => Named_IntVal st = 0 ∧ Named_UintVal st = 0
  | IntVal => Named_StringVal st = EmptyString ∧ Named_UintVal st = 0
  | UintVal => Named_StringVal st = EmptyString ∧ Named_IntVal st = 0
  end.

(** The field holds what the record's union holds for its kind. *)
Definition slot_holds (cm : gmap Z (list byte)) (knp : kstat_named) (st : Named) : Prop :=
  let ty := NamedType_of knp in
  if ty =? String then
    GoString_at cm (value_str_addr_ptr knp) = Returns (Named_StringVal st)
  else if ty =? CharData then Named_StringVal st = GoStringN (value knp) 16
  else if ty =? Int32 then Named_IntVal st = value_i32 knp
  else if ty =? Int64 then Named_IntVal st = value_i64 knp
  else if ty =? Uint32 then Named_UintVal st = value_ui32 knp
  else if ty =? Uint64 then Named_UintVal st = value_ui64 knp
  else False.

(** A string record's pointer is [NULL] or points into C string memory. *)
Definition str_readable (cm : gmap Z (list byte)) (knp : kstat_named) : Prop :=
  NamedType_of knp = String →
  value_str_addr_ptr knp = 0 ∨ is_Some (cm !! value_str_addr_ptr knp).

(** The records [AllNamed] goes through: the first [ks_ndata] of the array. *)
Definition records (s : kstat_t) : list kstat_named :=
  take (Z.to_nat (ks_ndata s)) (default [] (ks_data s)).

(** [lst] is the decoding of every record of the collection of [k], in the
    order of the native array. *)
Definition complete (k : option nat) (w : world) (lst : list Named) : Prop :=
  ∃ s, load_ksp k w = Some s
       ∧ length lst = Z.to_nat (ks_ndata s)
       ∧ Forall2 (λ st knp, newNamed (c_chars w) k knp = Returns st) lst (records s).

(** The claim as the specification words it: [AllNamed] returns either the
    complete sequence or an error. *)
Definition returns_all_or_error (k : option nat) (rd : read_result) (w : world) : Prop :=
  (∃ lst w1, AllNamed k rd w = Returns ((lst, None), w1) ∧ complete k w1 lst)
  ∨ (∃ lst e w1, AllNamed k rd w = Returns ((lst, Some e), w1)).

(** ** Errors and closed tokens *)

(** The two errors of [errors.New]. *)
Definition closed_error : option error := Some (ErrStr "invalid KStat or closed token").

Definition token_error : option error := Some (ErrStr "Token not valid or closed").

(** A closed token: no handle, an empty cache. *)
Definition closed_Token : Token := {| kc := 0; ksm := ∅ |}.

(** ** The cache of a token *)

(** Token [tk] caches the [KStat] at [k] for the [kstat_t] at [p]. *)
Definition cached (tk : nat) (p : Z) (k : nat) (w : world) : Prop :=
  ∃ T, tokens w !! tk = Some T ∧ ksm T !! p = Some k.

(** Token [tk] holds a handle. *)
Definition is_open (tk : nat) (w : world) : Prop :=
  ∃ T, tokens w !! tk = Some T ∧ kc T ≠ 0.

(** Every cache entry leads to a [KStat] of that token and [kstat_t]; every
    [KStat] of an open token is the cache entry of its [kstat_t]; no two
    [KStat]s share token and [kstat_t]. *)
Record cache_ok (w : world) : Prop := {
  cache_sound : ∀ t T p r,
    tokens w !! t = Some T → ksm T !! p = Some r →
    ∃ K, kstats w !! r = Some K ∧ tok K = Some t ∧ ksp K = p;
  cache_complete : ∀ r K,
    kstats w !! r = Some K →
    ∃ t T, tok K = Some t ∧ tokens w !! t = Some T
           ∧ (kc T ≠ 0 → ksm T !! ksp K = Some r);
  cache_unique : ∀ r1 r2 K1 K2,
    kstats w !! r1 = Some K1 → kstats w !! r2 = Some K2 →
    tok K1 = tok K2 → ksp K1 = ksp K2 → r1 = r2;
}.

(** The part of a [KStat] that [cache_ok] looks at. *)
Definition ident (K : KStat) : option nat * Z := (tok K, ksp K).

(** The C memory is the same in both worlds. *)
Definition same_C (w w' : world) : Prop :=
  c_ctls w' = c_ctls w ∧ c_kstats w' = c_kstats w ∧ c_chars w' = c_chars w.

(** The world after a cache miss. *)
Definition alloc_KStat (tk : nat) (p : Z) (T : Token) (s : kstat_t) (w : world) : world :=
  set_kstats
    (kstats w ++ [{| KStat_Module := GoString (ks_module s);
                     KStat_Instance := ks_instance s;
                     KStat_Name := GoString (ks_name s);
                     KStat_Class := GoString (ks_class s);
                     KStat_Type := Z.of_N (Byte.to_N (ks_type s));
                     KStat_Crtime := ks_crtime s;
                     KStat_Snaptime := ks_snaptime s;
                     ksp := p;
                     tok := Some tk |}])
    (set_tokens (<[tk := {| kc := kc T; ksm := <[p := length (kstats w)]> (ksm T) |}]> (tokens w)) w).

(** What [newKStat] may change for token [tk]: nothing in C memory; the
    token keeps its handle and its cache entries; the heap of [KStat]s only
    gets longer. *)
Record grows (tk : nat) (w w' : world) : Prop := {
  grows_C : same_C w w';
  grows_token : ∀ T, tokens w !! tk = Some T →
    ∃ T', tokens w' !! tk = Some T' ∧ kc T' = kc T ∧ ksm T ⊆ ksm T';
  grows_heap : kstats w `prefix_of` kstats w';
}.

(** ** The chain of a token *)

(** The chain of [kstat_t]s from [r], in the order of the [ks_next]
    pointers. *)
Fixpoint chain_of (m : gmap Z kstat_t) (fuel : nat) (r : Z) : option (list Z) :=
  match fuel with
  | O => None
  | S fuel' =>
      if r =? 0 then Some []
      else match m !! r with
           | None => None
           | Some s => (r ::.) <$> chain_of m fuel' (ks_next s)
           end
  end.

(** The native enumeration of a token's chain. *)
Definition chain (T : Token) (w : world) : option (list Z) :=
  match c_ctls w !! kc T with
  | Some ctl => chain_of (c_kstats w) (S (size (c_kstats w))) (kc_chain ctl)
  | None => None
  end.

(** A chain that reaches [NULL], as a relation: the list of its
    [kstat_t]s. *)
Inductive chain_from (m : gmap Z kstat_t) : Z → list Z → Prop :=
  | chain_end : chain_from m 0 []
  | chain_next (p : Z) (s : kstat_t) (ps : list Z) :
      p ≠ 0 → m !! p = Some s → chain_from m (ks_next s) ps →
      chain_from m p (p :: ps).

(** ** Snapshot times *)

(** The world after a [Refresh] whose [kstat_read] did not return -1. *)
Definition refreshed (a : nat) (K : KStat) (rd : read_result) (w : world) : world :=
  set_kstats (<[a := set_Snaptime (rd_snaptime rd) K]> (kstats w)) (kstat_read (ksp K) rd w).

(** What libkstat promises about the time of a snapshot: [ks_snaptime] is
    the high-resolution time ([gethrtime]) at which the kernel took it, and
    that clock does not go back.  So a read of the [kstat_t] at [p] leaves a
    snapshot time no earlier than the one it had ... *)
Definition read_monotone (p : Z) (rd : read_result) (w : world) : Prop :=
  ∀ s, c_kstats w !! p = Some s → ks_snaptime s ≤ rd_snaptime rd.

(** ... and no earlier than any snapshot time already in C memory. *)
Definition clock_ok (rd : read_result) (w : world) : Prop :=
  ∀ p, read_monotone p rd w.

(** No [KStat] is ahead of its [kstat_t]. *)
Definition snap_ok (w : world) : Prop :=
  ∀ r K s, kstats w !! r = Some K → c_kstats w !! ksp K = Some s →
           KStat_Snaptime K ≤ ks_snaptime s.

(** Every [KStat] of [w] is still there in [w'], the same but for a
    [Snaptime] that is no earlier. *)
Definition snap_le (w w' : world) : Prop :=
  ∀ a K, kstats w !! a = Some K →
         ∃ K', kstats w' !! a = Some K'
               ∧ K' = set_Snaptime (KStat_Snaptime K') K
               ∧ KStat_Snaptime K ≤ KStat_Snaptime K'.

(** ** Executions of the package *)

(** A call of the public API, with what libkstat answers during it. *)
Inductive call : Type :=
  | call_Open (r errno : Z)
  | call_Close (t : option nat) (res errno : Z)
  | call_All (t : option nat)
  | call_Lookup (t : option nat) (module : string) (instance : Z) (nm : string)
      (f : lookup_fn) (rd : read_result)
  | call_Token_GetNamed (t : option nat) (module : string) (instance : Z)
      (nm stat : string) (f : lookup_fn) (rd rd' : read_result)
      (r : option nat) (errno : Z)
  | call_Refresh (k : option nat) (rd : read_result)
  | call_GetNamed (k : option nat) (nm : string) (rd : read_result)
      (r : option nat) (errno : Z)
  | call_AllNamed (k : option nat) (rd : read_result).

(** The world a call leaves. *)
Definition after {A : Type} (m : outcome (A * world)) : outcome world :=
  '(_, w') ← m; Returns w'.

Definition run (c : call) (w : world) : outcome world :=
  match c with
  | call_Open r errno => after (Open r errno w)
  | call_Close t res errno => after (Close t res errno w)
  | call_All t => after (All t w)
  | call_Lookup t module instance nm f rd => after (Lookup t module instance nm f rd w)
  | call_Token_GetNamed t module instance nm stat f rd rd' r errno =>
      after (Token_GetNamed t module instance nm stat f rd rd' r errno w)
  | call_Refresh k rd => after (Refresh k rd w)
  | call_GetNamed k nm rd r errno => after (KStat_GetNamed k nm rd r errno w)
  | call_AllNamed k rd => after (AllNamed k rd w)
  end.

(** The worlds a program can get to: it starts with an empty Go heap, over
    any C memory, and makes calls. *)
Inductive reachable : world → Prop :=
  | reachable_start (w : world) :
      tokens w = [] → kstats w = [] → reachable w
  | reachable_call (c : call) (w w' : world) :
      reachable w → run c w = Returns w' → reachable w'.

(** libkstat's clock is respected during a call: every read leaves a
    snapshot time no earlier than those in C memory, and the second read of
    [Token.GetNamed] one no earlier than the first. *)
Definition clock_respected (c : call) (w : world) : Prop :=
  match c with
  | call_Lookup _ _ _ _ _ rd | call_Refresh _ rd
  | call_GetNamed _ _ rd _ _ | call_AllNamed _ rd => clock_ok rd w
  | call_Token_GetNamed _ _ _ _ _ _ rd rd' _ _ =>
      clock_ok rd w ∧ clock_ok rd' w ∧ rd_snaptime rd ≤ rd_snaptime rd'
  | call_Open _ _ | call_Close _ _ _ | call_All _ => True
  end.

(** A sequence of calls during which libkstat's clock is respected. *)
Inductive runs : world → world → Prop :=
  | runs_refl (w : world) : runs w w
  | runs_step (c : call) (w w1 w2 : world) :
      clock_respected c w → run c w = Returns w1 → runs w1 w2 → runs w w2.

(** ** Concrete records and worlds *)

(** A string record whose pointer is [0x1000]. *)
Definition string_record : kstat_named :=
  {| name := [x69; x64; x00];
     data_type := x09;
     value := [x00; x10; x00; x00; x00; x00; x00; x00;
               x02; x00; x00; x00; x00; x00; x00; x00] |}.

(** C string memory with ["hi"] at address [0x1000]. *)
Definition string_memory : gmap Z (list byte) := {[ 4096 := [x68; x69; x00] ]}.

(** A char block holding ["abc"] and thirteen NUL bytes. *)
Definition char_block_abc : kstat_named :=
  {| name := [x69; x64; x00];
     data_type := x00;
     value := [x61; x62; x63; x00; x00; x00; x00; x00;
               x00; x00; x00; x00; x00; x00; x00; x00] |}.

(** A record of the obsolete type 5 ([KSTAT_DATA_FLOAT] of [sys/kstat.h]). *)
Definition float_record : kstat_named :=
  {| name := [x66; x00]; data_type := x05;
     value := [x00; x00; x00; x00; x00; x00; x00; x00;
               x00; x00; x00; x00; x00; x00; x00; x00] |}.

Definition float_kstat : kstat_t :=
  {| ks_crtime := 10; ks_next := 0;
     ks_module := [x6d; x00]; ks_instance := 0; ks_name := [x6e; x00];
     ks_type := x01; ks_class := [x63; x00];
     ks_snaptime := 20; ks_data := Some [float_record]; ks_ndata := 1 |}.

Definition float_KStat : KStat :=
  {| KStat_Module := "m"; KStat_Instance := 0; KStat_Name := "n";
     KStat_Class := "c"; KStat_Type := 1; KStat_Crtime := 10;
     KStat_Snaptime := 20; ksp := 100; tok := Some 0%nat |}.

(** A named kstat whose only record is [float_record], already read, and
    cached by an open token. *)
Definition float_world : world :=
  {| c_ctls := {[ 1000 := {| kc_chain := 100 |} ]};
     c_kstats := {[ 100 := float_kstat ]};
     c_chars := ∅;
     tokens := [ {| kc := 1000; ksm := {[ 100 := 0%nat ]} |} ];
     kstats := [ float_KStat ] |}.

(** An unsigned 64-bit record [idle] of value 42. *)
Definition idle_record : kstat_named :=
  {| name := [x69; x64; x6c; x65; x00]; data_type := x04;
     value := [x2a; x00; x00; x00; x00; x00; x00; x00;
               x00; x00; x00; x00; x00; x00; x00; x00] |}.

Definition cpu_kstat (instance next : Z) : kstat_t :=
  {| ks_crtime := 10; ks_next := next;
     ks_module := [x63; x70; x75; x00]; ks_instance := instance;
     ks_name := [x73; x79; x73; x00];
     ks_type := x01; ks_class := [x6d; x69; x73; x63; x00];
     ks_snaptime := 0; ks_data := None; ks_ndata := 1 |}.

(** Two named kstats, [cpu:0:sys] and [cpu:1:sys], chained from the handle at
    address 1000, and one open token that has looked at nothing yet. *)
Definition cpu_world : world :=
  {| c_ctls := {[ 1000 := {| kc_chain := 100 |} ]};
     c_kstats := {[ 100 := cpu_kstat 0 200; 200 := cpu_kstat 1 0 ]};
     c_chars := ∅;
     tokens := [ {| kc := 1000; ksm := ∅ |} ];
     kstats := [] |}.

(** Answers of [kstat_read]: two that succeed, one that fails with
    [ENXIO]. *)
Definition good_read : read_result :=
  {| rd_res := 7; rd_errno := 0; rd_snaptime := 50;
     rd_data := Some [idle_record]; rd_ndata := 1; rd_chars := ∅ |}.

Definition failed_read : read_result :=
  {| rd_res := -1; rd_errno := 6; rd_snaptime := 20;
     rd_data := None; rd_ndata := 1; rd_chars := ∅ |}.

Definition idle_read : read_result :=
  {| rd_res := 0; rd_errno := 0; rd_snaptime := 30;
     rd_data := Some [float_record]; rd_ndata := 1; rd_chars := ∅ |}.

(** A [kstat_lookup] that finds the second kstat of the chain. *)
Definition find_second : lookup_fn := λ _ _ _ _, (200, 0).

(** ** Further concrete worlds *)

(** [cpu_world] after [All]: both kstats have their [KStat], no data is
    loaded yet. *)
Definition listed_world : world :=
  match All (Some 0%nat) cpu_world with
  | Returns (_, w) => w
  | _ => cpu_world
  end.

(** [cpu_world] after a [Lookup] of [cpu:1:sys] whose read succeeds: the
    second kstat has its [KStat], and its data. *)
Definition loaded_world : world :=
  match Lookup (Some 0%nat) "cpu" 1 "sys" find_second good_read cpu_world with
  | Returns (_, w) => w
  | _ => cpu_world
  end.

(** A raw (not named) kstat, cached by an open token. *)
Definition raw_kstat : kstat_t :=
  {| ks_crtime := 10; ks_next := 0;
     ks_module := [x6d; x00]; ks_instance := 0; ks_name := [x6e; x00];
     ks_type := x00; ks_class := [x63; x00];
     ks_snaptime := 20; ks_data := None; ks_ndata := 0 |}.

Definition raw_KStat : KStat :=
  {| KStat_Module := "m"; KStat_Instance := 0; KStat_Name := "n";
     KStat_Class := "c"; KStat_Type := 0; KStat_Crtime := 10;
     KStat_Snaptime := 20; ksp := 100; tok := Some 0%nat |}.

Definition raw_world : world :=
  {| c_ctls := {[ 1000 := {| kc_chain := 100 |} ]};
     c_kstats := {[ 100 := raw_kstat ]};
     c_chars := ∅;
     tokens := [ {| kc := 1000; ksm := {[ 100 := 0%nat ]} |} ];
     kstats := [ raw_KStat ] |}.

(** The message of the panic in the loop of [AllNamed]. *)
Definition surprise_nil : string := "get_nth_named returned surprise nil".

(** ** How the Go heap may change *)

(** The token a call is made on, for the calls that are methods of [Token]. *)
Definition call_token (c : call) : option nat :=
  match c with
  | call_Close t _ _ | call_All t | call_Lookup t _ _ _ _ _
  | call_Token_GetNamed t _ _ _ _ _ _ _ _ _ => t
  | call_Open _ _ | call_Refresh _ _ | call_GetNamed _ _ _ _ _ | call_AllNamed _ _ => None
  end.

(** A sequence of calls, one after the other. *)
Fixpoint run_all (cs : list call) (w : world) : outcome world :=
  match cs with
  | [] => Returns w
  | c :: cs' => w1 ← run c w; run_all cs' w1
  end.

(** [K'] is [K], but for its [Snaptime]. *)
Definition same_but_Snaptime (K K' : KStat) : Prop :=
  K' = set_Snaptime (KStat_Snaptime K') K.

(** From [w] to [w']: every [KStat] is still at its address, the same but
    for its [Snaptime]; a closed token is what it was, an open one has kept
    its handle (and its cache entries) or has been closed; a new [KStat]
    wraps a [kstat_t] that is not [NULL]; a new token, if closed, caches
    nothing. *)
Record evolves (w w' : world) : Prop := {
  evolves_kstats : ∀ a K, kstats w !! a = Some K →
    ∃ K', kstats w' !! a = Some K' ∧ same_but_Snaptime K K';
  evolves_tokens : ∀ t T, tokens w !! t = Some T →
    ∃ T', tokens w' !! t = Some T'
          ∧ ((kc T = 0 ∧ T' = T)
             ∨ (kc T ≠ 0 ∧ (kc T' = kc T ∧ ksm T ⊆ ksm T' ∨ T' = closed_Token)));
  evolves_new_kstats : ∀ a K', kstats w' !! a = Some K' → kstats w !! a = None →
    ksp K' ≠ 0;
  evolves_new_tokens : ∀ t T', tokens w' !! t = Some T' → tokens w !! t = None →
    kc T' = 0 → ksm T' = ∅;
}.

(** No token but [tk] has changed. *)
Definition untouched (tk : option nat) (w w' : world) : Prop :=
  ∀ t T, tokens w !! t = Some T → tk ≠ Some t → tokens w' !! t = Some T.

(** No [KStat] wraps [NULL]; a closed token caches nothing. *)
Definition no_null (w : world) : Prop :=
  ∀ a K, kstats w !! a = Some K → ksp K ≠ 0.

Definition closed_empty (w : world) : Prop :=
  ∀ t T, tokens w !! t = Some T → kc T = 0 → ksm T = ∅.

(** Two open tokens, each with its own chain; the first has looked at its
    kstat, the second at nothing. *)
Definition two_token_world : world :=
  {| c_ctls := {[ 1000 := {| kc_chain := 100 |}; 2000 := {| kc_chain := 300 |} ]};
     c_kstats := {[ 100 := float_kstat; 300 := cpu_kstat 0 0 ]};
     c_chars := ∅;
     tokens := [ {| kc := 1000; ksm := {[ 100 := 0%nat ]} |}; {| kc := 2000; ksm := ∅ |} ];
     kstats := [ float_KStat ] |}.

(** The start of a program over the C memory of [cpu_world]: [Open] gives
    [cpu_world], [All] then gives [listed_world]. *)
Definition start_world : world :=
  {| c_ctls := c_ctls cpu_world; c_kstats := c_kstats cpu_world; c_chars := ∅;
     tokens := []; kstats := [] |}.

(** The rest of the program: a lookup whose read fails, a refresh, the
    close, and a listing of the closed token. *)
Definition session : list call :=
  [ call_Lookup (Some 0%nat) "cpu" 1 "sys" find_second failed_read;
    call_Refresh (Some 1%nat) good_read;
    call_Close (Some 0%nat) 0 0;
    call_All (Some 0%nat) ].

Definition closed_world : world :=
  match run_all session listed_world with
  | Returns w => w
  | _ => listed_world
  end.

(** The descriptor a call is made on, for the calls that are methods of
    [KStat]. *)
Definition call_KStat (c : call) : option (option nat) :=
  match c with
  | call_Refresh k _ | call_GetNamed k _ _ _ _ | call_AllNamed k _ => Some k
  | _ => None
  end.

(** ** A [KStat] and the [kstat_t] it wraps *)

(** [K] carries the identity of [s]: the fields [newKStat] copies, but for
    the snapshot time. *)
Definition mirrors (K : KStat) (s : kstat_t) : Prop :=
  KStat_Module K = GoString (ks_module s)
  ∧ KStat_Instance K = ks_instance s
  ∧ KStat_Name K = GoString (ks_name s)
  ∧ KStat_Class K = GoString (ks_class s)
  ∧ KStat_Type K = Z.of_N (Byte.to_N (ks_type s))
  ∧ KStat_Crtime K = ks_crtime s.

Definition mirrored (w : world) : Prop :=
  ∀ a K, kstats w !! a = Some K → ∃ s, c_kstats w !! ksp K = Some s ∧ mirrors K s.

(** From [w] to [w']: the C memory has only been read into, and a [KStat]
    is an old one, the same but for its [Snaptime], or mirrors its
    [kstat_t]. *)
Record mirror_step (w w' : world) : Prop := {
  step_C : ∀ p s, c_kstats w !! p = Some s →
    ∃ s', c_kstats w' !! p = Some s' ∧ (s' = s ∨ ∃ rd, s' = read_into rd s);
  step_kstats : ∀ a K', kstats w' !! a = Some K' →
    (∃ K, kstats w !! a = Some K ∧ same_but_Snaptime K K')
    ∨ (∃ s', c_kstats w' !! ksp K' = Some s' ∧ mirrors K' s');
}.

(** * Properties *)

(** ** Bytes and integers *)

Lemma length_string_of_list_byte (l : list byte) :
  String.length (string_of_list_byte l) = length l.
Proof.
  unfold string_of_list_byte.
  induction l as [|b l IH]; simpl; [reflexivity | now rewrite IH].
Qed.

Lemma le_uint_bound (bs : list byte) : 0 ≤ le_uint bs < 256 ^ Z.of_nat (length bs).
Proof.
  induction bs as [|b bs IH].
  - simpl. lia.
  - cbn [le_uint foldr length]. fold (le_uint bs).
    pose proof (Byte.to_N_bounded b) as Hb.
    rewrite Nat2Z.inj_succ, Z.pow_succ_r by lia. lia.
Qed.

Lemma le_uint_take_bound (n : nat) (bs : list byte) :
  0 ≤ le_uint (take n bs) < 256 ^ Z.of_nat n.
Proof.
  pose proof (le_uint_bound (take n bs)) as H.
  assert (256 ^ Z.of_nat (length (take n bs)) ≤ 256 ^ Z.of_nat n).
  { apply Z.pow_le_mono_r; [lia|]. rewrite length_take. lia. }
  lia.
Qed.

Lemma to_signed_range (w u : Z) :
  0 < w → 0 ≤ u < 2 ^ w → - 2 ^ (w - 1) ≤ to_signed w u < 2 ^ (w - 1).
Proof.
  intros Hw Hu. unfold to_signed.
  assert (2 ^ w = 2 * 2 ^ (w - 1)) as E.
  { rewrite <- Z.pow_succ_r by lia. f_equal. lia. }
  destruct (Z.ltb_spec u (2 ^ (w - 1))); lia.
Qed.

Lemma to_signed_widen (w u : Z) :
  0 < w ≤ 64 → 0 ≤ u < 2 ^ w → - 2 ^ 63 ≤ to_signed w u < 2 ^ 63.
Proof.
  intros Hw Hu. pose proof (to_signed_range w u ltac:(lia) Hu) as H.
  assert (2 ^ (w - 1) ≤ 2 ^ 63) by (apply Z.pow_le_mono_r; lia). lia.
Qed.

(** What the C helpers hand to Go always fits the 64-bit slot. *)
Lemma get_named_int_range (knp : kstat_named) :
  - 2 ^ 63 ≤ get_named_int knp < 2 ^ 63.
Proof.
  unfold get_named_int, value_i32, value_i64.
  destruct (_ =? _).
  - apply to_signed_widen; [lia|]. apply (le_uint_take_bound 4).
  - apply to_signed_widen; [lia|]. apply (le_uint_take_bound 8).
Qed.

Lemma get_named_uint_range (knp : kstat_named) :
  0 ≤ get_named_uint knp < 2 ^ 64.
Proof.
  unfold get_named_uint, value_ui32, value_ui64.
  destruct (_ =? _).
  - pose proof (le_uint_take_bound 4 (value knp)). simpl in *. lia.
  - apply (le_uint_take_bound 8).
Qed.

(** ** The decoder *)

Lemma known_type_cases (ty : Z) :
  known_type ty = true →
  ty = String ∨ ty = CharData ∨ ty = Int32 ∨ ty = Int64 ∨ ty = Uint32 ∨ ty = Uint64.
Proof.
  unfold known_type. rewrite !orb_true_iff, !Z.eqb_eq. tauto.
Qed.

Lemma slot_of_known (ty : Z) : known_type ty = true → is_Some (slot_of_type ty).
Proof.
  intros H. apply known_type_cases in H.
  unfold slot_of_type.
  destruct H as [->|[->|[->|[->|[->| ->]]]]]; vm_compute; eauto.
Qed.

Lemma slot_of_unknown (ty : Z) : known_type ty = false → slot_of_type ty = None.
Proof.
  unfold known_type, slot_of_type. rewrite !orb_false_iff.
  intros [[[[[-> ->] ->] ->] ->] ->]. reflexivity.
Qed.

(** C1: for a record of one of the six known kinds (a string record's
    pointer being readable), [newNamed] returns a [Named] of that type whose
    value field selected by the type holds the value of the union -- the
    32-bit and the 64-bit members both landing in the 64-bit [IntVal] or
    [UintVal], within its range -- while the other two value fields are
    zero or empty. *)
Theorem newNamed_populates_one_slot
    (cm : gmap Z (list byte)) (k : option nat) (knp : kstat_named) :
  known_type (NamedType_of knp) = true →
  str_readable cm knp →
  ∃ st sl,
    newNamed cm k knp = Returns st
    ∧ Named_Type st = NamedType_of knp
    ∧ slot_of_type (Named_Type st) = Some sl
    ∧ slot_holds cm knp st
    ∧ others_zero sl st
    ∧ - 2 ^ 63 ≤ Named_IntVal st < 2 ^ 63
    ∧ 0 ≤ Named_UintVal st < 2 ^ 64.
Proof.
  intros Hk Hs. apply known_type_cases in Hk.
  pose proof (get_named_int_range knp) as Hi.
  pose proof (get_named_uint_range knp) as Hu.
  unfold str_readable in Hs. unfold newNamed, slot_holds. cbn [Named_Type].
  unfold get_named_int, get_named_uint, get_named_char in *.
  fold (NamedType_of knp) in *.
  assert (∀ sl st,
            Named_Type st = NamedType_of knp →
            slot_of_type (Named_Type st) = Some sl →
            slot_holds cm knp st → others_zero sl st →
            - 2 ^ 63 ≤ Named_IntVal st < 2 ^ 63 →
            0 ≤ Named_UintVal st < 2 ^ 64 →
            ∃ st' sl', Returns st = Returns st'
              ∧ Named_Type st' = NamedType_of knp
              ∧ slot_of_type (Named_Type st') = Some sl'
              ∧ slot_holds cm knp st' ∧ others_zero sl' st'
              ∧ - 2 ^ 63 ≤ Named_IntVal st' < 2 ^ 63
              ∧ 0 ≤ Named_UintVal st' < 2 ^ 64) as Hex by eauto 10.
  unfold slot_holds in Hex.
  destruct Hk as [E|[E|[E|[E|[E|E]]]]]; rewrite E in *; cbn -[Z.pow] in *.
  - destruct (Hs eq_refl) as [Hp|[mem Hp]].
    + unfold GoString_at in *. rewrite Hp in *. cbn -[Z.pow].
      apply (Hex StringVal); cbn -[Z.pow]; auto with lia.
    + unfold GoString_at in *. rewrite Hp in *.
      destruct (value_str_addr_ptr knp =? 0); cbn -[Z.pow];
        apply (Hex StringVal); cbn -[Z.pow]; auto with lia.
  - apply (Hex StringVal); cbn -[Z.pow]; auto with lia.
  - apply (Hex IntVal); cbn -[Z.pow]; auto with lia.
  - apply (Hex IntVal); cbn -[Z.pow]; auto with lia.
  - apply (Hex UintVal); cbn -[Z.pow]; auto with lia.
  - apply (Hex UintVal); cbn -[Z.pow]; auto with lia.
Qed.

Lemma newNamed_populates_one_slot_witness :
  ∃ st sl,
    newNamed string_memory None string_record = Returns st
    ∧ Named_Type st = NamedType_of string_record
    ∧ slot_of_type (Named_Type st) = Some sl
    ∧ slot_holds string_memory string_record st
    ∧ others_zero sl st
    ∧ - 2 ^ 63 ≤ Named_IntVal st < 2 ^ 63
    ∧ 0 ≤ Named_UintVal st < 2 ^ 64.
Proof.
  apply newNamed_populates_one_slot.
  - reflexivity.
  - intros _. right. exists [x68; x69; x00]. reflexivity.
Defined.

(** What [newNamed] does with a fixed-width char block: 16 bytes of the
    union, whatever they are. *)
Lemma newNamed_CharData (cm : gmap Z (list byte)) (k : option nat) (knp : kstat_named) :
  NamedType_of knp = CharData →
  newNamed cm k knp =
    Returns {| Named_Name := GoString (name knp); Named_Type := CharData;
               Named_StringVal := GoStringN (value knp) 16;
               Named_IntVal := 0; Named_UintVal := 0; Named_KStat := k |}.
Proof.
  intros E. unfold newNamed. cbn [Named_Type]. fold (NamedType_of knp).
  rewrite E. reflexivity.
Qed.

Lemma newNamed_CharData_length (cm : gmap Z (list byte)) (k : option nat) (knp : kstat_named) :
  NamedType_of knp = CharData →
  length (value knp) = 16%nat →
  ∃ st, newNamed cm k knp = Returns st
        ∧ String.length (Named_StringVal st) = 16%nat.
Proof.
  intros E Hlen. rewrite (newNamed_CharData _ _ _ E). eexists. split; [reflexivity|].
  cbn [Named_StringVal]. unfold GoStringN.
  rewrite length_string_of_list_byte, length_take. lia.
Qed.

(** C3, as the code has it: a char block whose first NUL is at position 3
    decodes to a string of 16 bytes -- the three characters and the thirteen
    NUL bytes after them -- and not to one of length 3. *)
Theorem newNamed_char_block_embedded_nul :
  NamedType_of char_block_abc = CharData
  ∧ length (value char_block_abc) = 16%nat
  ∧ length (until_nul (value char_block_abc)) = 3%nat
  ∧ ∃ st, newNamed ∅ None char_block_abc = Returns st
          ∧ String.length (Named_StringVal st) = 16%nat
          ∧ String.length (Named_StringVal st) ≠ 3%nat.
Proof.
  repeat split; try reflexivity.
  eexists. split; [reflexivity|]. split; [reflexivity|]. vm_compute. discriminate.
Qed.

(** The decoder on a tag outside the six kinds. *)
Lemma newNamed_unknown (cm : gmap Z (list byte)) (k : option nat) (knp : kstat_named) :
  known_type (NamedType_of knp) = false →
  newNamed cm k knp = Panics ("unknown stat type: " +:+ fmt_d (NamedType_of knp)).
Proof.
  unfold known_type, newNamed. cbn [Named_Type]. fold (NamedType_of knp).
  rewrite !orb_false_iff. intros [[[[[-> ->] ->] ->] ->] ->]. reflexivity.
Qed.

(** ** Outcomes *)

Lemma bind_Returns {A B : Type} (m : outcome A) (f : A → outcome B) (b : B) :
  m ≫= f = Returns b ↔ ∃ a, m = Returns a ∧ f a = Returns b.
Proof.
  destruct m as [a| |]; cbn; split.
  - eauto.
  - now intros (a' & [= <-] & H).
  - discriminate.
  - now intros (a' & [=] & _).
  - discriminate.
  - now intros (a' & [=] & _).
Qed.

Lemma bind_not_Diverges {A B : Type} (m : outcome A) (f : A → outcome B) :
  m ≠ Diverges → (∀ a, f a ≠ Diverges) → m ≫= f ≠ Diverges.
Proof. destruct m; cbn; auto. Qed.

(** Case analysis on the matches of a hypothesis about an outcome. *)
Ltac outcome_cases H :=
  repeat match type of H with
         | context [match ?x with _ => _ end] => destruct x eqn:?; try discriminate H
         | context [if ?x then _ else _] => destruct x eqn:?; try discriminate H
         end.

(** ** The cache invariant *)

Lemma ident_lookup (w w' : world) (r : nat) (K' : KStat) :
  ident <$> kstats w' = ident <$> kstats w →
  kstats w' !! r = Some K' →
  ∃ K, kstats w !! r = Some K ∧ tok K = tok K' ∧ ksp K = ksp K'.
Proof.
  intros E H.
  assert ((ident <$> kstats w) !! r = Some (ident K')) as H'.
  { rewrite <- E, list_lookup_fmap, H. reflexivity. }
  rewrite list_lookup_fmap in H'.
  destruct (kstats w !! r) as [K|]; [|discriminate].
  injection H' as H1 H2. eauto.
Qed.

Lemma cache_ok_ident (w w' : world) :
  tokens w' = tokens w →
  ident <$> kstats w' = ident <$> kstats w →
  cache_ok w → cache_ok w'.
Proof.
  intros Et Ek [Hs Hc Hu]. split.
  - intros t T p r HT Hp. rewrite Et in HT.
    destruct (Hs _ _ _ _ HT Hp) as (K & HK & ? & ?).
    destruct (ident_lookup w' w r K (eq_sym Ek) HK) as (K' & ? & ? & ?).
    exists K'. repeat split; congruence.
  - intros r K' HK'.
    destruct (ident_lookup _ _ _ _ Ek HK') as (K & HK & E1 & E2).
    destruct (Hc _ _ HK) as (t & T & ? & ? & ?).
    exists t, T. rewrite Et, <- E1, <- E2. auto.
  - intros r1 r2 K1' K2' H1 H2 E1 E2.
    destruct (ident_lookup _ _ _ _ Ek H1) as (K1 & ? & ? & ?).
    destruct (ident_lookup _ _ _ _ Ek H2) as (K2 & ? & ? & ?).
    apply (Hu r1 r2 K1 K2); congruence.
Qed.

Lemma same_C_refl (w : world) : same_C w w.
Proof. repeat split. Qed.

Lemma same_C_trans (w1 w2 w3 : world) : same_C w1 w2 → same_C w2 w3 → same_C w1 w3.
Proof. intros (?&?&?) (?&?&?). repeat split; congruence. Qed.

(** ** [newKStat] *)

Lemma newKStat_hit (tk : nat) (p : Z) (k : nat) (w : world) :
  cached tk p k w → newKStat tk p w = Returns (k, w).
Proof. intros (T & HT & Hp). unfold newKStat. now rewrite HT, Hp. Qed.

Lemma newKStat_Returns (tk : nat) (p : Z) (w : world) (k : nat) (w' : world) :
  newKStat tk p w = Returns (k, w') →
  ∃ T, tokens w !! tk = Some T
       ∧ ((ksm T !! p = Some k ∧ w' = w)
          ∨ (ksm T !! p = None ∧ k = length (kstats w)
             ∧ ∃ s, c_kstats w !! p = Some s ∧ w' = alloc_KStat tk p T s w)).
Proof.
  unfold newKStat. intros H. outcome_cases H; simplify_eq; eauto 10.
Qed.

Lemma alloc_KStat_cache_ok (tk : nat) (p : Z) (T : Token) (s : kstat_t) (w : world) :
  cache_ok w → tokens w !! tk = Some T → kc T ≠ 0 → ksm T !! p = None →
  cache_ok (alloc_KStat tk p T s w).
Proof.
  intros [Hs Hc Hu] HT Hopen Hmiss.
  assert (tk < length (tokens w))%nat as Hlt by (eapply lookup_lt_Some; eauto).
  split; cbn.
  - intros t T0 p0 r HT0 Hp0.
    destruct (decide (t = tk)) as [->|Hne].
    + rewrite list_lookup_insert_eq in HT0 by done. simplify_eq. cbn in Hp0.
      destruct (decide (p0 = p)) as [->|Hp].
      * rewrite lookup_insert_eq in Hp0. simplify_eq.
        eexists. split; [apply list_lookup_middle; reflexivity|]. done.
      * rewrite lookup_insert_ne in Hp0 by done.
        destruct (Hs _ _ _ _ HT Hp0) as (K & HK & ? & ?).
        exists K. split; [|done]. now apply lookup_app_l_Some.
    + rewrite list_lookup_insert_ne in HT0 by done.
      destruct (Hs _ _ _ _ HT0 Hp0) as (K & HK & ? & ?).
      exists K. split; [|done]. now apply lookup_app_l_Some.
  - intros r K HK.
    apply lookup_app_Some in HK as [HK|[Hge HK]].
    + destruct (Hc _ _ HK) as (t & T0 & Ht & HT0 & Hin).
      destruct (decide (t = tk)) as [->|Hne].
      * simplify_eq. eexists tk, _. split; [done|].
        split; [apply list_lookup_insert_eq; done|]. cbn. intros Ho.
        destruct (decide (ksp K = p)) as [E|Hp].
        -- rewrite <- E, (Hin Ho) in Hmiss. discriminate.
        -- rewrite lookup_insert_ne by done. auto.
      * exists t, T0. split; [done|].
        split; [rewrite list_lookup_insert_ne; done|]. done.
    + apply list_lookup_singleton_Some in HK as [Hr <-]. cbn.
      eexists tk, _. split; [done|].
      split; [apply list_lookup_insert_eq; done|]. cbn. intros _.
      rewrite lookup_insert_eq. f_equal. lia.
  - assert (∀ r K, kstats w !! r = Some K → tok K = Some tk → ksp K = p → False) as Hfresh.
    { intros r K HK Ht Hp. destruct (Hc _ _ HK) as (t & T0 & Ht' & HT0 & Hin).
      simplify_eq. rewrite (Hin Hopen) in Hmiss. discriminate. }
    intros r1 r2 K1 K2 H1 H2 Et Ep.
    apply lookup_app_Some in H1 as [H1|[Hge1 H1]];
      apply lookup_app_Some in H2 as [H2|[Hge2 H2]].
    + eauto.
    + apply list_lookup_singleton_Some in H2 as [Hr <-]. cbn in *.
      exfalso. eauto.
    + apply list_lookup_singleton_Some in H1 as [Hr <-]. cbn in *.
      exfalso. eapply Hfresh; eauto.
    + apply list_lookup_singleton_Some in H1 as [Hr1 _].
      apply list_lookup_singleton_Some in H2 as [Hr2 _]. lia.
Qed.

Lemma grows_refl (tk : nat) (w : world) : grows tk w w.
Proof. split; [apply same_C_refl | eauto | done]. Qed.

Lemma grows_trans (tk : nat) (w1 w2 w3 : world) :
  grows tk w1 w2 → grows tk w2 w3 → grows tk w1 w3.
Proof.
  intros [C1 T1 H1] [C2 T2 H2]. split.
  - eapply same_C_trans; eauto.
  - intros T HT. destruct (T1 _ HT) as (T' & HT' & ? & ?).
    destruct (T2 _ HT') as (T'' & HT'' & ? & ?).
    exists T''. repeat split; [done|congruence|]. etrans; eauto.
  - etrans; eauto.
Qed.

Lemma grows_cached (tk : nat) (w w' : world) (p : Z) (k : nat) :
  grows tk w w' → cached tk p k w → cached tk p k w'.
Proof.
  intros [_ HT _] (T & HTk & Hp). destruct (HT _ HTk) as (T' & ? & _ & Hsub).
  exists T'. split; [done|]. eapply lookup_weaken; eauto.
Qed.

Lemma grows_open (tk : nat) (w w' : world) :
  grows tk w w' → is_open tk w → is_open tk w'.
Proof.
  intros [_ HT _] (T & HTk & Ho). destruct (HT _ HTk) as (T' & ? & E & _).
  exists T'. split; [done|congruence].
Qed.

Lemma alloc_KStat_grows (tk : nat) (p : Z) (T : Token) (s : kstat_t) (w : world) :
  tokens w !! tk = Some T → ksm T !! p = None →
  grows tk w (alloc_KStat tk p T s w).
Proof.
  intros HT Hmiss. split; cbn.
  - repeat split.
  - intros T0 HT0. simplify_eq. eexists. split.
    + apply list_lookup_insert_eq. eapply lookup_lt_Some; eauto.
    + cbn. split; [done|]. now apply insert_subseteq.
  - now apply prefix_app_r.
Qed.

Lemma alloc_KStat_cached (tk : nat) (p : Z) (T : Token) (s : kstat_t) (w : world) :
  tokens w !! tk = Some T →
  cached tk p (length (kstats w)) (alloc_KStat tk p T s w).
Proof.
  intros HT. eexists. split.
  - cbn. apply list_lookup_insert_eq. eapply lookup_lt_Some; eauto.
  - cbn. apply lookup_insert_eq.
Qed.

(** On an open token [newKStat] keeps the invariant and leaves [k] cached. *)
Lemma newKStat_spec (tk : nat) (p : Z) (w : world) (k : nat) (w' : world) :
  cache_ok w → is_open tk w →
  newKStat tk p w = Returns (k, w') →
  cache_ok w' ∧ grows tk w w' ∧ cached tk p k w'.
Proof.
  intros Hok (T & HT & Ho) H.
  apply newKStat_Returns in H as (T' & HT' & [[Hp ->]|(Hp & -> & s & Hs & ->)]);
    simplify_eq.
  - split; [done|]. split; [apply grows_refl|]. exists T. done.
  - split; [now apply alloc_KStat_cache_ok|].
    split; [now apply alloc_KStat_grows|]. now apply alloc_KStat_cached.
Qed.

(** ** [All] *)

Lemma All_loop_Returns (fuel : nat) (tk : nat) (r : Z) (n : list nat) (w : world)
    (l : list nat) (w' : world) :
  cache_ok w → is_open tk w →
  All_loop fuel tk r n w = Returns (l, w') →
  cache_ok w' ∧ grows tk w w'
  ∧ ∃ ps ks, chain_of (c_kstats w) fuel r = Some ps
             ∧ l = n ++ ks
             ∧ Forall2 (λ k p, cached tk p k w') ks ps.
Proof.
  revert r n w. induction fuel as [|fuel IH]; intros r n w Hok Ho H; [discriminate|].
  cbn in H. destruct (r =? 0) eqn:Er.
  - simplify_eq. split; [done|]. split; [apply grows_refl|].
    exists [], []. cbn. rewrite Er, app_nil_r. done.
  - apply bind_Returns in H as ([k w1] & Hnew & H).
    destruct (newKStat_spec _ _ _ _ _ Hok Ho Hnew) as (Hok1 & Hg1 & Hc1).
    destruct (c_kstats w1 !! r) as [s|] eqn:Hs; [|discriminate].
    destruct (IH _ _ _ Hok1 (grows_open _ _ _ Hg1 Ho) H)
      as (Hok' & Hg' & ps & ks & Hch & -> & Hall).
    split; [done|]. split; [eapply grows_trans; eauto|].
    destruct Hg1 as [(_ & EC & _) _ _]. rewrite EC in Hs, Hch.
    exists (r :: ps), (k :: ks). cbn. rewrite Er, Hs, Hch.
    split; [done|]. split; [now rewrite <- app_assoc|].
    constructor; [|done]. eapply grows_cached; eauto.
Qed.

Lemma All_loop_cached (fuel : nat) (tk : nat) (r : Z) (n : list nat) (w : world)
    (ps : list Z) (ks : list nat) :
  chain_of (c_kstats w) fuel r = Some ps →
  Forall2 (λ k p, cached tk p k w) ks ps →
  All_loop fuel tk r n w = Returns (n ++ ks, w).
Proof.
  revert r n ps ks. induction fuel as [|fuel IH]; intros r n ps ks Hch Hall; [discriminate|].
  cbn in *. destruct (r =? 0).
  - simplify_eq. inversion Hall. now rewrite app_nil_r.
  - destruct (c_kstats w !! r) as [s|] eqn:Hs; [|discriminate].
    destruct (chain_of (c_kstats w) fuel (ks_next s)) as [ps'|] eqn:Hch'; [|discriminate].
    cbn in Hch. simplify_eq. inversion Hall as [|k p ks' ? Hk Hall']; subst.
    rewrite (newKStat_hit _ _ _ _ Hk). cbn. rewrite Hs.
    rewrite (IH _ _ _ _ Hch' Hall'). now rewrite <- app_assoc.
Qed.

Lemma All_Returns (tk : nat) (T : Token) (w : world) (l : list nat) (w' : world) :
  cache_ok w → tokens w !! tk = Some T → kc T ≠ 0 →
  All (Some tk) w = Returns (l, w') →
  cache_ok w' ∧ grows tk w w'
  ∧ ∃ ps, chain T w = Some ps ∧ Forall2 (λ k p, cached tk p k w') l ps.
Proof.
  intros Hok HT Ho H. unfold All, chain in *.
  cbn [load_Token default] in H. rewrite HT in H.
  destruct (kc T =? 0) eqn:E; [lia|].
  destruct (c_ctls w !! kc T) as [ctl|]; [|discriminate].
  apply All_loop_Returns in H as (? & ? & ps & ks & ? & -> & ?);
    [|done|by exists T].
  eauto.
Qed.

Lemma All_closed (t : option nat) (T : Token) (w : world) :
  load_Token t w = Some T → kc T = 0 → All t w = Returns ([], w).
Proof. intros HT E. unfold All. now rewrite HT, E. Qed.

(** ** [Refresh] *)

Lemma Refresh_invalid (k : option nat) (rd : read_result) (w : world) :
  invalid k w = true → Refresh k rd w = Returns (closed_error, w).
Proof. intros H. unfold Refresh. now rewrite H. Qed.

Lemma kstat_read_lookup (p : Z) (rd : read_result) (w : world) :
  c_kstats (kstat_read p rd w) !! p = read_into rd <$> c_kstats w !! p.
Proof. cbn. rewrite lookup_alter. case_decide; done. Qed.

Lemma kstat_read_lookup_ne (p q : Z) (rd : read_result) (w : world) :
  p ≠ q → c_kstats (kstat_read p rd w) !! q = c_kstats w !! q.
Proof. intros. cbn. rewrite lookup_alter. case_decide; done. Qed.

Lemma Refresh_valid (a : nat) (K : KStat) (rd : read_result) (w : world) :
  invalid (Some a) w = false → kstats w !! a = Some K →
  Refresh (Some a) rd w =
    if rd_res rd =? -1 then Returns (cgo_err (rd_errno rd), kstat_read (ksp K) rd w)
    else match c_kstats w !! ksp K with
         | Some _ => Returns (None, refreshed a K rd w)
         | None => Panics sigsegv
         end.
Proof.
  intros Hv HK. unfold Refresh. rewrite Hv. cbn [load_KStat default]. rewrite HK.
  destruct (rd_res rd =? -1); [done|].
  rewrite kstat_read_lookup. destruct (c_kstats w !! ksp K); done.
Qed.

Lemma Refresh_cases (k : option nat) (rd : read_result) (w : world)
    (e : option error) (w' : world) :
  Refresh k rd w = Returns (e, w') →
  (invalid k w = true ∧ e = closed_error ∧ w' = w)
  ∨ ∃ a K, k = Some a ∧ kstats w !! a = Some K ∧ invalid k w = false
      ∧ ((rd_res rd = -1 ∧ e = cgo_err (rd_errno rd) ∧ w' = kstat_read (ksp K) rd w)
         ∨ (rd_res rd ≠ -1 ∧ e = None ∧ w' = refreshed a K rd w
            ∧ is_Some (c_kstats w !! ksp K))).
Proof.
  intros H. destruct (invalid k w) eqn:Hv.
  - rewrite Refresh_invalid in H by done. simplify_eq. auto.
  - right. destruct k as [a|]; [|discriminate].
    destruct (kstats w !! a) as [K|] eqn:HK.
    2:{ unfold invalid in Hv. cbn in Hv. rewrite HK in Hv. discriminate. }
    exists a, K. rewrite (Refresh_valid _ _ _ _ Hv HK) in H.
    destruct (Z.eqb_spec (rd_res rd) (-1)).
    + simplify_eq. auto 10.
    + destruct (c_kstats w !! ksp K) eqn:?; simplify_eq. eauto 10.
Qed.

Lemma refreshed_ident (a : nat) (K : KStat) (rd : read_result) (w : world) :
  kstats w !! a = Some K →
  ident <$> kstats (refreshed a K rd w) = ident <$> kstats w.
Proof.
  intros HK. cbn. rewrite list_fmap_insert. apply list_insert_id.
  rewrite list_lookup_fmap, HK. reflexivity.
Qed.

(** [Refresh] touches neither the tokens nor the identity of any [KStat]. *)
Lemma Refresh_frame (k : option nat) (rd : read_result) (w : world)
    (e : option error) (w' : world) :
  Refresh k rd w = Returns (e, w') →
  tokens w' = tokens w
  ∧ ident <$> kstats w' = ident <$> kstats w
  ∧ c_ctls w' = c_ctls w.
Proof.
  intros H. apply Refresh_cases in H
    as [(_ & _ & ->)|(a & K & -> & HK & _ & [(_ & _ & ->)|(_ & _ & -> & _)])];
    try done.
  split; [done|]. split; [now apply refreshed_ident|done].
Qed.

Lemma Refresh_cache_ok (k : option nat) (rd : read_result) (w : world)
    (e : option error) (w' : world) :
  cache_ok w → Refresh k rd w = Returns (e, w') → cache_ok w'.
Proof.
  intros Hok H. apply Refresh_frame in H as (? & ? & _).
  eapply cache_ok_ident; eauto.
Qed.

Lemma Refresh_cached (k : option nat) (rd : read_result) (w : world)
    (e : option error) (w' : world) (tk : nat) (p : Z) (r : nat) :
  Refresh k rd w = Returns (e, w') → cached tk p r w → cached tk p r w'.
Proof.
  intros H (T & HT & Hp). apply Refresh_frame in H as (Et & _).
  exists T. now rewrite Et.
Qed.

(** A cached [KStat] of an open token, for a non-[NULL] [kstat_t], is valid. *)
Lemma cached_valid (tk : nat) (p : Z) (k : nat) (w : world) :
  cache_ok w → is_open tk w → cached tk p k w → p ≠ 0 →
  ∃ K, kstats w !! k = Some K ∧ ksp K = p ∧ tok K = Some tk
       ∧ invalid (Some k) w = false.
Proof.
  intros Hok (T & HT & Ho) (T' & HT' & Hp) Hnz. simplify_eq.
  destruct (cache_sound _ Hok _ _ _ _ HT Hp) as (K & HK & Ht & Hksp).
  exists K. repeat split; try done.
  unfold invalid. cbn. rewrite HK, Ht. cbn. rewrite HT.
  apply orb_false_iff. split; apply Z.eqb_neq; congruence.
Qed.

(** ** [Lookup] *)

Lemma Lookup_closed (t : option nat) (module : string) (instance : Z) (nm : string)
    (f : lookup_fn) (rd : read_result) (w : world) :
  (∀ T, load_Token t w = Some T → kc T = 0) →
  Lookup t module instance nm f rd w = Returns ((None, token_error), w).
Proof.
  intros H. unfold Lookup. destruct (load_Token t w) as [T|]; [|done].
  now rewrite (H T eq_refl).
Qed.

(** [Lookup] on an open token whose [kstat_lookup] finds [p]. *)
Lemma Lookup_found (tk : nat) (T : Token) (module : string) (instance : Z) (nm : string)
    (f : lookup_fn) (rd : read_result) (w : world) (p errno : Z) :
  tokens w !! tk = Some T → kc T ≠ 0 →
  f (kc T) (maybeCString module) (C_int instance) (maybeCString nm) = (p, errno) →
  p ≠ 0 →
  Lookup (Some tk) module instance nm f rd w =
    '(k, w1) ← newKStat tk p w;
    '(err, w2) ← Refresh (Some k) rd w1;
    match err with
    | Some _ => Returns ((None, err), w2)
    | None => Returns ((Some k, None), w2)
    end.
Proof.
  intros HT Ho Hf Hp. unfold Lookup. cbn [load_Token default]. rewrite HT, Hf.
  destruct (Z.eqb_spec (kc T) 0); [done|]. destruct (Z.eqb_spec p 0); done.
Qed.

Lemma Lookup_cache_ok (t : option nat) (module : string) (instance : Z) (nm : string)
    (f : lookup_fn) (rd : read_result) (w : world)
    (res : option nat * option error) (w' : world) :
  cache_ok w →
  Lookup t module instance nm f rd w = Returns (res, w') → cache_ok w'.
Proof.
  intros Hok H. unfold Lookup in H.
  destruct t as [tk|]; cbn [load_Token default] in H; [|by simplify_eq].
  destruct (tokens w !! tk) as [T|] eqn:HT; [|by simplify_eq].
  destruct (Z.eqb_spec (kc T) 0); [by simplify_eq|].
  destruct (f _ _ _ _) as [p errno].
  destruct (p =? 0); [by simplify_eq|].
  apply bind_Returns in H as ([k w1] & Hnew & H).
  apply bind_Returns in H as ([err w2] & Href & H).
  assert (w' = w2) as -> by (destruct err; simplify_eq; done).
  eapply Refresh_cache_ok; [|done].
  eapply newKStat_spec; [done| |done]. by exists T.
Qed.

Lemma cached_functional (tk : nat) (p : Z) (k k' : nat) (w : world) :
  cached tk p k w → cached tk p k' w → k = k'.
Proof. intros (T & HT & Hp) (T' & HT' & Hp'). congruence. Qed.

(** What a [Lookup] that returns a [KStat] has done. *)
Lemma Lookup_Some (tk : nat) (T : Token) (module : string) (instance : Z) (nm : string)
    (f : lookup_fn) (rd : read_result) (w : world)
    (k : nat) (e : option error) (w' : world) :
  tokens w !! tk = Some T → kc T ≠ 0 →
  Lookup (Some tk) module instance nm f rd w = Returns ((Some k, e), w') →
  ∃ p errno w1,
    f (kc T) (maybeCString module) (C_int instance) (maybeCString nm) = (p, errno)
    ∧ p ≠ 0 ∧ e = None
    ∧ newKStat tk p w = Returns (k, w1)
    ∧ Refresh (Some k) rd w1 = Returns (None, w').
Proof.
  intros HT Ho H.
  destruct (f (kc T) (maybeCString module) (C_int instance) (maybeCString nm))
    as [p errno] eqn:Hf.
  destruct (Z.eqb_spec p 0) as [->|Hp].
  { unfold Lookup in H. cbn [load_Token] in H. rewrite HT, Hf in H.
    destruct (kc T =? 0); simplify_eq. }
  rewrite (Lookup_found _ _ _ _ _ _ _ _ _ _ HT Ho Hf Hp) in H.
  apply bind_Returns in H as ([k1 w1] & Hnew & H).
  apply bind_Returns in H as ([err w2] & Href & H).
  destruct err; simplify_eq. eauto 10.
Qed.

(** C2: on an open token, in a world where the cache invariant holds,
    (1) a second [All] returns the very references the first one returned,
    one per [kstat_t] of the chain; (2) a [Lookup] after [All] that resolves
    to the [i]-th [kstat_t] of the chain returns the [i]-th reference of
    [All]; (3) a [Lookup] after a [Lookup] that resolves to the same
    [kstat_t] returns the same reference; and (4) after these calls no two
    [KStat] objects of one token stand for the same [kstat_t]. *)
Theorem identity_caching (tk : nat) (T : Token) (w : world) :
  cache_ok w → tokens w !! tk = Some T → kc T ≠ 0 →
  (∀ l w1, All (Some tk) w = Returns (l, w1) →
     All (Some tk) w1 = Returns (l, w1)
     ∧ (∃ ps, chain T w = Some ps ∧ length l = length ps
          ∧ ∀ module instance nm f rd p errno i k w2,
              f (kc T) (maybeCString module) (C_int instance) (maybeCString nm) = (p, errno) →
              ps !! i = Some p →
              Lookup (Some tk) module instance nm f rd w1 = Returns ((Some k, None), w2) →
              l !! i = Some k)
     ∧ cache_ok w1)
  ∧ (∀ module instance nm f rd k w1,
       Lookup (Some tk) module instance nm f rd w = Returns ((Some k, None), w1) →
       (∀ module' instance' nm' f' rd' k' w2,
          f' (kc T) (maybeCString module') (C_int instance') (maybeCString nm')
            = f (kc T) (maybeCString module) (C_int instance) (maybeCString nm) →
          Lookup (Some tk) module' instance' nm' f' rd' w1 = Returns ((Some k', None), w2) →
          k' = k)
       ∧ cache_ok w1)
  ∧ (∀ r1 r2 K1 K2,
       kstats w !! r1 = Some K1 → kstats w !! r2 = Some K2 →
       tok K1 = tok K2 → ksp K1 = ksp K2 → r1 = r2).
Proof.
  intros Hok HT Ho. split; [|split].
  - intros l w1 HAll.
    destruct (All_Returns _ _ _ _ _ Hok HT Ho HAll) as (Hok1 & Hg & ps & Hch & Hall).
    destruct (grows_token _ _ _ Hg _ HT) as (T1 & HT1 & Ekc & _).
    destruct (grows_C _ _ _ Hg) as (EC1 & EC2 & _).
    split; [|split; [|done]].
    + unfold All. cbn [load_Token default]. rewrite HT1, Ekc.
      destruct (Z.eqb_spec (kc T) 0); [done|].
      unfold chain in Hch. rewrite EC1.
      destruct (c_ctls w !! kc T) as [ctl|]; [|discriminate].
      rewrite <- EC2 in Hch.
      exact (All_loop_cached _ _ _ [] _ _ _ Hch Hall).
    + exists ps. split; [done|]. split; [eapply Forall2_length; eauto|].
      intros module instance nm f rd p errno i k w2 Hf Hi HL.
      assert (kc T1 ≠ 0) as Ho1 by congruence.
      destruct (Lookup_Some _ _ _ _ _ _ _ _ _ _ _ HT1 Ho1 HL)
        as (p' & errno' & w1' & Hf' & Hp' & _ & Hnew & _).
      rewrite Ekc, Hf in Hf'. simplify_eq.
      destruct (Forall2_lookup_r _ _ _ _ _ Hall Hi) as (k0 & Hk0 & Hc0).
      rewrite (newKStat_hit _ _ _ _ Hc0) in Hnew. by simplify_eq.
  - intros module instance nm f rd k w1 HL.
    destruct (Lookup_Some _ _ _ _ _ _ _ _ _ _ _ HT Ho HL)
      as (p & errno & w0 & Hf & Hp & _ & Hnew & Href).
    destruct (newKStat_spec _ _ _ _ _ Hok (ex_intro _ T (conj HT Ho)) Hnew)
      as (Hok0 & Hg & Hc).
    split; [|eapply Refresh_cache_ok; eauto].
    intros module' instance' nm' f' rd' k' w2 Hf' HL'.
    destruct (grows_token _ _ _ Hg _ HT) as (T0 & HT0 & Ekc & _).
    pose proof (Refresh_frame _ _ _ _ _ Href) as (Et & _).
    rewrite <- Et in HT0.
    assert (kc T0 ≠ 0) as Ho0 by congruence.
    destruct (Lookup_Some _ _ _ _ _ _ _ _ _ _ _ HT0 Ho0 HL')
      as (p' & errno' & w1' & Hf'' & Hp' & _ & Hnew' & _).
    rewrite Ekc, Hf', Hf in Hf''. simplify_eq.
    pose proof (Refresh_cached _ _ _ _ _ _ _ _ Href Hc) as Hc1.
    rewrite (newKStat_hit _ _ _ _ Hc1) in Hnew'. by simplify_eq.
  - apply (cache_unique _ Hok).
Qed.

Lemma newKStat_total (tk : nat) (T : Token) (p : Z) (w : world) :
  tokens w !! tk = Some T → is_Some (c_kstats w !! p) →
  ∃ k w', newKStat tk p w = Returns (k, w').
Proof.
  intros HT [s Hs]. unfold newKStat. rewrite HT, Hs.
  destruct (ksm T !! p); eauto.
Qed.

Lemma cgo_err_set (errno : Z) : errno ≠ 0 → cgo_err errno = Some (Errno errno).
Proof. intros H. unfold cgo_err. now destruct (Z.eqb_spec errno 0). Qed.

(** C6: on an open token, when [kstat_lookup] finds the [kstat_t] at [p] and
    the [kstat_read] of the refresh fails (returns -1 with [errno] set),
    [Lookup] returns that error and no [KStat]; the token still caches a
    [KStat] [k] for [p]; and a later [Lookup] that resolves to [p] and whose
    read succeeds returns this same [k], refreshed. *)
Theorem Lookup_failed_refresh_keeps_cache
    (tk : nat) (T : Token) (module : string) (instance : Z) (nm : string)
    (f : lookup_fn) (rd : read_result) (w : world) (p errno : Z) :
  cache_ok w → tokens w !! tk = Some T → kc T ≠ 0 →
  f (kc T) (maybeCString module) (C_int instance) (maybeCString nm) = (p, errno) →
  p ≠ 0 → is_Some (c_kstats w !! p) →
  rd_res rd = -1 → rd_errno rd ≠ 0 →
  ∃ k w',
    Lookup (Some tk) module instance nm f rd w
      = Returns ((None, Some (Errno (rd_errno rd))), w')
    ∧ cached tk p k w'
    ∧ cache_ok w'
    ∧ ∀ rd', rd_res rd' ≠ -1 →
        ∃ w'' K,
          Lookup (Some tk) module instance nm f rd' w' = Returns ((Some k, None), w'')
          ∧ kstats w'' !! k = Some K
          ∧ ksp K = p
          ∧ KStat_Snaptime K = rd_snaptime rd'.
Proof.
  intros Hok HT Ho Hf Hp Hmem Hres Herrno.
  destruct (newKStat_total _ _ _ _ HT Hmem) as (k & w1 & Hnew).
  destruct (newKStat_spec _ _ _ _ _ Hok (ex_intro _ T (conj HT Ho)) Hnew)
    as (Hok1 & Hg & Hc).
  pose proof (grows_open _ _ _ Hg (ex_intro _ T (conj HT Ho))) as Ho1.
  destruct (cached_valid _ _ _ _ Hok1 Ho1 Hc Hp) as (K & HK & Eksp & Etok & Hv).
  assert (Refresh (Some k) rd w1 = Returns (Some (Errno (rd_errno rd)), kstat_read p rd w1))
    as Href.
  { rewrite (Refresh_valid _ _ _ _ Hv HK), Hres, Eksp. cbn.
    now rewrite cgo_err_set. }
  exists k, (kstat_read p rd w1).
  pose proof (Refresh_cached _ _ _ _ _ _ _ _ Href Hc) as Hc'.
  pose proof (Refresh_cache_ok _ _ _ _ _ Hok1 Href) as Hok'.
  split; [|split; [done|split; [done|]]].
  { rewrite (Lookup_found _ _ _ _ _ _ _ _ _ _ HT Ho Hf Hp), Hnew. cbn.
    rewrite Href. reflexivity. }
  intros rd' Hres'.
  destruct (grows_token _ _ _ Hg _ HT) as (T1 & HT1 & Ekc & _).
  assert (tokens (kstat_read p rd w1) !! tk = Some T1) as HT' by done.
  assert (kc T1 ≠ 0) as Ho' by congruence.
  destruct (cached_valid _ _ _ _ Hok' (ex_intro _ T1 (conj HT' Ho')) Hc' Hp)
    as (K' & HK' & Eksp' & Etok' & Hv').
  assert (is_Some (c_kstats (kstat_read p rd w1) !! p)) as [s' Hs'].
  { rewrite kstat_read_lookup. destruct (grows_C _ _ _ Hg) as (_ & -> & _).
    destruct Hmem as [s ->]. eauto. }
  exists (refreshed k K' rd' (kstat_read p rd w1)), (set_Snaptime (rd_snaptime rd') K').
  split; [|split; [|split]].
  - rewrite <- Ekc in Hf.
    rewrite (Lookup_found _ _ _ _ _ _ _ _ _ _ HT' Ho' Hf Hp).
    rewrite (newKStat_hit _ _ _ _ Hc'). cbn.
    rewrite (Refresh_valid _ _ _ _ Hv' HK'), Eksp'.
    destruct (Z.eqb_spec (rd_res rd') (-1)); [done|]. rewrite Hs'. reflexivity.
  - cbn. apply list_lookup_insert_eq. eapply lookup_lt_Some; eauto.
  - done.
  - done.
Qed.

(** ** [Close] *)

Lemma Close_closed (t : option nat) (T : Token) (res errno : Z) (w : world) :
  load_Token t w = Some T → kc T = 0 → Close t res errno w = Returns (None, w).
Proof. intros HT E. unfold Close. now rewrite HT, E. Qed.

Lemma Close_open (tk : nat) (T : Token) (res errno : Z) (w : world) :
  tokens w !! tk = Some T → kc T ≠ 0 →
  Close (Some tk) res errno w =
    Returns (if res =? 0 then None else cgo_err errno,
             set_tokens (<[tk := closed_Token]> (tokens w)) w).
Proof.
  intros HT Ho. unfold Close. cbn [load_Token default]. rewrite HT.
  destruct (Z.eqb_spec (kc T) 0); [done|]. destruct (res =? 0); done.
Qed.

(** [Close] returns on every token, and leaves it closed. *)
Lemma Close_Returns (tk : nat) (T : Token) (res errno : Z) (w : world) :
  tokens w !! tk = Some T →
  ∃ e w' T', Close (Some tk) res errno w = Returns (e, w')
    ∧ tokens w' !! tk = Some T' ∧ kc T' = 0
    ∧ kstats w' = kstats w
    ∧ same_C w w'
    ∧ (kc T = 0 → e = None ∧ w' = w).
Proof.
  intros HT. destruct (Z.eq_dec (kc T) 0) as [E|Ho].
  - exists None, w, T. rewrite (Close_closed (Some tk) T) by done.
    repeat split; done.
  - eexists _, _, closed_Token. rewrite (Close_open _ _ _ _ _ HT Ho).
    split; [done|]. cbn. split.
    { apply list_lookup_insert_eq. eapply lookup_lt_Some; eauto. }
    repeat split; done.
Qed.

(** C8: [Close] on an already closed token returns [nil] and changes
    nothing, whatever libkstat would answer; and after any [Close] of a token
    every further [Close] of it returns [nil] and changes nothing. *)
Theorem Close_idempotent (tk : nat) (T : Token) (w : world) :
  tokens w !! tk = Some T →
  (kc T = 0 → ∀ res errno, Close (Some tk) res errno w = Returns (None, w))
  ∧ (∀ res errno, ∃ e w',
       Close (Some tk) res errno w = Returns (e, w')
       ∧ ∀ res' errno', Close (Some tk) res' errno' w' = Returns (None, w')).
Proof.
  intros HT. split.
  - intros E res errno. now apply (Close_closed (Some tk) T).
  - intros res errno.
    destruct (Close_Returns tk T res errno w HT) as (e & w' & T' & H & HT' & E & _).
    exists e, w'. split; [done|]. intros res' errno'.
    now apply (Close_closed (Some tk) T').
Qed.

(** ** After [Close] *)

Lemma invalid_closed (k : nat) (K : KStat) (tk : nat) (T : Token) (w : world) :
  kstats w !! k = Some K → tok K = Some tk →
  tokens w !! tk = Some T → kc T = 0 →
  invalid (Some k) w = true.
Proof.
  intros HK Ht HT E. unfold invalid. cbn. rewrite HK, Ht. cbn. rewrite HT, E.
  apply orb_true_r.
Qed.

Lemma setup_invalid (k : option nat) (rd : read_result) (w : world) :
  invalid k w = true → setup k rd w = Returns (closed_error, w).
Proof. intros H. unfold setup. now rewrite H. Qed.

(** C7: once [Close] has run on a token, whatever [kstat_close] answered:
    [Lookup] (and [Token.GetNamed], which starts with it) returns the
    closed-token error and [Refresh] on any
    [KStat] obtained through it returns the invalid-or-closed error, both
    for every answer libkstat could give and without any change to the
    world (no call reaches libkstat); so do [GetNamed] and [AllNamed];
    [All] returns the empty slice; and [String] on every [KStat], and on
    every [Named] that points to one, returns what it returned before. *)
Theorem closed_token_rejected (tk : nat) (T : Token) (res errno : Z) (w : world) :
  tokens w !! tk = Some T →
  ∃ e w',
    Close (Some tk) res errno w = Returns (e, w')
    ∧ (∀ module instance nm f rd,
         Lookup (Some tk) module instance nm f rd w' = Returns ((None, token_error), w')
         ∧ ∀ stat rd' r errno',
             Token_GetNamed (Some tk) module instance nm stat f rd rd' r errno' w'
             = Returns ((None, token_error), w'))
    ∧ (∀ k K rd, kstats w' !! k = Some K → tok K = Some tk →
         Refresh (Some k) rd w' = Returns (closed_error, w')
         ∧ (∀ nm r errno', KStat_GetNamed (Some k) nm rd r errno' w'
                           = Returns ((None, closed_error), w'))
         ∧ AllNamed (Some k) rd w' = Returns (([], closed_error), w'))
    ∧ All (Some tk) w' = Returns ([], w')
    ∧ (∀ k K, kstats w !! k = Some K →
         ∃ s, KStat_String (Some k) w = Returns s
              ∧ KStat_String (Some k) w' = Returns s)
    ∧ (∀ st k K, Named_KStat st = Some k → kstats w !! k = Some K →
         ∃ s, Named_String st w = Returns s
              ∧ Named_String st w' = Returns s).
Proof.
  intros HT.
  destruct (Close_Returns tk T res errno w HT) as (e & w' & T' & H & HT' & E & Ek & _ & _).
  assert (∀ module instance nm f rd,
            Lookup (Some tk) module instance nm f rd w' = Returns ((None, token_error), w'))
    as HLookup.
  { intros. apply Lookup_closed. cbn. intros T0 HT0. congruence. }
  exists e, w'. split; [done|]. repeat split.
  - apply HLookup.
  - intros stat rd' r errno'. unfold Token_GetNamed. now rewrite HLookup.
  - apply Refresh_invalid. eapply invalid_closed; eauto.
  - intros nm r errno'. unfold KStat_GetNamed.
    rewrite setup_invalid by (eapply invalid_closed; eauto). reflexivity.
  - unfold AllNamed.
    rewrite setup_invalid by (eapply invalid_closed; eauto). reflexivity.
  - now apply (All_closed (Some tk) T').
  - intros k K HK. unfold KStat_String. cbn. rewrite Ek, HK. eauto.
  - intros st k K Hst HK. unfold Named_String. rewrite Hst. cbn. rewrite Ek, HK. eauto.
Qed.

(** ** [Refresh] when the read fails *)

(** C10: when [kstat_read] fails (returns -1, with [errno] set), [Refresh]
    returns an error -- that [errno], unless the [KStat] was invalid to
    begin with -- and the Go heap is what it was: no field of any [KStat],
    [Snaptime] included, and no token has changed.  ([Refresh] being a
    function of its arguments, [Snaptime] can then only change when the
    read did not fail.) *)
Theorem Refresh_failure_atomic (k : option nat) (rd : read_result) (w : world) :
  rd_res rd = -1 → rd_errno rd ≠ 0 →
  ∃ e w',
    Refresh k rd w = Returns (Some e, w')
    ∧ kstats w' = kstats w
    ∧ tokens w' = tokens w
    ∧ (invalid k w = false → e = Errno (rd_errno rd)).
Proof.
  intros Hres Herrno. destruct (invalid k w) eqn:Hv.
  - eexists _, w. rewrite Refresh_invalid by done. repeat split; done.
  - destruct k as [a|]; [|discriminate].
    destruct (kstats w !! a) as [K|] eqn:HK.
    2:{ unfold invalid in Hv. cbn in Hv. rewrite HK in Hv. discriminate. }
    rewrite (Refresh_valid _ _ _ _ Hv HK), Hres. cbn.
    rewrite cgo_err_set by done. eexists _, _. repeat split; done.
Qed.

(** ** Snapshot times *)

Lemma set_Snaptime_id (K : KStat) : K = set_Snaptime (KStat_Snaptime K) K.
Proof. now destruct K. Qed.

Lemma snap_le_refl (w : world) : snap_le w w.
Proof. intros a K HK. exists K. split; [done|]. split; [apply set_Snaptime_id|lia]. Qed.

Lemma snap_le_same (w w' : world) : kstats w' = kstats w → snap_le w w'.
Proof. intros E a K HK. rewrite E. now apply snap_le_refl. Qed.

Lemma snap_le_trans (w1 w2 w3 : world) : snap_le w1 w2 → snap_le w2 w3 → snap_le w1 w3.
Proof.
  intros H12 H23 a K HK.
  destruct (H12 _ _ HK) as (K2 & HK2 & E2 & ?).
  destruct (H23 _ _ HK2) as (K3 & HK3 & E3 & ?).
  exists K3. split; [done|]. split; [|lia].
  rewrite E3 at 1. rewrite E2. reflexivity.
Qed.

Lemma snap_le_prefix (w w' : world) : kstats w `prefix_of` kstats w' → snap_le w w'.
Proof.
  intros Hp a K HK. exists K. split; [eapply prefix_lookup_Some; eauto|].
  split; [apply set_Snaptime_id|lia].
Qed.

Lemma kstat_read_snap_ok (p : Z) (rd : read_result) (w : world) :
  snap_ok w → read_monotone p rd w → snap_ok (kstat_read p rd w).
Proof.
  intros Hs Hc r K s' HK Hs'. change (kstats w !! r = Some K) in HK.
  destruct (decide (p = ksp K)) as [->|Hne].
  - rewrite kstat_read_lookup in Hs'.
    destruct (c_kstats w !! ksp K) as [s|] eqn:E; [|discriminate].
    cbn in Hs'. simplify_eq. cbn. specialize (Hs _ _ _ HK E). specialize (Hc _ E). lia.
  - rewrite kstat_read_lookup_ne in Hs' by done. eauto.
Qed.

Lemma kstat_read_clock_ok (p : Z) (rd rd' : read_result) (w : world) :
  clock_ok rd' w → rd_snaptime rd ≤ rd_snaptime rd' → clock_ok rd' (kstat_read p rd w).
Proof.
  intros Hc Hle q s' Hs'. unfold clock_ok, read_monotone in Hc.
  destruct (decide (p = q)) as [->|Hne].
  - rewrite kstat_read_lookup in Hs'.
    destruct (c_kstats w !! q) as [s|] eqn:E; [|discriminate].
    cbn in Hs'. simplify_eq. done.
  - rewrite kstat_read_lookup_ne in Hs' by done. eauto.
Qed.

Lemma refreshed_snap_ok (a : nat) (K : KStat) (rd : read_result) (w : world) :
  snap_ok w → read_monotone (ksp K) rd w → kstats w !! a = Some K →
  snap_ok (refreshed a K rd w).
Proof.
  intros Hs Hc HK r K' s' HK' Hs'. cbn in HK'.
  change (c_kstats (kstat_read (ksp K) rd w) !! ksp K' = Some s') in Hs'.
  destruct (decide (r = a)) as [->|Hne].
  - rewrite list_lookup_insert_eq in HK' by (eapply lookup_lt_Some; eauto).
    simplify_eq. cbn [ksp set_Snaptime] in Hs'. rewrite kstat_read_lookup in Hs'.
    destruct (c_kstats w !! ksp K); [|discriminate]. cbn in Hs'. simplify_eq.
    cbn. lia.
  - rewrite list_lookup_insert_ne in HK' by done.
    eapply (kstat_read_snap_ok (ksp K) rd w Hs Hc); eauto.
Qed.

Lemma refreshed_snap_le (a : nat) (K : KStat) (rd : read_result) (w : world) :
  snap_ok w → read_monotone (ksp K) rd w → kstats w !! a = Some K →
  is_Some (c_kstats w !! ksp K) →
  snap_le w (refreshed a K rd w).
Proof.
  intros Hs Hc HK [s Hks] r K0 HK0. cbn.
  destruct (decide (r = a)) as [->|Hne].
  - simplify_eq. eexists. split.
    + apply list_lookup_insert_eq. eapply lookup_lt_Some; eauto.
    + cbn. split; [done|]. specialize (Hs _ _ _ HK Hks). specialize (Hc _ Hks). lia.
  - exists K0. rewrite list_lookup_insert_ne by done.
    split; [done|]. split; [apply set_Snaptime_id|lia].
Qed.

(** [Refresh] keeps [snap_ok] and moves no [Snaptime] back, when the read
    does not move the snapshot time of its [kstat_t] back. *)
Lemma Refresh_snap_at (k : option nat) (rd : read_result) (w : world)
    (e : option error) (w' : world) :
  snap_ok w →
  (∀ K, load_KStat k w = Some K → read_monotone (ksp K) rd w) →
  Refresh k rd w = Returns (e, w') →
  snap_ok w' ∧ snap_le w w'.
Proof.
  intros Hs Hc H. apply Refresh_cases in H
    as [(_ & _ & ->)|(a & K & -> & HK & _ & [(_ & _ & ->)|(_ & _ & -> & Hmem)])].
  - split; [done|apply snap_le_refl].
  - split; [apply kstat_read_snap_ok; auto|now apply snap_le_same].
  - split; [apply refreshed_snap_ok; auto|apply refreshed_snap_le; auto].
Qed.

Lemma Refresh_snap (k : option nat) (rd : read_result) (w : world)
    (e : option error) (w' : world) :
  snap_ok w → clock_ok rd w →
  Refresh k rd w = Returns (e, w') →
  snap_ok w' ∧ snap_le w w'.
Proof. intros Hs Hc. apply Refresh_snap_at; [done|]. intros K _. apply Hc. Qed.

(** C9: in a world where no [KStat] is ahead of its [kstat_t], and with a
    [kstat_read] that does not move the snapshot time of that [kstat_t]
    back, a [Refresh] that returns leaves the [Snaptime] of the [KStat] at a
    value no smaller than before; when it returns [nil] after a read that
    succeeded, that value is the snapshot time of the read; and the world it
    leaves is again one where no [KStat] is ahead of its [kstat_t], so that
    the same holds for the next [Refresh]. *)
Theorem Refresh_snaptime_monotone (a : nat) (K : KStat) (rd : read_result) (w : world)
    (e : option error) (w' : world) :
  snap_ok w → read_monotone (ksp K) rd w →
  kstats w !! a = Some K →
  Refresh (Some a) rd w = Returns (e, w') →
  ∃ K', kstats w' !! a = Some K'
        ∧ KStat_Snaptime K ≤ KStat_Snaptime K'
        ∧ (e = None → rd_res rd ≠ -1 → KStat_Snaptime K' = rd_snaptime rd)
        ∧ snap_ok w'.
Proof.
  intros Hs Hc HK H.
  assert (∀ K0, load_KStat (Some a) w = Some K0 → read_monotone (ksp K0) rd w) as Hc'.
  { cbn. intros K0 HK0. by simplify_eq. }
  destruct (Refresh_snap_at _ _ _ _ _ Hs Hc' H) as (Hs' & Hle).
  destruct (Hle _ _ HK) as (K' & HK' & _ & ?).
  exists K'. repeat split; try done.
  intros -> Hres. apply Refresh_cases in H
    as [(_ & [=] & _)|(a' & K0 & [= <-] & HK0 & _ & [(? & _)|(_ & _ & -> & _)])];
    [done|].
  simplify_eq. cbn in HK'.
  rewrite list_lookup_insert_eq in HK' by (eapply lookup_lt_Some; eauto).
  by simplify_eq.
Qed.

(** ** [GetNamed] and [AllNamed] *)

Lemma GoString_at_not_Diverges (cm : gmap Z (list byte)) (p : Z) :
  GoString_at cm p ≠ Diverges.
Proof. unfold GoString_at. destruct (p =? 0); [done|]. destruct (cm !! p); done. Qed.

Lemma newNamed_not_Diverges (cm : gmap Z (list byte)) (k : option nat) (knp : kstat_named) :
  newNamed cm k knp ≠ Diverges.
Proof.
  unfold newNamed.
  repeat match goal with |- context [if ?b then _ else _] => destruct b end; try done.
  apply bind_not_Diverges; [apply GoString_at_not_Diverges|intros; discriminate].
Qed.

(** The loop never diverges, and what it returns is the decoding of each of
    the [todo] records from index [i] on, in order. *)
Lemma AllNamed_loop_not_Diverges (cm : gmap Z (list byte)) (k : option nat) (s : kstat_t)
    (i : Z) (todo : nat) :
  AllNamed_loop cm k s i todo ≠ Diverges.
Proof.
  revert i. induction todo as [|todo IH]; intros i; cbn [AllNamed_loop]; [done|].
  destruct (get_nth_named (Some s) i); [|done].
  apply bind_not_Diverges; [unfold deref_named; repeat case_match; done|].
  intros knp. apply bind_not_Diverges; [apply newNamed_not_Diverges|].
  intros st. apply bind_not_Diverges; [apply IH|intros; discriminate].
Qed.

Lemma get_nth_named_Some (s : kstat_t) (i : Z) (j : nat) :
  get_nth_named (Some s) i = Some j →
  j = Z.to_nat i ∧ i < ks_ndata s ∧ is_Some (ks_data s)
  ∧ Z.of_N (Byte.to_N (ks_type s)) = KSTAT_TYPE_NAMED.
Proof.
  unfold get_nth_named. destruct (ks_data s); [|done].
  destruct (Z.eqb_spec (Z.of_N (Byte.to_N (ks_type s))) KSTAT_TYPE_NAMED);
    destruct (Z.leb_spec (ks_ndata s) i); cbn; intros; simplify_eq.
  repeat split; eauto.
Qed.

Lemma AllNamed_loop_Returns (cm : gmap Z (list byte)) (k : option nat) (s : kstat_t)
    (i : Z) (todo : nat) (lst : list Named) :
  0 ≤ i →
  AllNamed_loop cm k s i todo = Returns lst →
  length lst = todo
  ∧ (todo = O ∨ i + Z.of_nat todo ≤ ks_ndata s)
  ∧ Forall2 (λ st knp, newNamed cm k knp = Returns st) lst
      (take todo (drop (Z.to_nat i) (default [] (ks_data s)))).
Proof.
  revert i lst. induction todo as [|todo IH]; intros i lst Hi H.
  - cbn in H. simplify_eq. split; [done|]. split; [by left|]. rewrite take_0. constructor.
  - cbn [AllNamed_loop] in H.
    destruct (get_nth_named (Some s) i) as [j|] eqn:Hj; [|done].
    apply get_nth_named_Some in Hj as (-> & Hlt & [arr Harr] & _).
    apply bind_Returns in H as (knp & Hknp & H).
    apply bind_Returns in H as (st & Hst & H).
    apply bind_Returns in H as (rest & Hrest & H). simplify_eq.
    unfold deref_named in Hknp. rewrite Harr in Hknp.
    destruct (arr !! Z.to_nat i) as [knp'|] eqn:Hi'; simplify_eq.
    destruct (IH (i + 1) rest ltac:(lia) Hrest) as (Hlen & Hle & Hall).
    split; [cbn; lia|]. split; [right; destruct Hle; lia|].
    rewrite Harr in *. cbn [default] in *. change (id arr) with arr in *.
    rewrite (drop_S _ _ _ Hi'). cbn [take].
    constructor; [done|].
    replace (S (Z.to_nat i)) with (Z.to_nat (i + 1)) by lia. done.
Qed.

(** A record of unknown type within the range of the loop makes it panic. *)
Lemma AllNamed_loop_unknown (cm : gmap Z (list byte)) (k : option nat) (s : kstat_t)
    (arr : list kstat_named) (i : Z) (todo : nat) (j : nat) (knp : kstat_named) :
  0 ≤ i → ks_data s = Some arr → arr !! j = Some knp →
  known_type (NamedType_of knp) = false →
  (Z.to_nat i ≤ j < Z.to_nat i + todo)%nat →
  ∃ msg, AllNamed_loop cm k s i todo = Panics msg.
Proof.
  intros Hi Harr Hj Hun. revert i Hi.
  induction todo as [|todo IH]; intros i Hi Hrange; [lia|].
  cbn [AllNamed_loop].
  destruct (get_nth_named (Some s) i) as [j'|] eqn:Hnth; [|eauto].
  apply get_nth_named_Some in Hnth as (-> & _).
  unfold deref_named. rewrite Harr.
  destruct (arr !! Z.to_nat i) as [knp'|] eqn:Hi'; [|cbn; eauto]. cbn.
  destruct (decide (j = Z.to_nat i)) as [->|Hne].
  - simplify_eq. rewrite newNamed_unknown by done. cbn. eauto.
  - pose proof (newNamed_not_Diverges cm k knp') as Hnd.
    destruct (newNamed cm k knp') as [st|msg|]; cbn; [|eauto|done].
    destruct (IH (i + 1) ltac:(lia) ltac:(lia)) as [msg ->]. cbn. eauto.
Qed.

(** C4: a record whose type tag is none of the six kinds makes the decoder
    panic -- it returns no [Named] at all, with or without default values --
    and the panic ends the request it is part of: [GetNamed] of that record
    panics, and [AllNamed] of a collection that holds it panics, returning
    none of the other records either. *)
Theorem unknown_type_aborts (knp : kstat_named) :
  known_type (NamedType_of knp) = false →
  (∀ cm k, newNamed cm k knp = Panics ("unknown stat type: " +:+ fmt_d (NamedType_of knp)))
  ∧ (∀ k rd w w1 s arr j,
       setup k rd w = Returns (None, w1) →
       load_ksp k w1 = Some s → ks_data s = Some arr → arr !! j = Some knp →
       (∀ nm, KStat_GetNamed k nm rd (Some j) 0 w
              = Panics ("unknown stat type: " +:+ fmt_d (NamedType_of knp)))
       ∧ (Z.of_nat j < ks_ndata s → ∃ msg, AllNamed k rd w = Panics msg)).
Proof.
  intros Hun. split; [intros; now apply newNamed_unknown|].
  intros k rd w w1 s arr j Hsetup Hs Harr Hj. split.
  - intros nm. unfold KStat_GetNamed. rewrite Hsetup. cbn. rewrite Hs.
    unfold deref_named. rewrite Harr, Hj. cbn.
    rewrite newNamed_unknown by done. reflexivity.
  - intros Hlt. unfold AllNamed. rewrite Hsetup. cbn. rewrite Hs.
    destruct (AllNamed_loop_unknown (c_chars w1) k s arr 0 (Z.to_nat (ks_ndata s)) j knp)
      as [msg ->]; try done; [lia|]. cbn. eauto.
Qed.


Lemma Refresh_not_Diverges (k : option nat) (rd : read_result) (w : world) :
  Refresh k rd w ≠ Diverges.
Proof. unfold Refresh. repeat case_match; done. Qed.

Lemma setup_not_Diverges (k : option nat) (rd : read_result) (w : world) :
  setup k rd w ≠ Diverges.
Proof.
  unfold setup, KStat_String. pose proof (Refresh_not_Diverges k rd w).
  repeat case_match; done.
Qed.

(** C5, as the code has it: [AllNamed] has three ways to end.  It returns
    the decoding of every record of the collection, in native order, and a
    [nil] error; or it returns an empty slice and the error of [setup]; or
    it panics (on a record of unknown type, or on a [nil] or unreadable
    record).  It returns no other slice: never a part of the records. *)
Theorem AllNamed_all_or_nothing (k : option nat) (rd : read_result) (w : world) :
  (∃ lst w1, AllNamed k rd w = Returns ((lst, None), w1)
             ∧ setup k rd w = Returns (None, w1)
             ∧ complete k w1 lst)
  ∨ (∃ e w1, AllNamed k rd w = Returns (([], Some e), w1)
             ∧ setup k rd w = Returns (Some e, w1))
  ∨ (∃ msg, AllNamed k rd w = Panics msg).
Proof.
  unfold AllNamed. pose proof (setup_not_Diverges k rd w) as Hnd.
  destruct (setup k rd w) as [[[e|] w1]|msg|]; cbn; [eauto 10| |eauto|done].
  destruct (load_ksp k w1) as [s|] eqn:Hs; [|eauto].
  pose proof (AllNamed_loop_not_Diverges (c_chars w1) k s 0 (Z.to_nat (ks_ndata s))) as Hnd'.
  destruct (AllNamed_loop _ _ _ _ _) as [lst|msg|] eqn:Hloop; cbn; [|eauto|done].
  left. exists lst, w1. split; [done|]. split; [done|].
  apply AllNamed_loop_Returns in Hloop as (Hlen & _ & Hall); [|lia].
  exists s. rewrite drop_0 in Hall. done.
Qed.




Lemma AllNamed_float_world :
  AllNamed (Some 0%nat) idle_read float_world = Panics "unknown stat type: 5".
Proof. reflexivity. Qed.

(** C5, as the specification words it, fails on that kstat: [AllNamed]
    neither returns the sequence nor returns an error; it panics. *)
Lemma AllNamed_neither_sequence_nor_error :
  ¬ returns_all_or_error (Some 0%nat) idle_read float_world.
Proof.
  unfold returns_all_or_error. rewrite AllNamed_float_world.
  intros [(lst & w1 & H & _)|(lst & e & w1 & H)]; discriminate H.
Qed.

(** ** [All] returns on every chain that ends *)

Lemma chain_from_functional (m : gmap Z kstat_t) (r : Z) (ps ps' : list Z) :
  chain_from m r ps → chain_from m r ps' → ps = ps'.
Proof.
  intros H. revert ps'. induction H as [|p s ps Hp Hs _ IH]; intros ps' H'.
  - inversion H'; [done|congruence].
  - inversion H' as [|? s' ps'' ? Hs' Hrest]; subst; [done|].
    simplify_eq. f_equal. now apply IH.
Qed.

Lemma chain_from_suffix (m : gmap Z kstat_t) (r q : Z) (l1 l2 : list Z) :
  chain_from m r (l1 ++ q :: l2) → chain_from m q (q :: l2).
Proof.
  revert r. induction l1 as [|x l1 IH]; intros r H; cbn in H.
  - inversion H; subst. econstructor; eauto.
  - inversion H; subst. eauto.
Qed.

Lemma chain_from_NoDup (m : gmap Z kstat_t) (r : Z) (ps : list Z) :
  chain_from m r ps → NoDup ps.
Proof.
  induction 1 as [|p s ps Hp Hs Hrest IH]; constructor; [|done].
  intros Hin. apply list_elem_of_split in Hin as (l1 & l2 & ->).
  pose proof (chain_from_suffix _ _ _ _ _ Hrest) as Hsuf.
  pose proof (chain_next m p s _ Hp Hs Hrest) as Hall.
  pose proof (chain_from_functional _ _ _ _ Hsuf Hall) as E.
  apply (f_equal length) in E. rewrite !length_cons, length_app, length_cons in E. lia.
Qed.

Lemma chain_from_mapped (m : gmap Z kstat_t) (r : Z) (ps : list Z) :
  chain_from m r ps → ∀ p, p ∈ ps → is_Some (m !! p).
Proof.
  induction 1 as [|p s ps Hp Hs _ IH]; intros q Hq.
  - by apply elem_of_nil in Hq.
  - apply elem_of_cons in Hq as [->|Hq]; eauto.
Qed.

(** Pigeonhole: a chain that ends visits each struct at most once. *)
Lemma chain_from_length (m : gmap Z kstat_t) (r : Z) (ps : list Z) :
  chain_from m r ps → (length ps ≤ size m)%nat.
Proof.
  intros H. rewrite <- (size_dom (D := gset Z)).
  change (size (dom m)) with (length (elements (dom m))).
  apply submseteq_length, NoDup_submseteq; [eapply chain_from_NoDup; eauto|].
  intros p Hp. apply elem_of_elements, elem_of_dom. eapply chain_from_mapped; eauto.
Qed.

Lemma chain_of_enough (m : gmap Z kstat_t) (fuel : nat) (r : Z) (ps : list Z) :
  chain_from m r ps → (length ps < fuel)%nat → chain_of m fuel r = Some ps.
Proof.
  intros H. revert fuel. induction H as [|p s ps Hp Hs _ IH]; intros fuel Hlt.
  - destruct fuel; [lia|done].
  - destruct fuel as [|fuel]; [cbn in Hlt; lia|]. cbn.
    destruct (Z.eqb_spec p 0); [done|]. rewrite Hs, IH by (cbn in Hlt; lia). done.
Qed.

Lemma chain_of_sound (m : gmap Z kstat_t) (fuel : nat) (r : Z) (ps : list Z) :
  chain_of m fuel r = Some ps → chain_from m r ps.
Proof.
  revert r ps. induction fuel as [|fuel IH]; intros r ps H; [discriminate|].
  cbn in H. destruct (Z.eqb_spec r 0) as [->|Hr].
  - simplify_eq. constructor.
  - destruct (m !! r) as [s|] eqn:Hs; [|discriminate].
    destruct (chain_of m fuel (ks_next s)) as [ps'|] eqn:E; [|discriminate].
    cbn in H. simplify_eq. econstructor; eauto.
Qed.

Lemma All_loop_total (fuel : nat) (tk : nat) (r : Z) (n : list nat) (w : world)
    (ps : list Z) :
  chain_of (c_kstats w) fuel r = Some ps → is_Some (tokens w !! tk) →
  ∃ l w', All_loop fuel tk r n w = Returns (l, w').
Proof.
  revert r n w ps. induction fuel as [|fuel IH]; intros r n w ps Hch [T HT]; [discriminate|].
  cbn in *. destruct (r =? 0); [eauto|].
  destruct (c_kstats w !! r) as [s|] eqn:Hs; [|discriminate].
  destruct (chain_of (c_kstats w) fuel (ks_next s)) as [ps'|] eqn:Hch'; [|discriminate].
  destruct (newKStat_total tk T r w HT ltac:(eauto)) as (k & w1 & Hnew).
  rewrite Hnew. cbn.
  apply newKStat_Returns in Hnew as (T' & HT' & [[_ ->]|(_ & _ & s' & Hs' & ->)]).
  - rewrite Hs. eapply IH; eauto.
  - change (c_kstats (alloc_KStat tk r T' s' w)) with (c_kstats w). rewrite Hs.
    eapply IH; [done|]. cbn. rewrite list_lookup_insert_eq; [eauto|].
    eapply lookup_lt_Some; eauto.
Qed.

(** On an open token whose handle is mapped and whose chain ends, [All]
    returns, with one [KStat] per [kstat_t] of the chain. *)
Lemma All_total (tk : nat) (T : Token) (ctl : kstat_ctl) (ps : list Z) (w : world) :
  cache_ok w → tokens w !! tk = Some T → kc T ≠ 0 →
  c_ctls w !! kc T = Some ctl →
  chain_from (c_kstats w) (kc_chain ctl) ps →
  ∃ l w', All (Some tk) w = Returns (l, w') ∧ length l = length ps.
Proof.
  intros Hok HT Ho Hctl Hch.
  pose proof (chain_from_length _ _ _ Hch) as Hlen.
  pose proof (chain_of_enough _ (S (size (c_kstats w))) _ _ Hch ltac:(lia)) as Hof.
  destruct (All_loop_total _ tk _ [] w ps Hof ltac:(eauto)) as (l & w' & HAll).
  assert (All (Some tk) w = Returns (l, w')) as HAll'.
  { unfold All. cbn [load_Token default]. rewrite HT, Hctl.
    destruct (Z.eqb_spec (kc T) 0); done. }
  exists l, w'. split; [done|].
  destruct (All_Returns _ _ _ _ _ Hok HT Ho HAll') as (_ & _ & ps' & Hch' & Hall).
  unfold chain in Hch'. rewrite Hctl, Hof in Hch'. simplify_eq.
  eapply Forall2_length; eauto.
Qed.

(** ** The cache invariant along an execution *)

Lemma after_Returns {A : Type} (m : outcome (A * world)) (w' : world) :
  after m = Returns w' ↔ ∃ a, m = Returns (a, w').
Proof.
  unfold after. rewrite bind_Returns. split.
  - intros ([a w1] & -> & [= ->]). eauto.
  - intros (a & ->). eauto.
Qed.

Lemma Open_cases (r errno : Z) (w : world) (res : option nat * option error) (w' : world) :
  Open r errno w = Returns (res, w') →
  w' = w ∨ w' = set_tokens (tokens w ++ [{| kc := r; ksm := ∅ |}]) w.
Proof. unfold Open. destruct (r =? 0); intros; simplify_eq; auto. Qed.

Lemma Open_cache_ok (r errno : Z) (w : world) (res : option nat * option error) (w' : world) :
  cache_ok w → Open r errno w = Returns (res, w') → cache_ok w'.
Proof.
  intros Hok H. apply Open_cases in H as [->| ->]; [done|].
  destruct Hok as [Hs Hc Hu]. split; cbn.
  - intros t T p k HT Hp. apply lookup_app_Some in HT as [HT|[_ HT]]; [eauto|].
    apply list_lookup_singleton_Some in HT as [_ <-]. done.
  - intros k K HK. destruct (Hc _ _ HK) as (t & T & ? & HT & ?).
    exists t, T. split; [done|]. split; [|done]. now apply lookup_app_l_Some.
  - done.
Qed.

Lemma Close_cases (t : option nat) (res errno : Z) (w : world)
    (e : option error) (w' : world) :
  Close t res errno w = Returns (e, w') →
  w' = w ∨ ∃ tk T, t = Some tk ∧ tokens w !! tk = Some T
                   ∧ w' = set_tokens (<[tk := closed_Token]> (tokens w)) w.
Proof.
  unfold Close. destruct t as [tk|]; cbn [load_Token default]; [|done].
  destruct (tokens w !! tk) as [T|] eqn:HT; [|done].
  destruct (kc T =? 0); [intros; simplify_eq; auto|].
  destruct (negb (res =? 0)); intros; simplify_eq; eauto 10.
Qed.

Lemma Close_cache_ok (t : option nat) (res errno : Z) (w : world)
    (e : option error) (w' : world) :
  cache_ok w → Close t res errno w = Returns (e, w') → cache_ok w'.
Proof.
  intros Hok H. apply Close_cases in H as [->|(tk & T & -> & HT & ->)]; [done|].
  assert (tk < length (tokens w))%nat as Hlt by (eapply lookup_lt_Some; eauto).
  destruct Hok as [Hs Hc Hu]. split; cbn.
  - intros t T0 p k HT0 Hp. destruct (decide (t = tk)) as [->|Hne].
    + rewrite list_lookup_insert_eq in HT0 by done. by simplify_eq.
    + rewrite list_lookup_insert_ne in HT0 by done. eauto.
  - intros k K HK. destruct (Hc _ _ HK) as (t & T0 & Ht & HT0 & Hin).
    destruct (decide (t = tk)) as [->|Hne].
    + exists tk, closed_Token. split; [done|].
      split; [now apply list_lookup_insert_eq|]. done.
    + exists t, T0. split; [done|]. split; [|done].
      now rewrite list_lookup_insert_ne.
  - done.
Qed.

Lemma All_cache_ok (t : option nat) (w : world) (l : list nat) (w' : world) :
  cache_ok w → All t w = Returns (l, w') → cache_ok w'.
Proof.
  intros Hok H. destruct t as [tk|]; [|done].
  destruct (tokens w !! tk) as [T|] eqn:HT.
  2:{ unfold All in H. cbn in H. now rewrite HT in H. }
  destruct (Z.eq_dec (kc T) 0) as [E|Ho].
  - rewrite (All_closed (Some tk) T) in H by done. by simplify_eq.
  - now destruct (All_Returns _ _ _ _ _ Hok HT Ho H).
Qed.

Lemma setup_cases (k : option nat) (rd : read_result) (w : world)
    (e : option error) (w' : world) :
  setup k rd w = Returns (e, w') →
  w' = w ∨ Refresh k rd w = Returns (e, w').
Proof.
  unfold setup, KStat_String. intros H. outcome_cases H; cbn in *; simplify_eq; auto.
Qed.

Lemma KStat_GetNamed_world (k : option nat) (nm : string) (rd : read_result)
    (r : option nat) (errno : Z) (w : world)
    (res : option Named * option error) (w' : world) :
  KStat_GetNamed k nm rd r errno w = Returns (res, w') →
  ∃ e, setup k rd w = Returns (e, w').
Proof.
  unfold KStat_GetNamed. intros H.
  apply bind_Returns in H as ([e w1] & Hsetup & H). exists e.
  destruct e; [by simplify_eq|].
  destruct r; destruct (cgo_err errno); simplify_eq; try done.
  destruct (load_ksp k w1); [|done].
  apply bind_Returns in H as (knp & _ & H).
  apply bind_Returns in H as (st & _ & H). by simplify_eq.
Qed.

Lemma AllNamed_world (k : option nat) (rd : read_result) (w : world)
    (res : list Named * option error) (w' : world) :
  AllNamed k rd w = Returns (res, w') →
  ∃ e, setup k rd w = Returns (e, w').
Proof.
  unfold AllNamed. intros H.
  apply bind_Returns in H as ([e w1] & Hsetup & H). exists e.
  destruct e; [by simplify_eq|].
  destruct (load_ksp k w1); [|done].
  apply bind_Returns in H as (lst & _ & H). by simplify_eq.
Qed.

Lemma setup_cache_ok (k : option nat) (rd : read_result) (w : world)
    (e : option error) (w' : world) :
  cache_ok w → setup k rd w = Returns (e, w') → cache_ok w'.
Proof.
  intros Hok H. apply setup_cases in H as [->|H]; [done|].
  eapply Refresh_cache_ok; eauto.
Qed.

Lemma Token_GetNamed_cases (t : option nat) (module : string) (instance : Z)
    (nm stat : string) (f : lookup_fn) (rd rd' : read_result)
    (r : option nat) (errno : Z) (w : world)
    (res : option Named * option error) (w' : world) :
  Token_GetNamed t module instance nm stat f rd rd' r errno w = Returns (res, w') →
  ∃ stats err w1,
    Lookup t module instance nm f rd w = Returns ((stats, err), w1)
    ∧ (w' = w1 ∨ KStat_GetNamed stats stat rd' r errno w1 = Returns (res, w')).
Proof.
  unfold Token_GetNamed. intros H.
  apply bind_Returns in H as ([[stats err] w1] & HL & H).
  exists stats, err, w1. split; [done|].
  destruct err; [left; by simplify_eq|by right].
Qed.

(** Every call keeps the cache invariant. *)
Lemma run_cache_ok (c : call) (w w' : world) :
  cache_ok w → run c w = Returns w' → cache_ok w'.
Proof.
  intros Hok H. destruct c; cbn in H; apply after_Returns in H as [out H].
  - eapply Open_cache_ok; eauto.
  - eapply Close_cache_ok; eauto.
  - eapply All_cache_ok; eauto.
  - eapply Lookup_cache_ok; eauto.
  - apply Token_GetNamed_cases in H as (stats & err & w1 & HL & [->|HG]).
    + eapply Lookup_cache_ok; eauto.
    + apply KStat_GetNamed_world in HG as [e HG].
      eapply setup_cache_ok; [|done]. eapply Lookup_cache_ok; eauto.
  - eapply Refresh_cache_ok; eauto.
  - apply KStat_GetNamed_world in H as [e H]. eapply setup_cache_ok; eauto.
  - apply AllNamed_world in H as [e H]. eapply setup_cache_ok; eauto.
Qed.

(** The cache invariant holds in every world a program can get to. *)
Lemma reachable_cache_ok (w : world) : reachable w → cache_ok w.
Proof.
  induction 1 as [w Ht Hk|c w w' _ IH Hrun].
  - split; rewrite ?Ht, ?Hk; intros; discriminate.
  - eapply run_cache_ok; eauto.
Qed.

(** ** Snapshot times along an execution *)

Lemma clock_ok_same (rd : read_result) (w w' : world) :
  c_kstats w' = c_kstats w → clock_ok rd w → clock_ok rd w'.
Proof. intros E H p s. rewrite E. apply H. Qed.

Lemma alloc_KStat_snap_ok (tk : nat) (p : Z) (T : Token) (s : kstat_t) (w : world) :
  snap_ok w → c_kstats w !! p = Some s → snap_ok (alloc_KStat tk p T s w).
Proof.
  intros Hs Hp r K s' HK Hs'. cbn in HK.
  change (c_kstats w !! ksp K = Some s') in Hs'.
  apply lookup_app_Some in HK as [HK|[_ HK]]; [eauto|].
  apply list_lookup_singleton_Some in HK as [_ <-]. cbn in *. simplify_eq. lia.
Qed.

Lemma newKStat_snap (tk : nat) (p : Z) (w : world) (k : nat) (w' : world) :
  snap_ok w → newKStat tk p w = Returns (k, w') →
  snap_ok w' ∧ snap_le w w' ∧ same_C w w'.
Proof.
  intros Hs H.
  apply newKStat_Returns in H as (T & HT & [[_ ->]|(Hmiss & _ & s & Hp & ->)]).
  - split; [done|]. split; [apply snap_le_refl|apply same_C_refl].
  - split; [now apply alloc_KStat_snap_ok|].
    split; [|repeat split]. apply snap_le_prefix. cbn. now apply prefix_app_r.
Qed.

Lemma All_loop_snap (fuel : nat) (tk : nat) (r : Z) (n : list nat) (w : world)
    (l : list nat) (w' : world) :
  snap_ok w → All_loop fuel tk r n w = Returns (l, w') →
  snap_ok w' ∧ snap_le w w' ∧ same_C w w'.
Proof.
  revert r n w. induction fuel as [|fuel IH]; intros r n w Hs H; [discriminate|].
  cbn in H. destruct (r =? 0).
  - simplify_eq. split; [done|]. split; [apply snap_le_refl|apply same_C_refl].
  - apply bind_Returns in H as ([k w1] & Hnew & H).
    destruct (newKStat_snap _ _ _ _ _ Hs Hnew) as (Hs1 & Hle1 & HC1).
    destruct (c_kstats w1 !! r); [|discriminate].
    destruct (IH _ _ _ Hs1 H) as (Hs' & Hle' & HC').
    split; [done|]. split; [eapply snap_le_trans|eapply same_C_trans]; eauto.
Qed.

Lemma All_snap (t : option nat) (w : world) (l : list nat) (w' : world) :
  snap_ok w → All t w = Returns (l, w') →
  snap_ok w' ∧ snap_le w w' ∧ same_C w w'.
Proof.
  intros Hs H. unfold All in H.
  destruct (load_Token t w) as [T|]; [|done].
  destruct (kc T =? 0).
  - simplify_eq. split; [done|]. split; [apply snap_le_refl|apply same_C_refl].
  - destruct (c_ctls w !! kc T); [|done]. eapply All_loop_snap; eauto.
Qed.

Lemma Refresh_clock (k : option nat) (rd rd' : read_result) (w : world)
    (e : option error) (w' : world) :
  clock_ok rd' w → rd_snaptime rd ≤ rd_snaptime rd' →
  Refresh k rd w = Returns (e, w') → clock_ok rd' w'.
Proof.
  intros Hc Hle H. apply Refresh_cases in H
    as [(_ & _ & ->)|(a & K & -> & HK & _ & [(_ & _ & ->)|(_ & _ & -> & _)])].
  - done.
  - now apply kstat_read_clock_ok.
  - apply (clock_ok_same rd' (kstat_read (ksp K) rd w)); [done|].
    now apply kstat_read_clock_ok.
Qed.

Lemma Lookup_cases (t : option nat) (module : string) (instance : Z) (nm : string)
    (f : lookup_fn) (rd : read_result) (w : world)
    (res : option nat * option error) (w' : world) :
  Lookup t module instance nm f rd w = Returns (res, w') →
  w' = w
  ∨ ∃ tk p k w1 e, newKStat tk p w = Returns (k, w1)
                   ∧ Refresh (Some k) rd w1 = Returns (e, w').
Proof.
  unfold Lookup. intros H.
  destruct (load_Token t w) as [T|]; [|left; by simplify_eq].
  destruct (kc T =? 0); [left; by simplify_eq|].
  destruct (f _ _ _ _) as [p errno].
  destruct (p =? 0); [left; by simplify_eq|].
  apply bind_Returns in H as ([k w1] & Hnew & H).
  apply bind_Returns in H as ([err w2] & Href & H).
  right. exists (default 0%nat t), p, k, w1, err.
  destruct err; by simplify_eq.
Qed.

Lemma Lookup_snap (t : option nat) (module : string) (instance : Z) (nm : string)
    (f : lookup_fn) (rd : read_result) (w : world)
    (res : option nat * option error) (w' : world) :
  snap_ok w → clock_ok rd w →
  Lookup t module instance nm f rd w = Returns (res, w') →
  snap_ok w' ∧ snap_le w w'
  ∧ ∀ rd', clock_ok rd' w → rd_snaptime rd ≤ rd_snaptime rd' → clock_ok rd' w'.
Proof.
  intros Hs Hc H.
  apply Lookup_cases in H as [->|(tk & p & k & w1 & e & Hnew & Href)].
  - split; [done|]. split; [apply snap_le_refl|done].
  - destruct (newKStat_snap _ _ _ _ _ Hs Hnew) as (Hs1 & Hle1 & (_ & EC & _)).
    destruct (Refresh_snap _ _ _ _ _ Hs1 (clock_ok_same _ _ _ EC Hc) Href) as (Hs' & Hle').
    split; [done|]. split; [eapply snap_le_trans; eauto|].
    intros rd' Hc' Hle. eapply Refresh_clock; [|done|done].
    eapply clock_ok_same; eauto.
Qed.

Lemma setup_snap (k : option nat) (rd : read_result) (w : world)
    (e : option error) (w' : world) :
  snap_ok w → clock_ok rd w →
  setup k rd w = Returns (e, w') →
  snap_ok w' ∧ snap_le w w'.
Proof.
  intros Hs Hc H. apply setup_cases in H as [->|H].
  - split; [done|apply snap_le_refl].
  - eapply Refresh_snap; eauto.
Qed.

Lemma run_snap (c : call) (w w' : world) :
  snap_ok w → clock_respected c w → run c w = Returns w' →
  snap_ok w' ∧ snap_le w w'.
Proof.
  intros Hs Hc H. destruct c; cbn in H, Hc; apply after_Returns in H as [out H].
  - apply Open_cases in H as [->| ->].
    + split; [done|apply snap_le_refl].
    + split; [done|now apply snap_le_same].
  - apply Close_cases in H as [->|(tk & T & -> & HT & ->)].
    + split; [done|apply snap_le_refl].
    + split; [done|now apply snap_le_same].
  - destruct (All_snap _ _ _ _ Hs H) as (? & ? & _). done.
  - destruct (Lookup_snap _ _ _ _ _ _ _ _ _ Hs Hc H) as (? & ? & _). done.
  - destruct Hc as (Hc & Hc' & Hle).
    apply Token_GetNamed_cases in H as (stats & err & w1 & HL & Hrest).
    destruct (Lookup_snap _ _ _ _ _ _ _ _ _ Hs Hc HL) as (Hs1 & Hle1 & Hclk).
    destruct Hrest as [->|HG]; [done|].
    apply KStat_GetNamed_world in HG as [e HG].
    destruct (setup_snap _ _ _ _ _ Hs1 (Hclk _ Hc' Hle) HG) as (Hs' & Hle').
    split; [done|]. eapply snap_le_trans; eauto.
  - eapply Refresh_snap; eauto.
  - apply KStat_GetNamed_world in H as [e H]. eapply setup_snap; eauto.
  - apply AllNamed_world in H as [e H]. eapply setup_snap; eauto.
Qed.

(** Along such a sequence -- [Refresh] calls, failed ones among them, and any
    other calls in between -- no [Snaptime] ever goes down. *)
Lemma Snaptime_never_decreases (w w' : world) :
  runs w w' → snap_ok w →
  snap_ok w'
  ∧ ∀ a K, kstats w !! a = Some K →
      ∃ K', kstats w' !! a = Some K' ∧ KStat_Snaptime K ≤ KStat_Snaptime K'.
Proof.
  intros Hruns Hs.
  assert (snap_ok w' ∧ snap_le w w') as [Hs' Hle].
  { induction Hruns as [w|c w w1 w2 Hc Hrun _ IH].
    - split; [done|apply snap_le_refl].
    - destruct (run_snap _ _ _ Hs Hc Hrun) as (Hs1 & Hle1).
      destruct (IH Hs1) as (Hs2 & Hle2).
      split; [done|]. eapply snap_le_trans; eauto. }
  split; [done|]. intros a K HK.
  destruct (Hle _ _ HK) as (K' & ? & _ & ?). eauto.
Qed.

Lemma reachable_snap_start (w : world) : kstats w = [] → snap_ok w.
Proof. intros E r K s HK. rewrite E in HK. discriminate. Qed.

(** ** The theorems at work on concrete worlds *)

(** The scenario of the specification: look up [cpu:0:sys], get [idle]. *)
Example lookup_and_decode :
  ∃ w1 w2,
    Lookup (Some 0%nat) "cpu" 0 "sys" (λ _ _ _ _, (100, 0)) good_read cpu_world
      = Returns ((Some 0%nat, None), w1)
    ∧ KStat_GetNamed (Some 0%nat) "idle" good_read (Some 0%nat) 0 w1
      = Returns ((Some {| Named_Name := "idle"; Named_Type := Uint64;
                          Named_StringVal := ""; Named_IntVal := 0;
                          Named_UintVal := 42; Named_KStat := Some 0%nat |}, None), w2)
    ∧ AllNamed (Some 0%nat) good_read w1
      = Returns (([{| Named_Name := "idle"; Named_Type := Uint64;
                      Named_StringVal := ""; Named_IntVal := 0;
                      Named_UintVal := 42; Named_KStat := Some 0%nat |}], None), w2)
    ∧ KStat_String (Some 0%nat) w1 = Returns "cpu:0:sys (misc)".
Proof. eexists _, _. repeat split. Qed.

Lemma cpu_world_cache_ok : cache_ok cpu_world.
Proof.
  split.
  - intros [|t] T p r HT Hp; [|discriminate]. cbn in HT. by simplify_eq.
  - intros r K HK. discriminate.
  - intros r1 r2 K1 K2 HK. discriminate.
Defined.

Lemma identity_caching_witness :
  cache_ok cpu_world
  ∧ ∃ l w1,
      All (Some 0%nat) cpu_world = Returns (l, w1)
      ∧ l = [0%nat; 1%nat]
      ∧ All (Some 0%nat) w1 = Returns (l, w1)
      ∧ ∃ w2, Lookup (Some 0%nat) "cpu" 1 "sys" find_second good_read w1
              = Returns ((Some 1%nat, None), w2).
Proof.
  split; [exact cpu_world_cache_ok|].
  destruct (identity_caching 0 {| kc := 1000; ksm := ∅ |} cpu_world
              cpu_world_cache_ok eq_refl ltac:(discriminate)) as (HAll & _ & _).
  eexists _, _. split; [reflexivity|]. split; [reflexivity|].
  split; [apply HAll; reflexivity|].
  eexists. reflexivity.
Defined.

Lemma unknown_type_aborts_witness :
  known_type (NamedType_of float_record) = false
  ∧ newNamed ∅ None float_record = Panics "unknown stat type: 5".
Proof.
  split; [reflexivity|].
  exact (proj1 (unknown_type_aborts float_record eq_refl) ∅ None).
Defined.

Lemma Lookup_failed_refresh_keeps_cache_witness :
  ∃ k w',
    Lookup (Some 0%nat) "cpu" 1 "sys" find_second failed_read cpu_world
      = Returns ((None, Some (Errno 6)), w')
    ∧ cached 0 200 k w'
    ∧ cache_ok w'
    ∧ ∀ rd', rd_res rd' ≠ -1 →
        ∃ w'' K,
          Lookup (Some 0%nat) "cpu" 1 "sys" find_second rd' w' = Returns ((Some k, None), w'')
          ∧ kstats w'' !! k = Some K
          ∧ ksp K = 200
          ∧ KStat_Snaptime K = rd_snaptime rd'.
Proof.
  apply (Lookup_failed_refresh_keeps_cache 0 {| kc := 1000; ksm := ∅ |}
           "cpu" 1 "sys" find_second failed_read cpu_world 200 0).
  - exact cpu_world_cache_ok.
  - reflexivity.
  - discriminate.
  - reflexivity.
  - discriminate.
  - exists (cpu_kstat 1 0). reflexivity.
  - reflexivity.
  - discriminate.
Defined.

Lemma Close_idempotent_witness :
  ∃ e w',
    Close (Some 0%nat) 0 0 float_world = Returns (e, w')
    ∧ ∀ res' errno', Close (Some 0%nat) res' errno' w' = Returns (None, w').
Proof.
  exact (proj2 (Close_idempotent 0 {| kc := 1000; ksm := {[ 100 := 0%nat ]} |}
                  float_world eq_refl) 0 0).
Defined.

Lemma closed_token_rejected_witness :
  ∃ e w',
    Close (Some 0%nat) 0 0 float_world = Returns (e, w')
    ∧ (∀ rd, Refresh (Some 0%nat) rd w' = Returns (closed_error, w'))
    ∧ All (Some 0%nat) w' = Returns ([], w')
    ∧ KStat_String (Some 0%nat) w' = Returns "m:0:n (c)".
Proof.
  destruct (closed_token_rejected 0 {| kc := 1000; ksm := {[ 100 := 0%nat ]} |}
              0 0 float_world eq_refl)
    as (e & w' & HClose & _ & HRefresh & HAll & HString & _).
  exists e, w'. split; [exact HClose|].
  injection HClose as <- <-.
  split; [|split; [exact HAll|reflexivity]].
  intros rd. eapply HRefresh; reflexivity.
Defined.

Lemma float_world_snap_ok : snap_ok float_world.
Proof.
  intros [|r] K s HK Hs; [|discriminate]. cbn in HK. simplify_eq.
  change (({[ 100 := float_kstat ]} : gmap Z kstat_t) !! 100 = Some s) in Hs.
  apply lookup_singleton_Some in Hs as [_ <-]. cbn. lia.
Defined.

Lemma idle_read_monotone : read_monotone 100 idle_read float_world.
Proof.
  intros s Hs.
  change (({[ 100 := float_kstat ]} : gmap Z kstat_t) !! 100 = Some s) in Hs.
  apply lookup_singleton_Some in Hs as [_ <-]. cbn. lia.
Defined.

Lemma Refresh_snaptime_monotone_witness :
  ∃ w' K',
    Refresh (Some 0%nat) idle_read float_world = Returns (None, w')
    ∧ kstats w' !! 0%nat = Some K'
    ∧ 20 ≤ KStat_Snaptime K'
    ∧ KStat_Snaptime K' = 30
    ∧ snap_ok w'.
Proof.
  eexists.
  destruct (Refresh_snaptime_monotone 0 float_KStat idle_read float_world None _
              float_world_snap_ok idle_read_monotone eq_refl eq_refl)
    as (K' & HK' & Hle & Heq & Hok).
  exists K'. split; [reflexivity|]. split; [exact HK'|]. split; [exact Hle|].
  split; [apply Heq; [reflexivity|discriminate]|exact Hok].
Defined.

Lemma Refresh_failure_atomic_witness :
  ∃ e w',
    Refresh (Some 0%nat) failed_read float_world = Returns (Some e, w')
    ∧ kstats w' = kstats float_world
    ∧ tokens w' = tokens float_world
    ∧ (invalid (Some 0%nat) float_world = false → e = Errno (rd_errno failed_read)).
Proof.
  apply Refresh_failure_atomic; [reflexivity|discriminate].
Defined.

(** * Further properties of the package *)

(** ** Display of the enumerations *)

Lemma fmt_d_inj (a b : Z) : fmt_d a = fmt_d b → a = b.
Proof.
  unfold fmt_d. intros H. apply DecimalZ.to_int_inj.
  apply (f_equal NilEmpty.int_of_string) in H. rewrite !NilEmpty.isi in H.
  congruence.
Qed.

(** Case analysis on every comparison of a hypothesis or of the goal. *)
Ltac eqb_cases :=
  repeat match goal with
         | H : context [?x =? ?y] |- _ => destruct (Z.eqb_spec x y)
         | |- context [?x =? ?y] => destruct (Z.eqb_spec x y)
         end.

(** X1: [NamedType.String] gives different types different strings, and it
    gives a type one of its six names, not the [named_type-N] form, exactly
    when the type is one of those [newNamed] decodes. *)
Theorem NamedType_String_faithful :
  Inj (=) (=) NamedType_String
  ∧ ∀ ty, known_type ty = true
          ↔ NamedType_String ty ≠ "named_type-" +:+ fmt_d ty.
Proof.
  split.
  - intros a b H. unfold NamedType_String in H.
    eqb_cases; subst; try reflexivity; try (cbn in H; discriminate H).
    apply (inj (String.append _)) in H. now apply fmt_d_inj.
  - intros ty. unfold known_type, NamedType_String. split.
    + rewrite !orb_true_iff, !Z.eqb_eq.
      intros [[[[[->| ->]| ->]| ->]| ->]| ->]; cbn; discriminate.
    + intros H. eqb_cases; subst; try reflexivity. done.
Qed.

(** X2: [KSType.String] gives different types different strings, and
    ["named"] to the named type only -- the one type [setup] lets through. *)
Theorem KSType_String_faithful :
  Inj (=) (=) KSType_String
  ∧ ∀ tp, KSType_String tp = "named" ↔ tp = KSTAT_TYPE_NAMED.
Proof.
  split.
  - intros a b H. unfold KSType_String in H.
    eqb_cases; subst; try reflexivity; try (cbn in H; discriminate H).
    apply (inj (String.append _)) in H. now apply fmt_d_inj.
  - intros tp. unfold KSType_String. split.
    + intros H. eqb_cases; subst; try reflexivity; cbn in H; discriminate H.
    + intros ->. reflexivity.
Qed.

(** ** The decoder, further *)

Lemma until_nul_terminated (l rest : list byte) :
  x00 ∉ l → until_nul (l ++ x00 :: rest) = l.
Proof.
  induction l as [|b l IH]; intros Hl; cbn; [reflexivity|].
  apply not_elem_of_cons in Hl as [Hb Hl].
  destruct (Byte.eqb b x00) eqn:E.
  - apply Byte.byte_dec_bl in E. congruence.
  - now rewrite IH.
Qed.

(** [C.GoString] gives back a NUL-free string that was written with its
    terminator, whatever follows the terminator. *)
Lemma GoString_terminated (s : string) (rest : list byte) :
  x00 ∉ list_byte_of_string s →
  GoString (list_byte_of_string s ++ x00 :: rest) = s.
Proof.
  intros H. unfold GoString. rewrite until_nul_terminated by done.
  apply string_of_list_byte_of_string.
Qed.

(** X3: a string record decodes to exactly the name written, NUL-terminated,
    in its [name] array and the string written, NUL-terminated, where its
    pointer leads; what follows either terminator is not looked at, and the
    two integer fields stay [0]. *)
Theorem newNamed_string_exact (cm : gmap Z (list byte)) (k : option nat)
    (knp : kstat_named) (nm v : string) (pad rest : list byte) :
  NamedType_of knp = String →
  name knp = list_byte_of_string nm ++ x00 :: pad →
  x00 ∉ list_byte_of_string nm →
  value_str_addr_ptr knp ≠ 0 →
  cm !! value_str_addr_ptr knp = Some (list_byte_of_string v ++ x00 :: rest) →
  x00 ∉ list_byte_of_string v →
  newNamed cm k knp =
    Returns {| Named_Name := nm; Named_Type := String; Named_StringVal := v;
               Named_IntVal := 0; Named_UintVal := 0; Named_KStat := k |}.
Proof.
  intros Hty Hname Hnm Hptr Hmem Hv.
  unfold newNamed. cbn [Named_Type]. fold (NamedType_of knp). rewrite Hty. cbn.
  unfold GoString_at, get_named_char.
  destruct (Z.eqb_spec (value_str_addr_ptr knp) 0); [done|].
  rewrite Hmem, Hname. cbn. unfold set_StringVal. cbn.
  now rewrite !GoString_terminated.
Qed.

Lemma newNamed_string_exact_witness :
  newNamed string_memory (Some 0%nat) string_record =
    Returns {| Named_Name := "id"; Named_Type := String; Named_StringVal := "hi";
               Named_IntVal := 0; Named_UintVal := 0; Named_KStat := Some 0%nat |}.
Proof.
  apply (newNamed_string_exact string_memory (Some 0%nat) string_record "id" "hi" [] []).
  - reflexivity.
  - reflexivity.
  - intros H. vm_compute in H. repeat (apply elem_of_cons in H as [H|H]; [discriminate H|]).
    now apply elem_of_nil in H.
  - discriminate.
  - reflexivity.
  - intros H. vm_compute in H. repeat (apply elem_of_cons in H as [H|H]; [discriminate H|]).
    now apply elem_of_nil in H.
Defined.

Lemma to_signed_32_range (u : Z) : 0 ≤ u < 2 ^ 32 → - 2 ^ 31 ≤ to_signed 32 u < 2 ^ 31.
Proof. intros H. apply (to_signed_range 32 u); [lia|done]. Qed.

(** X4: an integer record is decoded from the first four bytes of the union
    when its type is 32-bit and from the first eight when it is 64-bit: two
    records that agree there (and in name and type) decode alike, whatever
    the rest of the union holds; and a 32-bit record gives a value in the
    32-bit range, signed for [Int32], unsigned for [Uint32]. *)
Theorem newNamed_integer_width (cm : gmap Z (list byte)) (k : option nat)
    (knp knp' : kstat_named) (n : nat) :
  name knp' = name knp → data_type knp' = data_type knp →
  ((NamedType_of knp = Int32 ∨ NamedType_of knp = Uint32) ∧ n = 4%nat)
  ∨ ((NamedType_of knp = Int64 ∨ NamedType_of knp = Uint64) ∧ n = 8%nat) →
  take n (value knp') = take n (value knp) →
  newNamed cm k knp' = newNamed cm k knp
  ∧ ∃ st, newNamed cm k knp = Returns st
          ∧ (NamedType_of knp = Int32 → - 2 ^ 31 ≤ Named_IntVal st < 2 ^ 31)
          ∧ (NamedType_of knp = Uint32 → 0 ≤ Named_UintVal st < 2 ^ 32).
Proof.
  intros Hname Hdt Hty Htake.
  pose proof (le_uint_take_bound 4 (value knp)) as Hb.
  assert (NamedType_of knp' = NamedType_of knp) as Hty' by (unfold NamedType_of; congruence).
  unfold newNamed, get_named_int, get_named_uint, value_i32, value_ui32, value_i64, value_ui64.
  cbn [Named_Type]. fold (NamedType_of knp) (NamedType_of knp').
  rewrite Hty', Hname.
  destruct Hty as [[[E|E] ->]|[[E|E] ->]]; rewrite E, Htake; cbn -[Z.pow];
    (split; [reflexivity|]); eexists; (split; [reflexivity|]); cbn -[Z.pow];
    split; intros; try discriminate; try (apply to_signed_32_range); cbn in Hb; lia.
Qed.

Lemma newNamed_integer_width_witness :
  newNamed ∅ None
    {| name := [x69; x64; x6c; x65; x00]; data_type := x01;
       value := [xff; xff; xff; xff; x01; x02; x03; x04;
                 x05; x06; x07; x08; x09; x0a; x0b; x0c] |}
  = newNamed ∅ None
      {| name := [x69; x64; x6c; x65; x00]; data_type := x01;
         value := [xff; xff; xff; xff; x00; x00; x00; x00;
                   x00; x00; x00; x00; x00; x00; x00; x00] |}
  ∧ ∃ st, newNamed ∅ None
            {| name := [x69; x64; x6c; x65; x00]; data_type := x01;
               value := [xff; xff; xff; xff; x00; x00; x00; x00;
                         x00; x00; x00; x00; x00; x00; x00; x00] |} = Returns st
          ∧ Named_IntVal st = -1.
Proof.
  destruct (newNamed_integer_width ∅ None
              {| name := [x69; x64; x6c; x65; x00]; data_type := x01;
                 value := [xff; xff; xff; xff; x00; x00; x00; x00;
                           x00; x00; x00; x00; x00; x00; x00; x00] |}
              {| name := [x69; x64; x6c; x65; x00]; data_type := x01;
                 value := [xff; xff; xff; xff; x01; x02; x03; x04;
                           x05; x06; x07; x08; x09; x0a; x0b; x0c] |}
              4 eq_refl eq_refl (or_introl (conj (or_introl eq_refl) eq_refl)) eq_refl)
    as [Heq _].
  split; [exact Heq|]. eexists. split; reflexivity.
Defined.

(** ** [setup], [GetNamed] and [AllNamed], further *)

Lemma invalid_false (a : nat) (w : world) :
  invalid (Some a) w = false →
  ∃ K T, kstats w !! a = Some K ∧ ksp K ≠ 0
         ∧ load_Token (tok K) w = Some T ∧ kc T ≠ 0.
Proof.
  unfold invalid. cbn [load_KStat]. destruct (kstats w !! a) as [K|]; [|done].
  intros H. apply orb_false_iff in H as [H1 H2].
  destruct (load_Token (tok K) w) as [T|] eqn:HT; [|done].
  apply Z.eqb_neq in H1, H2. eauto 10.
Qed.

Lemma invalid_ident (k : option nat) (w w' : world) :
  tokens w' = tokens w → ident <$> kstats w' = ident <$> kstats w →
  invalid k w' = invalid k w.
Proof.
  intros Et Ek. unfold invalid. destruct k as [a|]; cbn [load_KStat]; [|done].
  assert ((ident <$> kstats w') !! a = (ident <$> kstats w) !! a) as E by now rewrite Ek.
  rewrite !list_lookup_fmap in E.
  destruct (kstats w' !! a) as [K'|], (kstats w !! a) as [K|]; try discriminate; [|done].
  injection E as E1 E2. rewrite E1, E2. unfold load_Token. now rewrite Et.
Qed.

(** [setup] on a valid [KStat] whose [kstat_t] is readable. *)
Lemma setup_valid (a : nat) (K : KStat) (s : kstat_t) (rd : read_result) (w : world) :
  invalid (Some a) w = false → kstats w !! a = Some K →
  c_kstats w !! ksp K = Some s →
  setup (Some a) rd w =
    if negb (Z.of_N (Byte.to_N (ks_type s)) =? KSTAT_TYPE_NAMED) then
      Returns (Some (ErrStr ("kstat " +:+ (KStat_Module K +:+ ":" +:+ fmt_d (KStat_Instance K)
                                           +:+ ":" +:+ KStat_Name K +:+ " ("
                                           +:+ KStat_Class K +:+ ")")
                             +:+ " (type " +:+ fmt_d (Z.of_N (Byte.to_N (ks_type s)))
                             +:+ ") is not a named kstat")), w)
    else match ks_data s with
         | None => Refresh (Some a) rd w
         | Some _ => Returns (None, w)
         end.
Proof.
  intros Hv HK Hs. unfold setup, KStat_String. rewrite Hv. cbn [load_KStat].
  rewrite HK, Hs. destruct (negb _); reflexivity.
Qed.

(** The [kstat_t] of a [KStat], after a [Refresh] of it that returned [nil]. *)
Lemma Refresh_None_ksp (a : nat) (K : KStat) (s : kstat_t) (rd : read_result)
    (w w1 : world) :
  kstats w !! a = Some K → c_kstats w !! ksp K = Some s →
  Refresh (Some a) rd w = Returns (None, w1) →
  load_ksp (Some a) w1 = Some (read_into rd s)
  ∧ c_chars w1 = rd_chars rd
  ∧ tokens w1 = tokens w
  ∧ ident <$> kstats w1 = ident <$> kstats w.
Proof.
  intros HK Hs H.
  pose proof (Refresh_frame _ _ _ _ _ H) as (Et & Ei & _).
  apply Refresh_cases in H
    as [(_ & [=] & _)|(a' & K' & [= <-] & HK' & _ & [(_ & _ & ->)|(_ & _ & -> & _)])];
    simplify_eq; (split; [|done]).
  - unfold load_ksp. cbn [load_KStat]. change (kstats (kstat_read (ksp K) rd w)) with (kstats w).
    rewrite HK, kstat_read_lookup, Hs. reflexivity.
  - unfold load_ksp, refreshed. cbn [load_KStat kstats set_kstats].
    rewrite list_lookup_insert_eq by (eapply lookup_lt_Some; eauto).
    change (c_kstats (kstat_read (ksp K) rd w) !! ksp K = Some (read_into rd s)).
    rewrite kstat_read_lookup, Hs. reflexivity.
Qed.

(** After a [setup] that returned [nil], the [kstat_t] is a named one. *)
Lemma setup_None (k : option nat) (rd : read_result) (w w1 : world) :
  setup k rd w = Returns (None, w1) →
  ∃ s, load_ksp k w1 = Some s
       ∧ Z.of_N (Byte.to_N (ks_type s)) = KSTAT_TYPE_NAMED
       ∧ invalid k w1 = false.
Proof.
  intros H. destruct (invalid k w) eqn:Hv.
  { rewrite setup_invalid in H by done. discriminate. }
  destruct k as [a|]; [|discriminate].
  destruct (invalid_false _ _ Hv) as (K & T & HK & _).
  destruct (c_kstats w !! ksp K) as [s|] eqn:Hs.
  2:{ unfold setup in H. rewrite Hv in H. cbn [load_KStat] in H.
      rewrite HK, Hs in H. discriminate. }
  rewrite (setup_valid _ _ _ _ _ Hv HK Hs) in H.
  destruct (Z.eqb_spec (Z.of_N (Byte.to_N (ks_type s))) KSTAT_TYPE_NAMED) as [Hty|];
    [|discriminate]. cbn [negb] in H.
  destruct (ks_data s) eqn:Hd.
  - simplify_eq. exists s. unfold load_ksp. cbn [load_KStat]. now rewrite HK, Hs.
  - destruct (Refresh_None_ksp _ _ _ _ _ _ HK Hs H) as (Hl & _ & Et & Ei).
    exists (read_into rd s). split; [done|]. split; [done|].
    now rewrite (invalid_ident _ w w1).
Qed.

Lemma AllNamed_after_setup (k : option nat) (rd : read_result) (w w1 : world) (s : kstat_t) :
  setup k rd w = Returns (None, w1) → load_ksp k w1 = Some s →
  AllNamed k rd w =
    lst ← AllNamed_loop (c_chars w1) k s 0 (Z.to_nat (ks_ndata s));
    Returns ((lst, None), w1).
Proof. intros H Hs. unfold AllNamed. rewrite H. cbn. now rewrite Hs. Qed.

Lemma GetNamed_after_setup (k : option nat) (nm : string) (rd : read_result)
    (i : nat) (w w1 : world) (s : kstat_t) :
  setup k rd w = Returns (None, w1) → load_ksp k w1 = Some s →
  KStat_GetNamed k nm rd (Some i) 0 w =
    knp ← deref_named s i;
    st ← newNamed (c_chars w1) k knp;
    Returns ((Some st, None), w1).
Proof. intros H Hs. unfold KStat_GetNamed. rewrite H. cbn. now rewrite Hs. Qed.

Lemma load_ksp_Some (a : nat) (w : world) (s : kstat_t) :
  load_ksp (Some a) w = Some s →
  ∃ K, kstats w !! a = Some K ∧ c_kstats w !! ksp K = Some s.
Proof.
  unfold load_ksp. cbn [load_KStat]. destruct (kstats w !! a) as [K|]; [eauto|done].
Qed.

(** X5: on a valid [KStat] whose kstat is not of the named type, [GetNamed]
    and [AllNamed] return the error that names the kstat and its type; they
    read nothing and decode nothing, and the world is unchanged, whatever
    libkstat would have answered. *)
Theorem not_named_rejected (a : nat) (K : KStat) (s : kstat_t) (rd : read_result)
    (w : world) :
  invalid (Some a) w = false → kstats w !! a = Some K →
  c_kstats w !! ksp K = Some s →
  Z.of_N (Byte.to_N (ks_type s)) ≠ KSTAT_TYPE_NAMED →
  ∃ str e,
    KStat_String (Some a) w = Returns str
    ∧ e = Some (ErrStr ("kstat " +:+ str +:+ " (type "
                        +:+ fmt_d (Z.of_N (Byte.to_N (ks_type s)))
                        +:+ ") is not a named kstat"))
    ∧ (∀ nm r errno, KStat_GetNamed (Some a) nm rd r errno w = Returns ((None, e), w))
    ∧ AllNamed (Some a) rd w = Returns (([], e), w).
Proof.
  intros Hv HK Hs Hty.
  pose proof (setup_valid _ _ _ rd _ Hv HK Hs) as Hsetup.
  destruct (Z.eqb_spec (Z.of_N (Byte.to_N (ks_type s))) KSTAT_TYPE_NAMED); [done|].
  cbn [negb] in Hsetup.
  eexists _, _. split; [|split; [reflexivity|split]].
  - unfold KStat_String. cbn [load_KStat]. rewrite HK. reflexivity.
  - intros nm r errno. unfold KStat_GetNamed. rewrite Hsetup. reflexivity.
  - unfold AllNamed. rewrite Hsetup. reflexivity.
Qed.

Lemma not_named_rejected_witness :
  AllNamed (Some 0%nat) good_read raw_world
  = Returns (([], Some (ErrStr "kstat m:0:n (c) (type 0) is not a named kstat")), raw_world).
Proof.
  destruct (not_named_rejected 0 raw_KStat raw_kstat good_read raw_world
              eq_refl eq_refl eq_refl ltac:(discriminate))
    as (str & e & Hstr & -> & _ & HAll).
  injection Hstr as <-. exact HAll.
Defined.

(** X6: on a valid [KStat] of a named kstat whose data is loaded, [GetNamed]
    and [AllNamed] do not read again: what they return does not depend on
    what libkstat would answer, and the world they leave is the one they
    found, [Snaptime] included. *)
Theorem loaded_data_not_reread (a : nat) (K : KStat) (s : kstat_t)
    (arr : list kstat_named) (rd rd' : read_result) (w : world) :
  invalid (Some a) w = false → kstats w !! a = Some K →
  c_kstats w !! ksp K = Some s →
  Z.of_N (Byte.to_N (ks_type s)) = KSTAT_TYPE_NAMED →
  ks_data s = Some arr →
  AllNamed (Some a) rd' w = AllNamed (Some a) rd w
  ∧ (∀ nm r errno, KStat_GetNamed (Some a) nm rd' r errno w
                   = KStat_GetNamed (Some a) nm rd r errno w)
  ∧ (∀ res w', AllNamed (Some a) rd w = Returns (res, w') → w' = w)
  ∧ (∀ nm r errno res w',
       KStat_GetNamed (Some a) nm rd r errno w = Returns (res, w') → w' = w).
Proof.
  intros Hv HK Hs Hty Hd.
  assert (∀ rd0, setup (Some a) rd0 w = Returns (None, w)) as Hsetup.
  { intros rd0. rewrite (setup_valid _ _ _ _ _ Hv HK Hs), Hty, Hd. reflexivity. }
  repeat split.
  - unfold AllNamed. now rewrite !Hsetup.
  - intros. unfold KStat_GetNamed. now rewrite !Hsetup.
  - intros res w' H. apply AllNamed_world in H as [e H]. rewrite Hsetup in H. congruence.
  - intros nm r errno res w' H. apply KStat_GetNamed_world in H as [e H].
    rewrite Hsetup in H. congruence.
Qed.

Lemma loaded_data_not_reread_witness :
  AllNamed (Some 0%nat) failed_read loaded_world = AllNamed (Some 0%nat) good_read loaded_world
  ∧ ∃ lst, AllNamed (Some 0%nat) good_read loaded_world = Returns ((lst, None), loaded_world)
           ∧ length lst = 1%nat.
Proof.
  destruct (loaded_data_not_reread 0
              {| KStat_Module := "cpu"; KStat_Instance := 1; KStat_Name := "sys";
                 KStat_Class := "misc"; KStat_Type := 1; KStat_Crtime := 10;
                 KStat_Snaptime := 50; ksp := 200; tok := Some 0%nat |}
              (read_into good_read (cpu_kstat 1 0)) [idle_record]
              good_read failed_read loaded_world
              eq_refl eq_refl eq_refl eq_refl eq_refl) as [HAll _].
  split; [exact HAll|]. eexists. split; reflexivity.
Defined.

(** X7: on a valid [KStat] of a named kstat whose data was never loaded,
    [AllNamed] and [GetNamed] are a [Refresh] followed, when it returns [nil]
    and the read has delivered data, by the same call on the refreshed
    world: the error of the [Refresh] is their error, and otherwise they
    decode what that read delivered. *)
Theorem lazy_load_is_Refresh (a : nat) (K : KStat) (s : kstat_t)
    (arr : list kstat_named) (rd rd' : read_result) (w : world) :
  invalid (Some a) w = false → kstats w !! a = Some K →
  c_kstats w !! ksp K = Some s →
  Z.of_N (Byte.to_N (ks_type s)) = KSTAT_TYPE_NAMED →
  ks_data s = None → rd_data rd = Some arr →
  AllNamed (Some a) rd w =
    ('(e, w1) ← Refresh (Some a) rd w;
     match e with
     | Some _ => Returns (([], e), w1)
     | None => AllNamed (Some a) rd' w1
     end)
  ∧ ∀ nm r errno,
      KStat_GetNamed (Some a) nm rd r errno w =
        '(e, w1) ← Refresh (Some a) rd w;
        match e with
        | Some _ => Returns ((None, e), w1)
        | None => KStat_GetNamed (Some a) nm rd' r errno w1
        end.
Proof.
  intros Hv HK Hs Hty Hd Hrd.
  assert (setup (Some a) rd w = Refresh (Some a) rd w) as Hsetup.
  { rewrite (setup_valid _ _ _ _ _ Hv HK Hs), Hty, Hd. reflexivity. }
  assert (∀ w1, Refresh (Some a) rd w = Returns (None, w1) →
                setup (Some a) rd' w1 = Returns (None, w1)) as Hnext.
  { intros w1 H.
    destruct (Refresh_None_ksp _ _ _ _ _ _ HK Hs H) as (Hl & _ & Et & Ei).
    destruct (load_ksp_Some _ _ _ Hl) as (K1 & HK1 & Hs1).
    rewrite (setup_valid a K1 (read_into rd s) rd' w1); [|by rewrite (invalid_ident _ w w1)|done|done].
    cbn [ks_type ks_data read_into]. now rewrite Hty, Hrd. }
  split; [|intros nm r errno]; unfold AllNamed, KStat_GetNamed; rewrite Hsetup;
    destruct (Refresh (Some a) rd w) as [[[e|] w1]| |] eqn:Href; cbn; try reflexivity;
    now rewrite (Hnext w1 eq_refl).
Qed.

Lemma lazy_load_is_Refresh_witness :
  ∃ w1 lst,
    Refresh (Some 0%nat) good_read listed_world = Returns (None, w1)
    ∧ AllNamed (Some 0%nat) failed_read w1 = Returns ((lst, None), w1)
    ∧ AllNamed (Some 0%nat) good_read listed_world = Returns ((lst, None), w1)
    ∧ length lst = 1%nat.
Proof.
  eexists _, _.
  destruct (lazy_load_is_Refresh 0
              {| KStat_Module := "cpu"; KStat_Instance := 0; KStat_Name := "sys";
                 KStat_Class := "misc"; KStat_Type := 1; KStat_Crtime := 10;
                 KStat_Snaptime := 0; ksp := 100; tok := Some 0%nat |}
              (cpu_kstat 0 200) [idle_record] good_read failed_read listed_world
              eq_refl eq_refl eq_refl eq_refl eq_refl eq_refl) as [HAll _].
  split; [reflexivity|]. split; [reflexivity|]. split; [|reflexivity].
  rewrite HAll. reflexivity.
Defined.

Lemma AllNamed_Returns_None (k : option nat) (rd : read_result) (w w1 : world)
    (lst : list Named) :
  AllNamed k rd w = Returns ((lst, None), w1) →
  ∃ s, setup k rd w = Returns (None, w1) ∧ load_ksp k w1 = Some s
       ∧ AllNamed_loop (c_chars w1) k s 0 (Z.to_nat (ks_ndata s)) = Returns lst.
Proof.
  unfold AllNamed. intros H.
  apply bind_Returns in H as ([e w0] & Hsetup & H).
  destruct e; [by simplify_eq|].
  destruct (load_ksp k w0) as [s|] eqn:Hs; [|done].
  apply bind_Returns in H as (lst' & Hloop & H). simplify_eq. eauto.
Qed.

(** X8: [GetNamed] and [AllNamed] agree: when [AllNamed] returns its
    sequence, [GetNamed] for a name that [kstat_data_lookup] finds at index
    [i] returns the [i]-th [Named] of that sequence, and leaves the same
    world. *)
Theorem GetNamed_agrees_with_AllNamed (k : option nat) (nm : string)
    (rd : read_result) (w w1 : world) (lst : list Named) (i : nat) (st : Named) :
  AllNamed k rd w = Returns ((lst, None), w1) →
  lst !! i = Some st →
  KStat_GetNamed k nm rd (Some i) 0 w = Returns ((Some st, None), w1).
Proof.
  intros H Hi. apply AllNamed_Returns_None in H as (s & Hsetup & Hs & Hloop).
  apply AllNamed_loop_Returns in Hloop as (_ & _ & Hall); [|lia].
  rewrite drop_0 in Hall.
  destruct (Forall2_lookup_l _ _ _ _ _ Hall Hi) as (knp & Hknp & Hst).
  apply lookup_take_Some in Hknp as [Hknp _].
  rewrite (GetNamed_after_setup _ _ _ _ _ _ _ Hsetup Hs).
  unfold deref_named. destruct (ks_data s) as [arr|]; [|discriminate].
  cbn in Hknp. rewrite Hknp. cbn. rewrite Hst. reflexivity.
Qed.

Lemma GetNamed_agrees_with_AllNamed_witness :
  ∃ st,
    AllNamed (Some 0%nat) good_read loaded_world = Returns (([st], None), loaded_world)
    ∧ KStat_GetNamed (Some 0%nat) "idle" good_read (Some 0%nat) 0 loaded_world
      = Returns ((Some st, None), loaded_world)
    ∧ Named_UintVal st = 42.
Proof.
  eexists. split; [reflexivity|]. split; [|reflexivity].
  apply (GetNamed_agrees_with_AllNamed (Some 0%nat) "idle" good_read loaded_world
           loaded_world _ 0 _ eq_refl eq_refl).
Defined.

Lemma newNamed_Panics (cm : gmap Z (list byte)) (k : option nat) (knp : kstat_named)
    (msg : string) :
  newNamed cm k knp = Panics msg →
  msg = sigsegv ∨ msg = "unknown stat type: " +:+ fmt_d (NamedType_of knp).
Proof.
  unfold newNamed, GoString_at. cbn [Named_Type]. fold (NamedType_of knp).
  intros H.
  repeat match type of H with
         | context [if ?b then _ else _] => destruct b
         | context [match ?x with _ => _ end] => destruct x
         end; cbn in H; simplify_eq; auto.
Qed.


Lemma AllNamed_loop_surprise (cm : gmap Z (list byte)) (k : option nat) (s : kstat_t)
    (i : Z) (todo : nat) :
  Z.of_N (Byte.to_N (ks_type s)) = KSTAT_TYPE_NAMED →
  0 ≤ i → i + Z.of_nat todo ≤ ks_ndata s →
  AllNamed_loop cm k s i todo = Panics surprise_nil →
  ks_data s = None.
Proof.
  intros Hty. revert i. induction todo as [|todo IH]; intros i Hi Hle H; [discriminate|].
  cbn [AllNamed_loop] in H. unfold get_nth_named in H.
  destruct (ks_data s) as [arr|] eqn:Hd; [|reflexivity]. exfalso.
  rewrite Hty in H. cbn [negb orb] in H. rewrite Z.eqb_refl in H. cbn [negb orb] in H.
  destruct (Z.leb_spec (ks_ndata s) i); [lia|].
  unfold deref_named in H. rewrite Hd in H.
  destruct (arr !! Z.to_nat i) as [knp|]; [|discriminate]. cbn in H.
  destruct (newNamed cm k knp) as [st|msg|] eqn:Hnew; cbn in H; [| |discriminate].
  - destruct (AllNamed_loop cm k s (i + 1) todo) as [rest|msg|] eqn:Hrest;
      cbn in H; [discriminate| |discriminate].
    injection H as ->. specialize (IH (i + 1) ltac:(lia) ltac:(lia) Hrest). discriminate.
  - injection H as ->. apply newNamed_Panics in Hnew as [E|E]; cbn in E; discriminate.
Qed.

Lemma setup_not_surprise (k : option nat) (rd : read_result) (w : world) :
  setup k rd w ≠ Panics surprise_nil.
Proof.
  unfold setup, Refresh, KStat_String.
  repeat case_match; cbn; try discriminate.
Qed.

(** X9: [AllNamed] panics with "get_nth_named returned surprise nil" in one
    situation only: [setup] has returned [nil], and yet the kstat has no data
    pointer while its record count is positive -- that is, after a lazy read
    that did not deliver the data.  On a kstat whose data is loaded it never
    does. *)
Theorem AllNamed_surprise_nil (k : option nat) (rd : read_result) (w : world) :
  AllNamed k rd w = Panics surprise_nil
  ↔ ∃ w1 s, setup k rd w = Returns (None, w1) ∧ load_ksp k w1 = Some s
            ∧ ks_data s = None ∧ 0 < ks_ndata s.
Proof.
  split.
  - intros H. pose proof (setup_not_surprise k rd w) as Hns.
    unfold AllNamed in H.
    destruct (setup k rd w) as [[[e|] w1]|msg|] eqn:Hsetup; cbn in H;
      [discriminate| |congruence|discriminate].
    destruct (setup_None _ _ _ _ Hsetup) as (s & Hs & Hty & _).
    rewrite Hs in H. exists w1, s. split; [done|]. split; [done|].
    destruct (AllNamed_loop _ _ _ _ _) as [lst|msg|] eqn:Hloop; cbn in H;
      [discriminate| |discriminate].
    injection H as ->.
    destruct (Z.to_nat (ks_ndata s)) as [|n] eqn:En; [discriminate|].
    split; [|lia].
    apply (AllNamed_loop_surprise (c_chars w1) k s 0 (S n) Hty); [lia|lia|done].
  - intros (w1 & s & Hsetup & Hs & Hd & Hn).
    rewrite (AllNamed_after_setup _ _ _ _ _ Hsetup Hs).
    destruct (Z.to_nat (ks_ndata s)) as [|n] eqn:En; [lia|].
    cbn [AllNamed_loop]. unfold get_nth_named. rewrite Hd. reflexivity.
Qed.



(** ** [Lookup] and [Token.GetNamed], further *)

(** X11: [Lookup] never returns a [KStat] together with an error; the
    [KStat] it returns on an open token is the one the token caches for the
    [kstat_t] that [kstat_lookup] found: it wraps that [kstat_t], belongs to
    the token, is valid, and, when the read succeeded, carries the snapshot
    time of that read. *)
Theorem Lookup_returns_cached_and_fresh
    (tk : nat) (T : Token) (module : string) (instance : Z) (nm : string)
    (f : lookup_fn) (rd : read_result) (w : world)
    (k : nat) (e : option error) (w' : world) :
  cache_ok w → tokens w !! tk = Some T → kc T ≠ 0 →
  Lookup (Some tk) module instance nm f rd w = Returns ((Some k, e), w') →
  e = None
  ∧ ∃ p errno K,
      f (kc T) (maybeCString module) (C_int instance) (maybeCString nm) = (p, errno)
      ∧ p ≠ 0
      ∧ cached tk p k w'
      ∧ kstats w' !! k = Some K ∧ ksp K = p ∧ tok K = Some tk
      ∧ invalid (Some k) w' = false
      ∧ (rd_res rd ≠ -1 → KStat_Snaptime K = rd_snaptime rd).
Proof.
  intros Hok HT Ho H.
  destruct (Lookup_Some _ _ _ _ _ _ _ _ _ _ _ HT Ho H)
    as (p & errno & w1 & Hf & Hp & -> & Hnew & Href).
  split; [done|]. exists p, errno.
  destruct (newKStat_spec _ _ _ _ _ Hok (ex_intro _ T (conj HT Ho)) Hnew)
    as (Hok1 & Hg & Hc).
  pose proof (grows_open _ _ _ Hg (ex_intro _ T (conj HT Ho))) as Ho1.
  destruct (cached_valid _ _ _ _ Hok1 Ho1 Hc Hp) as (K & HK & Eksp & Etok & Hv).
  pose proof (Refresh_cached _ _ _ _ _ _ _ _ Href Hc) as Hc'.
  pose proof (Refresh_frame _ _ _ _ _ Href) as (Et & Ei & _).
  assert (invalid (Some k) w' = false) as Hv' by now rewrite (invalid_ident _ w1 w').
  apply Refresh_cases in Href
    as [(Hinv & _)|(a & K0 & [= <-] & HK0 & _ & [(Hres & _ & ->)|(_ & _ & -> & _)])];
    [congruence| |]; rewrite HK in HK0; injection HK0 as <-.
  - exists K. repeat split; try done.
  - exists (set_Snaptime (rd_snaptime rd) K). repeat split; try done.
    cbn. apply list_lookup_insert_eq. eapply lookup_lt_Some; eauto.
Qed.

Lemma Lookup_returns_cached_and_fresh_witness :
  ∃ w' K,
    Lookup (Some 0%nat) "cpu" 1 "sys" find_second good_read cpu_world
      = Returns ((Some 0%nat, None), w')
    ∧ cached 0 200 0 w'
    ∧ kstats w' !! 0%nat = Some K ∧ ksp K = 200 ∧ tok K = Some 0%nat
    ∧ invalid (Some 0%nat) w' = false
    ∧ KStat_Snaptime K = 50.
Proof.
  eexists.
  destruct (Lookup_returns_cached_and_fresh 0 {| kc := 1000; ksm := ∅ |}
              "cpu" 1 "sys" find_second good_read cpu_world 0 None _
              cpu_world_cache_ok eq_refl ltac:(discriminate) eq_refl)
    as (_ & p & errno & K & Hf & _ & Hc & HK & Hksp & Htok & Hv & Hsnap).
  injection Hf as <- <-.
  exists K. repeat split; try assumption. apply Hsnap. discriminate.
Defined.

Lemma C_int_mod (x k : Z) : C_int (x + k * 2 ^ 32) = C_int x.
Proof. unfold C_int. now rewrite Z.mod_add by lia. Qed.

Lemma C_int_id (x : Z) : - 2 ^ 31 ≤ x < 2 ^ 31 → C_int x = x.
Proof.
  intros H. unfold C_int, to_signed.
  destruct (Z.ltb_spec (x mod 2 ^ 32) (2 ^ (32 - 1))) as [Hlt|Hge].
  - destruct (Z.le_gt_cases 0 x).
    + apply Z.mod_small. lia.
    + replace x with ((x + 2 ^ 32) + (-1) * 2 ^ 32) in Hlt by lia.
      rewrite Z.mod_add, Z.mod_small in Hlt by lia. change (2 ^ (32 - 1)) with (2 ^ 31) in Hlt. lia.
  - destruct (Z.le_gt_cases 0 x).
    + rewrite Z.mod_small in Hge by lia. change (2 ^ (32 - 1)) with (2 ^ 31) in Hge. lia.
    + replace x with ((x + 2 ^ 32) + (-1) * 2 ^ 32) at 1 by lia.
      rewrite Z.mod_add, Z.mod_small by lia. lia.
Qed.

(** X12: [Lookup] hands the instance number to [kstat_lookup] as a C [int]:
    unchanged when it fits 32 bits (so [-1] stays the wildcard), and
    otherwise cut to its low 32 bits, so that two instance numbers that
    differ by a multiple of [2^32] are looked up alike -- [4294967295] is a
    wildcard too.  [Token.GetNamed] inherits this. *)
Theorem Lookup_instance_is_a_C_int (t : option nat) (module : string) (instance n : Z)
    (nm : string) (f : lookup_fn) (rd : read_result) (w : world) :
  Lookup t module (instance + n * 2 ^ 32) nm f rd w = Lookup t module instance nm f rd w
  ∧ (∀ stat rd' r errno,
       Token_GetNamed t module (instance + n * 2 ^ 32) nm stat f rd rd' r errno w
       = Token_GetNamed t module instance nm stat f rd rd' r errno w)
  ∧ (- 2 ^ 31 ≤ instance < 2 ^ 31 →
     Lookup t module instance nm f rd w
     = Lookup t module instance nm (λ kc ms _ ns, f kc ms instance ns) rd w).
Proof.
  assert (Lookup t module (instance + n * 2 ^ 32) nm f rd w
          = Lookup t module instance nm f rd w) as HL.
  { unfold Lookup. now rewrite C_int_mod. }
  split; [done|]. split.
  - intros. unfold Token_GetNamed. unfold Lookup. now rewrite C_int_mod.
  - intros Hr. unfold Lookup. now rewrite (C_int_id _ Hr).
Qed.

Lemma GetNamed_after_setup_any (k : option nat) (nm : string) (rd : read_result)
    (r : option nat) (errno : Z) (w w1 : world) (s : kstat_t) :
  setup k rd w = Returns (None, w1) → load_ksp k w1 = Some s →
  KStat_GetNamed k nm rd r errno w =
    match r, cgo_err errno with
    | Some i, None =>
        knp ← deref_named s i;
        st ← newNamed (c_chars w1) k knp;
        Returns ((Some st, None), w1)
    | _, err => Returns ((None, err), w1)
    end.
Proof.
  intros H Hs. unfold KStat_GetNamed. rewrite H. cbn.
  destruct r, (cgo_err errno); rewrite ?Hs; reflexivity.
Qed.

(** X13: [Token.GetNamed] reads the kstat once when that read delivers the
    data: on an open token, when [kstat_lookup] finds a named kstat and the
    read of [Lookup] succeeds with data, the [GetNamed] that follows reads
    nothing more -- the result does not depend on what a second read would
    answer -- and the [Named] is decoded from what the first read delivered,
    for the [KStat] that [Lookup] returns. *)
Theorem Token_GetNamed_reads_once
    (tk : nat) (T : Token) (module : string) (instance : Z) (nm stat : string)
    (f : lookup_fn) (rd : read_result) (w : world) (p errno : Z) (s : kstat_t)
    (arr : list kstat_named) :
  cache_ok w → tokens w !! tk = Some T → kc T ≠ 0 →
  f (kc T) (maybeCString module) (C_int instance) (maybeCString nm) = (p, errno) →
  p ≠ 0 → c_kstats w !! p = Some s →
  Z.of_N (Byte.to_N (ks_type s)) = KSTAT_TYPE_NAMED →
  rd_res rd ≠ -1 → rd_data rd = Some arr →
  ∃ k w1,
    Lookup (Some tk) module instance nm f rd w = Returns ((Some k, None), w1)
    ∧ ∀ rd' r errno',
        Token_GetNamed (Some tk) module instance nm stat f rd rd' r errno' w =
          match r, cgo_err errno' with
          | Some i, None =>
              knp ← deref_named (read_into rd s) i;
              st ← newNamed (rd_chars rd) (Some k) knp;
              Returns ((Some st, None), w1)
          | _, err => Returns ((None, err), w1)
          end.
Proof.
  intros Hok HT Ho Hf Hp Hs Hty Hres Hrd.
  destruct (newKStat_total _ _ _ _ HT (ex_intro _ s Hs)) as (k & w0 & Hnew).
  destruct (newKStat_spec _ _ _ _ _ Hok (ex_intro _ T (conj HT Ho)) Hnew)
    as (Hok0 & Hg & Hc).
  pose proof (grows_open _ _ _ Hg (ex_intro _ T (conj HT Ho))) as Ho0.
  destruct (cached_valid _ _ _ _ Hok0 Ho0 Hc Hp) as (K & HK & Eksp & Etok & Hv).
  destruct (grows_C _ _ _ Hg) as (_ & EC & _).
  assert (Refresh (Some k) rd w0 = Returns (None, refreshed k K rd w0)) as Href.
  { rewrite (Refresh_valid _ _ _ _ Hv HK), Eksp, EC, Hs.
    destruct (Z.eqb_spec (rd_res rd) (-1)); done. }
  assert (Lookup (Some tk) module instance nm f rd w
          = Returns ((Some k, None), refreshed k K rd w0)) as HL.
  { rewrite (Lookup_found _ _ _ _ _ _ _ _ _ _ HT Ho Hf Hp), Hnew. cbn.
    now rewrite Href. }
  exists k, (refreshed k K rd w0). split; [done|].
  intros rd' r errno'. unfold Token_GetNamed. rewrite HL. cbn.
  destruct (Refresh_None_ksp k K s rd w0 _ HK ltac:(by rewrite Eksp, EC) Href)
    as (Hl & Hch & Et & Ei).
  destruct (load_ksp_Some _ _ _ Hl) as (K1 & HK1 & Hs1).
  assert (setup (Some k) rd' (refreshed k K rd w0) = Returns (None, refreshed k K rd w0))
    as Hsetup.
  { rewrite (setup_valid k K1 (read_into rd s)); [|by rewrite (invalid_ident _ w0)|done|done].
    cbn [ks_type ks_data read_into]. now rewrite Hty, Hrd. }
  rewrite (GetNamed_after_setup_any _ _ _ _ _ _ _ _ Hsetup Hl), Hch. reflexivity.
Qed.

Lemma Token_GetNamed_reads_once_witness :
  ∃ w1 st,
    Token_GetNamed (Some 0%nat) "cpu" 1 "sys" "idle" find_second good_read failed_read
      (Some 0%nat) 0 cpu_world
    = Returns ((Some st, None), w1)
    ∧ Named_Name st = "idle" ∧ Named_UintVal st = 42 ∧ Named_KStat st = Some 0%nat.
Proof.
  destruct (Token_GetNamed_reads_once 0 {| kc := 1000; ksm := ∅ |}
              "cpu" 1 "sys" "idle" find_second good_read cpu_world 200 0
              (cpu_kstat 1 0) [idle_record]
              cpu_world_cache_ok eq_refl ltac:(discriminate) eq_refl
              ltac:(discriminate) eq_refl eq_refl ltac:(discriminate) eq_refl)
    as (k & w1 & HL & HG).
  injection HL as <- <-.
  eexists _, _. split; [rewrite HG; reflexivity|]. repeat split.
Defined.

(** ** How the Go heap changes *)

Lemma same_but_Snaptime_refl (K : KStat) : same_but_Snaptime K K.
Proof. apply set_Snaptime_id. Qed.

Lemma same_but_Snaptime_trans (K1 K2 K3 : KStat) :
  same_but_Snaptime K1 K2 → same_but_Snaptime K2 K3 → same_but_Snaptime K1 K3.
Proof. unfold same_but_Snaptime. intros E2 E3. rewrite E3 at 1. now rewrite E2. Qed.

Lemma same_but_Snaptime_ident (K K' : KStat) :
  same_but_Snaptime K K' → tok K' = tok K ∧ ksp K' = ksp K.
Proof. unfold same_but_Snaptime. intros ->. done. Qed.

Lemma token_kept (T : Token) :
  (kc T = 0 ∧ T = T)
  ∨ (kc T ≠ 0 ∧ (kc T = kc T ∧ ksm T ⊆ ksm T ∨ T = closed_Token)).
Proof. destruct (Z.eq_dec (kc T) 0); [left|right]; auto. Qed.

Lemma evolves_refl (w : world) : evolves w w.
Proof.
  split.
  - intros a K HK. exists K. split; [done|apply same_but_Snaptime_refl].
  - intros t T HT. exists T. split; [done|apply token_kept].
  - intros a K' H1 H2. congruence.
  - intros t T' H1 H2. congruence.
Qed.

Lemma evolves_trans (w1 w2 w3 : world) : evolves w1 w2 → evolves w2 w3 → evolves w1 w3.
Proof.
  intros [K12 T12 NK12 NT12] [K23 T23 NK23 NT23]. split.
  - intros a K HK. destruct (K12 _ _ HK) as (K2 & HK2 & E2).
    destruct (K23 _ _ HK2) as (K3 & HK3 & E3).
    exists K3. split; [done|]. eapply same_but_Snaptime_trans; eauto.
  - intros t T HT. destruct (T12 _ _ HT) as (T2 & HT2 & H12).
    destruct (T23 _ _ HT2) as (T3 & HT3 & H23).
    exists T3. split; [done|].
    destruct H12 as [[E ->]|[Ho [[Ekc Hsub]| ->]]].
    + destruct H23 as [[_ ->]|[Ho _]]; [auto|done].
    + destruct H23 as [[E _]|[_ [[Ekc' Hsub']| ->]]]; [congruence| |auto].
      right. split; [done|]. left. split; [congruence|]. etrans; eauto.
    + destruct H23 as [[_ ->]|[Ho' _]]; [auto|done].
  - intros a K3 HK3 HN.
    destruct (kstats w2 !! a) as [K2|] eqn:HK2; [|eauto].
    destruct (K23 _ _ HK2) as (K3' & HK3' & E3). simplify_eq.
    apply same_but_Snaptime_ident in E3 as [_ ->]. eauto.
  - intros t T3 HT3 HN E.
    destruct (tokens w2 !! t) as [T2|] eqn:HT2; [|eauto].
    destruct (T23 _ _ HT2) as (T3' & HT3' & H23). simplify_eq.
    destruct H23 as [[E2 ->]|[Ho [[Ekc _]| ->]]]; [eauto|congruence|done].
Qed.

Lemma untouched_refl (tk : option nat) (w : world) : untouched tk w w.
Proof. intros t T HT _. done. Qed.

Lemma untouched_trans (tk : option nat) (w1 w2 w3 : world) :
  untouched tk w1 w2 → untouched tk w2 w3 → untouched tk w1 w3.
Proof. intros H12 H23 t T HT Hne. eauto. Qed.

Lemma untouched_weaken (tk : option nat) (w w' : world) :
  untouched None w w' → untouched tk w w'.
Proof. intros H t T HT _. now apply H. Qed.

(** A step that leaves the tokens alone and keeps every [KStat] but for its
    [Snaptime]. *)
Lemma evolves_same_tokens (w w' : world) :
  tokens w' = tokens w → length (kstats w') = length (kstats w) →
  (∀ a K, kstats w !! a = Some K →
     ∃ K', kstats w' !! a = Some K' ∧ same_but_Snaptime K K') →
  evolves w w' ∧ untouched None w w'.
Proof.
  intros Et El HK. split; [split|].
  - done.
  - rewrite Et. apply (evolves_tokens _ _ (evolves_refl w)).
  - intros a K' H1 H2. apply lookup_lt_Some in H1. apply lookup_ge_None in H2. lia.
  - intros t T' H1 H2. rewrite Et in H1. congruence.
  - intros t T HT _. now rewrite Et.
Qed.

Lemma alloc_KStat_evolves (tk : nat) (p : Z) (T : Token) (s : kstat_t) (w : world) :
  tokens w !! tk = Some T → kc T ≠ 0 → p ≠ 0 → ksm T !! p = None →
  evolves w (alloc_KStat tk p T s w) ∧ untouched (Some tk) w (alloc_KStat tk p T s w).
Proof.
  intros HT Ho Hp Hmiss.
  assert (tk < length (tokens w))%nat as Hlt by (eapply lookup_lt_Some; eauto).
  split; [split|]; cbn.
  - intros a K HK. exists K. split; [now apply lookup_app_l_Some|apply same_but_Snaptime_refl].
  - intros t T0 HT0. destruct (decide (t = tk)) as [->|Hne].
    + simplify_eq. eexists. split; [now apply list_lookup_insert_eq|].
      right. split; [done|]. left. cbn. split; [done|]. now apply insert_subseteq.
    + exists T0. split; [now rewrite list_lookup_insert_ne|].
      apply token_kept.
  - intros a K' H1 H2. apply lookup_ge_None in H2.
    apply lookup_app_Some in H1 as [H1|[_ H1]].
    + apply lookup_lt_Some in H1. lia.
    + apply list_lookup_singleton_Some in H1 as [_ <-]. done.
  - intros t T' H1 H2. apply lookup_ge_None in H2. apply lookup_lt_Some in H1.
    rewrite length_insert in H1. lia.
  - intros t T0 HT0 Hne. cbn. rewrite list_lookup_insert_ne; [done|]. congruence.
Qed.

Lemma newKStat_evolves (tk : nat) (p : Z) (T : Token) (w : world) (k : nat) (w' : world) :
  tokens w !! tk = Some T → kc T ≠ 0 → p ≠ 0 →
  newKStat tk p w = Returns (k, w') →
  evolves w w' ∧ untouched (Some tk) w w'
  ∧ ∃ T', tokens w' !! tk = Some T' ∧ kc T' = kc T.
Proof.
  intros HT Ho Hp H.
  apply newKStat_Returns in H as (T0 & HT0 & [[_ ->]|(Hmiss & _ & s & _ & ->)]);
    assert (T0 = T) as -> by congruence.
  - split; [apply evolves_refl|]. split; [apply untouched_refl|eauto].
  - destruct (alloc_KStat_evolves tk p T s w) as [He Hu]; try done.
    split; [done|]. split; [done|]. eexists.
    split; [cbn; apply list_lookup_insert_eq; eapply lookup_lt_Some; eauto|reflexivity].
Qed.

Lemma All_loop_evolves (fuel : nat) (tk : nat) (r : Z) (n : list nat) (w : world)
    (T : Token) (l : list nat) (w' : world) :
  tokens w !! tk = Some T → kc T ≠ 0 →
  All_loop fuel tk r n w = Returns (l, w') →
  evolves w w' ∧ untouched (Some tk) w w'.
Proof.
  revert r n w T. induction fuel as [|fuel IH]; intros r n w T HT Ho H; [discriminate|].
  cbn [All_loop] in H. destruct (r =? 0) eqn:Er.
  - simplify_eq. split; [apply evolves_refl|apply untouched_refl].
  - apply Z.eqb_neq in Er.
    apply bind_Returns in H as ([k w1] & Hnew & H).
    destruct (newKStat_evolves _ _ _ _ _ _ HT Ho Er Hnew) as (He & Hu & T1 & HT1 & Ekc).
    destruct (c_kstats w1 !! r) as [s|]; [|discriminate].
    destruct (IH _ _ _ T1 HT1 ltac:(congruence) H) as [He' Hu'].
    split; [eapply evolves_trans|eapply untouched_trans]; eauto.
Qed.

Lemma All_evolves (t : option nat) (w : world) (l : list nat) (w' : world) :
  All t w = Returns (l, w') → evolves w w' ∧ untouched t w w'.
Proof.
  unfold All. intros H. destruct (load_Token t w) as [T|] eqn:HT; [|discriminate].
  destruct (kc T =? 0) eqn:E.
  - simplify_eq. split; [apply evolves_refl|apply untouched_refl].
  - apply Z.eqb_neq in E. destruct (c_ctls w !! kc T); [|discriminate].
    destruct t as [tk|]; [|discriminate]. eapply All_loop_evolves; eauto.
Qed.

Lemma Refresh_evolves (k : option nat) (rd : read_result) (w : world)
    (e : option error) (w' : world) :
  Refresh k rd w = Returns (e, w') → evolves w w' ∧ untouched None w w'.
Proof.
  intros H.
  apply Refresh_cases in H
    as [(_ & _ & ->)|(a & K & -> & HK & _ & [(_ & _ & ->)|(_ & _ & -> & _)])].
  - split; [apply evolves_refl|apply untouched_refl].
  - apply evolves_same_tokens; [done..|].
    intros a' K' HK'. exists K'. split; [done|apply same_but_Snaptime_refl].
  - apply evolves_same_tokens; [done|cbn; apply length_insert|].
    intros a' K' HK'. cbn. destruct (decide (a' = a)) as [->|Hne].
    + simplify_eq. eexists. split; [apply list_lookup_insert_eq; eapply lookup_lt_Some; eauto|].
      reflexivity.
    + exists K'. split; [now rewrite list_lookup_insert_ne|apply same_but_Snaptime_refl].
Qed.

Lemma setup_evolves (k : option nat) (rd : read_result) (w : world)
    (e : option error) (w' : world) :
  setup k rd w = Returns (e, w') → evolves w w' ∧ untouched None w w'.
Proof.
  intros H. apply setup_cases in H as [->|H].
  - split; [apply evolves_refl|apply untouched_refl].
  - eapply Refresh_evolves; eauto.
Qed.

Lemma Open_evolves (r errno : Z) (w : world) (res : option nat * option error)
    (w' : world) :
  Open r errno w = Returns (res, w') → evolves w w' ∧ untouched None w w'.
Proof.
  unfold Open. intros H. destruct (r =? 0) eqn:E; simplify_eq.
  - split; [apply evolves_refl|apply untouched_refl].
  - apply Z.eqb_neq in E. split; [split|]; cbn.
    + apply (evolves_kstats _ _ (evolves_refl w)).
    + intros t T HT. exists T. split; [now apply lookup_app_l_Some|].
      apply token_kept.
    + intros a K' H1 H2. congruence.
    + intros t T' H1 H2 E0. apply lookup_ge_None in H2.
      apply lookup_app_Some in H1 as [H1|[_ H1]].
      * apply lookup_lt_Some in H1. lia.
      * apply list_lookup_singleton_Some in H1 as [_ <-]. done.
    + intros t T HT _. cbn. now apply lookup_app_l_Some.
Qed.

Lemma Close_evolves (t : option nat) (res errno : Z) (w : world)
    (e : option error) (w' : world) :
  Close t res errno w = Returns (e, w') → evolves w w' ∧ untouched t w w'.
Proof.
  unfold Close. intros H. destruct (load_Token t w) as [T|] eqn:HT; [|discriminate].
  destruct (kc T =? 0) eqn:E.
  - simplify_eq. split; [apply evolves_refl|apply untouched_refl].
  - apply Z.eqb_neq in E. destruct t as [tk|]; [|discriminate]. cbn in HT.
    assert (w' = set_tokens (<[tk := closed_Token]> (tokens w)) w) as ->
      by (destruct (negb (res =? 0)); by simplify_eq).
    clear H. split; [split|]; cbn.
    + apply (evolves_kstats _ _ (evolves_refl w)).
    + intros t T0 HT0. destruct (decide (t = tk)) as [->|Hne].
      * simplify_eq. exists closed_Token.
        split; [apply list_lookup_insert_eq; eapply lookup_lt_Some; eauto|auto].
      * exists T0. split; [now rewrite list_lookup_insert_ne|].
        apply token_kept.
    + intros a K' H1 H2. congruence.
    + intros t T' H1 H2. apply lookup_ge_None in H2. apply lookup_lt_Some in H1.
      rewrite length_insert in H1. lia.
    + intros t T0 HT0 Hne. cbn. rewrite list_lookup_insert_ne; [done|]. congruence.
Qed.

Lemma Lookup_steps (t : option nat) (module : string) (instance : Z) (nm : string)
    (f : lookup_fn) (rd : read_result) (w : world)
    (res : option nat * option error) (w' : world) :
  Lookup t module instance nm f rd w = Returns (res, w') →
  w' = w
  ∨ ∃ tk T p k w1 e, t = Some tk ∧ tokens w !! tk = Some T ∧ kc T ≠ 0 ∧ p ≠ 0
                     ∧ newKStat tk p w = Returns (k, w1)
                     ∧ Refresh (Some k) rd w1 = Returns (e, w').
Proof.
  unfold Lookup. intros H.
  destruct (load_Token t w) as [T|] eqn:HT; [|left; by simplify_eq].
  destruct (kc T =? 0) eqn:E; [left; by simplify_eq|].
  destruct (f _ _ _ _) as [p errno].
  destruct (p =? 0) eqn:Ep; [left; by simplify_eq|].
  apply Z.eqb_neq in E, Ep.
  destruct t as [tk|]; [|discriminate]. cbn in HT.
  apply bind_Returns in H as ([k w1] & Hnew & H).
  apply bind_Returns in H as ([err w2] & Href & H).
  right. exists tk, T, p, k, w1, err.
  destruct err; by simplify_eq.
Qed.

Lemma Lookup_evolves (t : option nat) (module : string) (instance : Z) (nm : string)
    (f : lookup_fn) (rd : read_result) (w : world)
    (res : option nat * option error) (w' : world) :
  Lookup t module instance nm f rd w = Returns (res, w') →
  evolves w w' ∧ untouched t w w'.
Proof.
  intros H.
  apply Lookup_steps in H as [->|(tk & T & p & k & w1 & e & -> & HT & Ho & Hp & Hnew & Href)].
  - split; [apply evolves_refl|apply untouched_refl].
  - destruct (newKStat_evolves _ _ _ _ _ _ HT Ho Hp Hnew) as (He & Hu & _).
    destruct (Refresh_evolves _ _ _ _ _ Href) as [He' Hu'].
    split; [eapply evolves_trans; eauto|].
    eapply untouched_trans; [done|]. now apply untouched_weaken.
Qed.

(** Every call lets the Go heap evolve, and touches no token but its own. *)
Lemma run_evolves (c : call) (w w' : world) :
  run c w = Returns w' → evolves w w' ∧ untouched (call_token c) w w'.
Proof.
  intros H. destruct c; cbn in H; apply after_Returns in H as [out H]; cbn [call_token].
  - eapply Open_evolves; eauto.
  - eapply Close_evolves; eauto.
  - eapply All_evolves; eauto.
  - eapply Lookup_evolves; eauto.
  - apply Token_GetNamed_cases in H as (stats & err & w1 & HL & [->|HG]).
    + eapply Lookup_evolves; eauto.
    + apply KStat_GetNamed_world in HG as [e HG].
      destruct (Lookup_evolves _ _ _ _ _ _ _ _ _ HL) as [He Hu].
      destruct (setup_evolves _ _ _ _ _ HG) as [He' Hu'].
      split; [eapply evolves_trans; eauto|].
      eapply untouched_trans; [done|]. now apply untouched_weaken.
  - eapply Refresh_evolves; eauto.
  - apply KStat_GetNamed_world in H as [e H]. eapply setup_evolves; eauto.
  - apply AllNamed_world in H as [e H]. eapply setup_evolves; eauto.
Qed.

Lemma run_all_evolves (cs : list call) (w w' : world) :
  run_all cs w = Returns w' → evolves w w'.
Proof.
  revert w. induction cs as [|c cs IH]; intros w H; cbn [run_all] in H.
  - simplify_eq. apply evolves_refl.
  - apply bind_Returns in H as (w1 & Hrun & H).
    eapply evolves_trans; [eapply run_evolves; eauto|eauto].
Qed.

Lemma evolves_invalid (w w' : world) (a : nat) (K : KStat) (t : nat) (T : Token) :
  evolves w w' → kstats w !! a = Some K → tok K = Some t →
  tokens w !! t = Some T → tokens w' !! t = Some T →
  invalid (Some a) w' = invalid (Some a) w.
Proof.
  intros He HK Ht HT HT'.
  destruct (evolves_kstats _ _ He _ _ HK) as (K' & HK' & E).
  apply same_but_Snaptime_ident in E as [Et Ep].
  unfold invalid. cbn. rewrite HK, HK', Et, Ep, Ht. cbn. now rewrite HT, HT'.
Qed.

(** X14: a call made on one token leaves every other token as it was, handle
    and cache, and the descriptors of the other tokens as valid or invalid
    as they were. *)
Theorem calls_touch_one_token (c : call) (w w' : world) (t : nat) (T : Token) :
  run c w = Returns w' → tokens w !! t = Some T → call_token c ≠ Some t →
  tokens w' !! t = Some T
  ∧ ∀ a K, kstats w !! a = Some K → tok K = Some t →
      invalid (Some a) w' = invalid (Some a) w.
Proof.
  intros Hrun HT Hne. destruct (run_evolves _ _ _ Hrun) as [He Hu].
  assert (tokens w' !! t = Some T) as HT' by now apply Hu.
  split; [done|]. intros a K HK Ht. eapply evolves_invalid; eauto.
Qed.

Lemma calls_touch_one_token_witness :
  tokens (set_tokens (<[1%nat := closed_Token]> (tokens two_token_world)) two_token_world)
    !! 0%nat = Some {| kc := 1000; ksm := {[ 100 := 0%nat ]} |}
  ∧ ∀ a K, kstats two_token_world !! a = Some K → tok K = Some 0%nat →
      invalid (Some a)
        (set_tokens (<[1%nat := closed_Token]> (tokens two_token_world)) two_token_world)
      = invalid (Some a) two_token_world.
Proof.
  apply (calls_touch_one_token (call_Close (Some 1%nat) 0 0) two_token_world).
  - reflexivity.
  - reflexivity.
  - discriminate.
Defined.

(** X15: along any sequence of calls a [KStat] stays at its address and
    keeps every field but [Snaptime]; a token's handle is never replaced by
    another handle, only by [nil], and a closed token is never opened again
    nor given a cache entry. *)
Theorem descriptors_and_handles_are_fixed (cs : list call) (w w' : world) :
  run_all cs w = Returns w' →
  (∀ a K, kstats w !! a = Some K →
     ∃ K', kstats w' !! a = Some K' ∧ K' = set_Snaptime (KStat_Snaptime K') K)
  ∧ (∀ t T, tokens w !! t = Some T →
       ∃ T', tokens w' !! t = Some T'
             ∧ (kc T' = kc T ∨ T' = closed_Token)
             ∧ (kc T = 0 → T' = T)).
Proof.
  intros H. apply run_all_evolves in H as [HK HT _ _]. split; [exact HK|].
  intros t T Ht. destruct (HT _ _ Ht) as (T' & Ht' & Hc).
  exists T'. split; [done|].
  destruct Hc as [[E ->]|[Ho [[Ekc _]| ->]]]; split; auto; intros; done.
Qed.

Lemma descriptors_and_handles_are_fixed_witness :
  (∀ a K, kstats listed_world !! a = Some K →
     ∃ K', kstats closed_world !! a = Some K' ∧ K' = set_Snaptime (KStat_Snaptime K') K)
  ∧ (∀ t T, tokens listed_world !! t = Some T →
       ∃ T', tokens closed_world !! t = Some T'
             ∧ (kc T' = kc T ∨ T' = closed_Token)
             ∧ (kc T = 0 → T' = T)).
Proof.
  apply (descriptors_and_handles_are_fixed session listed_world closed_world).
  vm_compute. reflexivity.
Defined.

Lemma evolves_heap_ok (w w' : world) :
  evolves w w' → no_null w ∧ closed_empty w → no_null w' ∧ closed_empty w'.
Proof.
  intros [HK HT HNK HNT] [Hn Hc]. split.
  - intros a K' HK'. destruct (kstats w !! a) as [K|] eqn:E; [|eauto].
    destruct (HK _ _ E) as (K1 & HK1 & E1). simplify_eq.
    apply same_but_Snaptime_ident in E1 as [_ ->]. eauto.
  - intros t T' HT' E0. destruct (tokens w !! t) as [T|] eqn:E; [|eauto].
    destruct (HT _ _ E) as (T1 & HT1 & H1). simplify_eq.
    destruct H1 as [[E1 ->]|[Ho [[Ekc _]| ->]]]; [eauto|congruence|done].
Qed.

Lemma reachable_heap_ok (w : world) : reachable w → no_null w ∧ closed_empty w.
Proof.
  induction 1 as [w Ht Hk|c w w' _ IH Hrun].
  - split; intros ? ? H; rewrite ?Ht, ?Hk in H; discriminate.
  - eapply evolves_heap_ok; [|done]. eapply run_evolves; eauto.
Qed.

Lemma run_all_reachable (cs : list call) (w w' : world) :
  reachable w → run_all cs w = Returns w' → reachable w'.
Proof.
  revert w. induction cs as [|c cs IH]; intros w Hr H; cbn [run_all] in H.
  - by simplify_eq.
  - apply bind_Returns in H as (w1 & Hrun & H).
    eapply IH; [|done]. eapply reachable_call; eauto.
Qed.

Lemma listed_world_reachable : reachable listed_world.
Proof.
  apply (run_all_reachable [call_Open 1000 0; call_All (Some 0%nat)] start_world).
  - now apply reachable_start.
  - vm_compute. reflexivity.
Defined.

Lemma closed_world_reachable : reachable closed_world.
Proof.
  apply (run_all_reachable
           (call_Open 1000 0 :: call_All (Some 0%nat) :: session) start_world).
  - now apply reachable_start.
  - vm_compute. reflexivity.
Defined.

(** X16: in every world a program can get to, a [KStat] wraps a [kstat_t]
    that is not [NULL] and belongs to a token that exists, so that it is
    invalid exactly when that token is closed; and a closed token is the
    zero token, with no handle and an empty cache. *)
Theorem invalid_means_closed (w : world) :
  reachable w →
  (∀ a K, kstats w !! a = Some K →
     ksp K ≠ 0
     ∧ ∃ t T, tok K = Some t ∧ tokens w !! t = Some T
              ∧ (invalid (Some a) w = true ↔ kc T = 0))
  ∧ (∀ t T, tokens w !! t = Some T → kc T = 0 → T = closed_Token).
Proof.
  intros Hr. destruct (reachable_heap_ok _ Hr) as [Hn Hc].
  pose proof (reachable_cache_ok _ Hr) as Hok. split.
  - intros a K HK. split; [eauto|].
    destruct (cache_complete _ Hok _ _ HK) as (t & T & Ht & HT & _).
    exists t, T. split; [done|]. split; [done|].
    unfold invalid. cbn. rewrite HK, Ht. cbn. rewrite HT.
    destruct (Z.eqb_spec (ksp K) 0) as [E|_]; [by apply Hn in HK|]. cbn.
    destruct (Z.eqb_spec (kc T) 0); split; intros; done.
  - intros t T HT E. specialize (Hc _ _ HT E).
    destruct T as [c m]. cbn in *. now subst.
Qed.

Lemma invalid_means_closed_witness :
  (∀ a K, kstats closed_world !! a = Some K →
     ksp K ≠ 0
     ∧ ∃ t T, tok K = Some t ∧ tokens closed_world !! t = Some T
              ∧ (invalid (Some a) closed_world = true ↔ kc T = 0))
  ∧ (∀ t T, tokens closed_world !! t = Some T → kc T = 0 → T = closed_Token).
Proof. apply (invalid_means_closed closed_world). exact closed_world_reachable. Defined.

(** ** What [All] returns *)

Lemma chain_from_nonzero (m : gmap Z kstat_t) (r : Z) (ps : list Z) :
  chain_from m r ps → Forall (λ p, p ≠ 0) ps.
Proof. induction 1; constructor; auto. Qed.

Lemma Forall2_NoDup {A B : Type} (R : A → B → Prop) (l : list A) (k : list B) :
  (∀ a b b', R a b → R a b' → b = b') →
  Forall2 R l k → NoDup k → NoDup l.
Proof.
  intros Hf H. induction H as [|a b l k Hab H IH]; intros Hnd; [constructor|].
  apply NoDup_cons in Hnd as [Hnin Hnd]. apply NoDup_cons. split; [|auto].
  intros Hin. apply Hnin.
  destruct (list_elem_of_lookup_1 _ _ Hin) as [i Hi].
  destruct (Forall2_lookup_l _ _ _ _ _ H Hi) as (b' & Hb' & Hab').
  rewrite (Hf _ _ _ Hab Hab'). eapply list_elem_of_lookup_2; eauto.
Qed.

(** X17: on a chain that ends, [All] returns, in the order of the chain, one
    valid [KStat] of this token for each [kstat_t], each wrapping its
    [kstat_t] and no [KStat] twice; it reads nothing (the C memory is
    unchanged) and only appends to the Go heap. *)
Theorem All_enumerates_chain (tk : nat) (T : Token) (ctl : kstat_ctl) (ps : list Z)
    (w : world) :
  cache_ok w → tokens w !! tk = Some T → kc T ≠ 0 →
  c_ctls w !! kc T = Some ctl →
  chain_from (c_kstats w) (kc_chain ctl) ps →
  ∃ l w', All (Some tk) w = Returns (l, w')
          ∧ same_C w w'
          ∧ kstats w `prefix_of` kstats w'
          ∧ NoDup l
          ∧ Forall2 (λ k p, ∃ K, kstats w' !! k = Some K ∧ ksp K = p
                                 ∧ tok K = Some tk
                                 ∧ invalid (Some k) w' = false) l ps.
Proof.
  intros Hok HT Ho Hctl Hch.
  destruct (All_total _ _ _ _ _ Hok HT Ho Hctl Hch) as (l & w' & HAll & _).
  destruct (All_Returns _ _ _ _ _ Hok HT Ho HAll) as (Hok' & Hg & ps' & Hps' & Hc).
  unfold chain in Hps'. rewrite Hctl in Hps'. apply chain_of_sound in Hps'.
  rewrite (chain_from_functional _ _ _ _ Hps' Hch) in Hc. clear Hps' ps'.
  destruct (grows_token _ _ _ Hg _ HT) as (T' & HT' & Ekc & _).
  assert (is_open tk w') as Hopen by (exists T'; split; [done|congruence]).
  assert (Forall2 (λ k p, ∃ K, kstats w' !! k = Some K ∧ ksp K = p
                               ∧ tok K = Some tk
                               ∧ invalid (Some k) w' = false) l ps) as HF.
  { pose proof (chain_from_nonzero _ _ _ Hch) as Hnz.
    clear Hch HAll. induction Hc as [|k p l ps Hkp Hc IH]; [constructor|].
    apply Forall_cons in Hnz as [Hp Hnz]. constructor; [|by apply IH].
    exact (cached_valid tk p k w' Hok' Hopen Hkp Hp). }
  exists l, w'. split; [done|]. split; [apply (grows_C _ _ _ Hg)|].
  split; [apply (grows_heap _ _ _ Hg)|]. split; [|done].
  eapply Forall2_NoDup; [|exact HF|eapply chain_from_NoDup; eauto].
  intros k p p' (K & HK & <- & _) (K' & HK' & <- & _). congruence.
Qed.

Lemma All_enumerates_chain_witness :
  ∃ l w', All (Some 0%nat) cpu_world = Returns (l, w')
          ∧ same_C cpu_world w'
          ∧ kstats cpu_world `prefix_of` kstats w'
          ∧ NoDup l
          ∧ Forall2 (λ k p, ∃ K, kstats w' !! k = Some K ∧ ksp K = p
                                 ∧ tok K = Some 0%nat
                                 ∧ invalid (Some k) w' = false) l [100; 200].
Proof.
  apply (All_enumerates_chain 0 {| kc := 1000; ksm := ∅ |} {| kc_chain := 100 |}
           [100; 200] cpu_world).
  - exact cpu_world_cache_ok.
  - reflexivity.
  - discriminate.
  - reflexivity.
  - eapply chain_next; [discriminate|reflexivity|].
    eapply chain_next; [discriminate|reflexivity|]. apply chain_end.
Defined.

(** ** What a method of [KStat] touches *)

Lemma Refresh_touches (k : option nat) (rd : read_result) (w : world)
    (e : option error) (w' : world) :
  Refresh k rd w = Returns (e, w') →
  tokens w' = tokens w ∧ c_ctls w' = c_ctls w
  ∧ (∀ a, k ≠ Some a → kstats w' !! a = kstats w !! a)
  ∧ (∀ K p, load_KStat k w = Some K → p ≠ ksp K → c_kstats w' !! p = c_kstats w !! p)
  ∧ (invalid k w = true → w' = w).
Proof.
  intros H. apply Refresh_cases in H
    as [(_ & _ & ->)|(a & K & -> & HK & Hv & [(_ & _ & ->)|(_ & _ & -> & _)])];
    try done.
  - repeat split; try done; [|congruence].
    intros K0 p HK0 Hp. cbn in HK0. simplify_eq. cbn. now apply lookup_alter_ne.
  - repeat split; try done; [| |congruence].
    + intros a' Hne. cbn. apply list_lookup_insert_ne. congruence.
    + intros K0 p HK0 Hp. cbn in HK0. simplify_eq. cbn. now apply lookup_alter_ne.
Qed.

Lemma setup_touches (k : option nat) (rd : read_result) (w : world)
    (e : option error) (w' : world) :
  setup k rd w = Returns (e, w') →
  tokens w' = tokens w ∧ c_ctls w' = c_ctls w
  ∧ (∀ a, k ≠ Some a → kstats w' !! a = kstats w !! a)
  ∧ (∀ K p, load_KStat k w = Some K → p ≠ ksp K → c_kstats w' !! p = c_kstats w !! p)
  ∧ (invalid k w = true → w' = w).
Proof.
  intros H. pose proof H as H0. apply setup_cases in H as [->|H]; [done|].
  eapply Refresh_touches; eauto.
Qed.

(** X18: a method of [KStat] ([Refresh], [GetNamed], [AllNamed]) leaves all
    tokens and handles as they are, every other [KStat] as it is, and in C
    memory every [kstat_t] but the one it wraps; on an invalid descriptor it
    changes nothing at all. *)
Theorem KStat_methods_touch_their_own (c : call) (k : option nat) (w w' : world) :
  call_KStat c = Some k → run c w = Returns w' →
  tokens w' = tokens w ∧ c_ctls w' = c_ctls w
  ∧ (∀ a, k ≠ Some a → kstats w' !! a = kstats w !! a)
  ∧ (∀ K p, load_KStat k w = Some K → p ≠ ksp K → c_kstats w' !! p = c_kstats w !! p)
  ∧ (invalid k w = true → w' = w).
Proof.
  intros Hc H. destruct c; try discriminate Hc; cbn in Hc; simplify_eq;
    cbn in H; apply after_Returns in H as [out H].
  - eapply Refresh_touches; eauto.
  - apply KStat_GetNamed_world in H as [e H]. eapply setup_touches; eauto.
  - apply AllNamed_world in H as [e H]. eapply setup_touches; eauto.
Qed.

Lemma KStat_methods_touch_their_own_witness :
  tokens (refreshed 0 float_KStat idle_read float_world) = tokens float_world
  ∧ c_ctls (refreshed 0 float_KStat idle_read float_world) = c_ctls float_world
  ∧ (∀ a, Some 0%nat ≠ Some a →
       kstats (refreshed 0 float_KStat idle_read float_world) !! a
       = kstats float_world !! a)
  ∧ (∀ K p, load_KStat (Some 0%nat) float_world = Some K → p ≠ ksp K →
       c_kstats (refreshed 0 float_KStat idle_read float_world) !! p
       = c_kstats float_world !! p)
  ∧ (invalid (Some 0%nat) float_world = true →
       refreshed 0 float_KStat idle_read float_world = float_world).
Proof.
  apply (KStat_methods_touch_their_own (call_Refresh (Some 0%nat) idle_read)
           (Some 0%nat) float_world).
  - reflexivity.
  - reflexivity.
Defined.

(** ** Results without an error *)

Ltac nil_cases :=
  repeat split; intros;
  repeat match goal with
         | H : is_Some None |- _ => destruct H as [? H]; discriminate H
         | H : _ ∧ _ |- _ => destruct H
         end; try done; try lia; eauto.

(** X19: [Open] never panics; it returns a token exactly when [kstat_open]
    gave a handle, and neither a token nor an error exactly when
    [kstat_open] returned [NULL] with [errno] 0.  [Lookup] likewise returns
    neither a [KStat] nor an error only when libkstat failed without setting
    [errno]: [kstat_lookup] found nothing, or [kstat_read] returned -1. *)
Theorem nil_result_with_nil_error :
  (∀ r errno w, ∃ t e w',
     Open r errno w = Returns ((t, e), w')
     ∧ (is_Some t ↔ r ≠ 0) ∧ (is_Some t → e = None)
     ∧ (t = None ∧ e = None ↔ r = 0 ∧ errno = 0))
  ∧ (∀ t module instance nm f rd w w',
       Lookup t module instance nm f rd w = Returns ((None, None), w') →
       ∃ T, load_Token t w = Some T ∧ kc T ≠ 0
            ∧ (f (kc T) (maybeCString module) (C_int instance) (maybeCString nm) = (0, 0)
               ∨ (rd_res rd = -1 ∧ rd_errno rd = 0)))
  ∧ (∀ t T module instance nm f rd w,
       load_Token t w = Some T → kc T ≠ 0 →
       f (kc T) (maybeCString module) (C_int instance) (maybeCString nm) = (0, 0) →
       Lookup t module instance nm f rd w = Returns ((None, None), w)).
Proof.
  split; [|split].
  - intros r errno w. unfold Open. destruct (Z.eqb_spec r 0) as [->|Hr].
    + eexists _, _, _. split; [reflexivity|]. unfold cgo_err.
      destruct (Z.eqb_spec errno 0) as [->|He].
      * nil_cases.
      * nil_cases.
    + eexists _, _, _. split; [reflexivity|]. nil_cases.
  - intros t module instance nm f rd w w' H. unfold Lookup in H.
    destruct (load_Token t w) as [T|] eqn:HT; [|discriminate].
    destruct (Z.eqb_spec (kc T) 0) as [E|Ho]; [discriminate|].
    exists T. split; [done|]. split; [done|].
    destruct (f _ _ _ _) as [p errno].
    destruct (Z.eqb_spec p 0) as [->|Hp].
    + left. unfold cgo_err in H. destruct (errno =? 0) eqn:Ee; [|discriminate].
      apply Z.eqb_eq in Ee. now subst.
    + right. apply bind_Returns in H as ([k w1] & _ & H).
      apply bind_Returns in H as ([err w2] & Href & H).
      destruct err; [discriminate|].
      apply Refresh_cases in Href
        as [(_ & ? & _)|(a & K & _ & _ & _ & [(E & He & _)|(_ & _ & _ & _)])];
        [discriminate| |discriminate].
      split; [done|]. unfold cgo_err in He.
      destruct (Z.eqb_spec (rd_errno rd) 0); [done|discriminate].
  - intros t T module instance nm f rd w HT Ho Hf. unfold Lookup.
    rewrite HT, Hf. apply Z.eqb_neq in Ho. now rewrite Ho.
Qed.

(** X20: when [Refresh] returns a nil error, either the read did not return
    -1, and the [KStat]'s [Snaptime] is the snapshot time that the read has
    left in its [kstat_t]; or [kstat_read] returned -1 without setting
    [errno], and no [KStat] has changed, [Snaptime] included. *)
Theorem Refresh_nil_error (k : option nat) (rd : read_result) (w w' : world) :
  Refresh k rd w = Returns (None, w') →
  (rd_res rd ≠ -1
   ∧ ∃ K' s, load_KStat k w' = Some K' ∧ c_kstats w' !! ksp K' = Some s
             ∧ KStat_Snaptime K' = ks_snaptime s
             ∧ ks_snaptime s = rd_snaptime rd)
  ∨ (rd_res rd = -1 ∧ rd_errno rd = 0 ∧ kstats w' = kstats w).
Proof.
  intros H. apply Refresh_cases in H
    as [(_ & ? & _)|(a & K & -> & HK & _ & [(E & He & ->)|(E & _ & -> & [s Hs])])];
    [discriminate| |].
  - right. split; [done|]. split; [|done]. unfold cgo_err in He.
    destruct (Z.eqb_spec (rd_errno rd) 0); [done|discriminate].
  - left. split; [done|]. exists (set_Snaptime (rd_snaptime rd) K), (read_into rd s).
    split; [cbn; apply list_lookup_insert_eq; eapply lookup_lt_Some; eauto|].
    split; [|done]. cbn. rewrite lookup_alter_eq, Hs. done.
Qed.

Lemma Refresh_nil_error_witness :
  (rd_res idle_read ≠ -1
   ∧ ∃ K' s, load_KStat (Some 0%nat) (refreshed 0 float_KStat idle_read float_world)
             = Some K'
             ∧ c_kstats (refreshed 0 float_KStat idle_read float_world) !! ksp K' = Some s
             ∧ KStat_Snaptime K' = ks_snaptime s
             ∧ ks_snaptime s = rd_snaptime idle_read)
  ∨ (rd_res idle_read = -1 ∧ rd_errno idle_read = 0
     ∧ kstats (refreshed 0 float_KStat idle_read float_world) = kstats float_world).
Proof.
  apply (Refresh_nil_error (Some 0%nat) idle_read float_world). reflexivity.
Defined.

(** ** The display of a [KStat] *)

(** X21: the strings of [KStat.String] and [Named.String] are built from
    fields that no call changes: along any sequence of calls they stay what
    they were, refreshes and the close of the token included. *)
Theorem String_is_stable (cs : list call) (w w' : world) (k : option nat) :
  run_all cs w = Returns w' → is_Some (load_KStat k w) →
  KStat_String k w' = KStat_String k w
  ∧ ∀ ks, Named_KStat ks = k → Named_String ks w' = Named_String ks w.
Proof.
  intros H [K HK]. apply run_all_evolves in H.
  destruct k as [a|]; [|discriminate]. cbn in HK.
  destruct (evolves_kstats _ _ H _ _ HK) as (K' & HK' & E).
  split; [|intros ks Hks]; unfold KStat_String, Named_String; rewrite ?Hks; cbn;
    rewrite HK, HK', E; reflexivity.
Qed.

Lemma String_is_stable_witness :
  KStat_String (Some 1%nat) closed_world = KStat_String (Some 1%nat) listed_world
  ∧ ∀ ks, Named_KStat ks = Some 1%nat →
      Named_String ks closed_world = Named_String ks listed_world.
Proof.
  apply (String_is_stable session listed_world closed_world (Some 1%nat)).
  - vm_compute. reflexivity.
  - eexists. vm_compute. reflexivity.
Defined.

(** ** A [KStat] mirrors its [kstat_t] *)

Lemma mirrors_read_into (K : KStat) (s : kstat_t) (rd : read_result) :
  mirrors K s → mirrors K (read_into rd s).
Proof. intros H. exact H. Qed.

Lemma mirrors_same_but_Snaptime (K K' : KStat) (s : kstat_t) :
  same_but_Snaptime K K' → mirrors K s → mirrors K' s.
Proof. unfold same_but_Snaptime. intros -> H. exact H. Qed.

Lemma mirror_step_refl (w : world) : mirror_step w w.
Proof.
  split.
  - intros p s Hs. exists s. auto.
  - intros a K HK. left. exists K. split; [done|apply same_but_Snaptime_refl].
Qed.

Lemma mirror_step_trans (w1 w2 w3 : world) :
  mirror_step w1 w2 → mirror_step w2 w3 → mirror_step w1 w3.
Proof.
  intros [C12 K12] [C23 K23]. split.
  - intros p s Hs. destruct (C12 _ _ Hs) as (s2 & Hs2 & H2).
    destruct (C23 _ _ Hs2) as (s3 & Hs3 & H3). exists s3. split; [done|].
    destruct H2 as [->|[rd ->]], H3 as [->|[rd' ->]]; eauto.
  - intros a K3 HK3. destruct (K23 _ _ HK3) as [(K2 & HK2 & E3)|H]; [|auto].
    destruct (K12 _ _ HK2) as [(K1 & HK1 & E2)|(s2 & Hs2 & Hm)].
    + left. exists K1. split; [done|]. eapply same_but_Snaptime_trans; eauto.
    + right. destruct (C23 _ _ Hs2) as (s3 & Hs3 & H3).
      destruct (same_but_Snaptime_ident _ _ E3) as [_ Ep]. rewrite Ep.
      exists s3. split; [done|]. apply (mirrors_same_but_Snaptime _ _ _ E3).
      destruct H3 as [->|[rd ->]]; [done|now apply mirrors_read_into].
Qed.

Lemma mirrored_step (w w' : world) : mirrored w → mirror_step w w' → mirrored w'.
Proof.
  intros Hm [HC HK] a K' HK'. destruct (HK _ _ HK') as [(K & HK0 & E)|H]; [|done].
  destruct (Hm _ _ HK0) as (s & Hs & Hms). destruct (HC _ _ Hs) as (s' & Hs' & H').
  destruct (same_but_Snaptime_ident _ _ E) as [_ Ep]. rewrite Ep.
  exists s'. split; [done|]. apply (mirrors_same_but_Snaptime _ _ _ E).
  destruct H' as [->|[rd ->]]; [done|now apply mirrors_read_into].
Qed.

(** A step that leaves the C memory and every [KStat] alone. *)
Lemma mirror_step_same (w w' : world) :
  c_kstats w' = c_kstats w → kstats w' = kstats w → mirror_step w w'.
Proof.
  intros EC EK. split.
  - intros p s Hs. exists s. rewrite EC. auto.
  - intros a K HK. left. exists K. rewrite <- EK. split; [done|apply same_but_Snaptime_refl].
Qed.

Lemma newKStat_mirror_step (tk : nat) (p : Z) (w : world) (k : nat) (w' : world) :
  newKStat tk p w = Returns (k, w') → mirror_step w w'.
Proof.
  intros H.
  apply newKStat_Returns in H as (T & HT & [[_ ->]|(_ & _ & s & Hs & ->)]);
    [apply mirror_step_refl|].
  split; cbn.
  - intros q s0 Hs0. exists s0. auto.
  - intros a K' HK'. apply lookup_app_Some in HK' as [HK'|[_ HK']].
    + left. exists K'. split; [done|apply same_but_Snaptime_refl].
    + apply list_lookup_singleton_Some in HK' as [_ <-]. right.
      exists s. split; [done|]. repeat split.
Qed.

Lemma All_loop_mirror_step (fuel : nat) (tk : nat) (r : Z) (n : list nat) (w : world)
    (l : list nat) (w' : world) :
  All_loop fuel tk r n w = Returns (l, w') → mirror_step w w'.
Proof.
  revert r n w. induction fuel as [|fuel IH]; intros r n w H; [discriminate|].
  cbn [All_loop] in H. destruct (r =? 0).
  - simplify_eq. apply mirror_step_refl.
  - apply bind_Returns in H as ([k w1] & Hnew & H).
    destruct (c_kstats w1 !! r) as [s|]; [|discriminate].
    eapply mirror_step_trans; [eapply newKStat_mirror_step|]; eauto.
Qed.

Lemma Refresh_mirror_step (k : option nat) (rd : read_result) (w : world)
    (e : option error) (w' : world) :
  Refresh k rd w = Returns (e, w') → mirror_step w w'.
Proof.
  intros H.
  assert (∀ q s, c_kstats w !! q = Some s → ∀ p,
            ∃ s', alter (read_into rd) p (c_kstats w) !! q = Some s'
                  ∧ (s' = s ∨ ∃ rd0, s' = read_into rd0 s)) as HC.
  { intros q s Hs p. destruct (decide (q = p)) as [->|Hne].
    - exists (read_into rd s). rewrite lookup_alter_eq, Hs. eauto.
    - exists s. rewrite lookup_alter_ne by done. auto. }
  apply Refresh_cases in H
    as [(_ & _ & ->)|(a & K & -> & HK & _ & [(_ & _ & ->)|(_ & _ & -> & _)])].
  - apply mirror_step_refl.
  - split; cbn; [eauto|].
    intros a' K' HK'. left. exists K'. split; [done|apply same_but_Snaptime_refl].
  - split; cbn; [eauto|].
    intros a' K' HK'. left. destruct (decide (a' = a)) as [->|Hne].
    + rewrite list_lookup_insert_eq in HK' by (eapply lookup_lt_Some; eauto).
      simplify_eq. exists K. split; [done|reflexivity].
    + rewrite list_lookup_insert_ne in HK' by done.
      exists K'. split; [done|apply same_but_Snaptime_refl].
Qed.

Lemma setup_mirror_step (k : option nat) (rd : read_result) (w : world)
    (e : option error) (w' : world) :
  setup k rd w = Returns (e, w') → mirror_step w w'.
Proof.
  intros H. apply setup_cases in H as [->|H];
    [apply mirror_step_refl|eapply Refresh_mirror_step; eauto].
Qed.

Lemma Lookup_mirror_step (t : option nat) (module : string) (instance : Z) (nm : string)
    (f : lookup_fn) (rd : read_result) (w : world)
    (res : option nat * option error) (w' : world) :
  Lookup t module instance nm f rd w = Returns (res, w') → mirror_step w w'.
Proof.
  intros H. apply Lookup_cases in H as [->|(tk & p & k & w1 & e & Hnew & Href)];
    [apply mirror_step_refl|].
  eapply mirror_step_trans;
    [eapply newKStat_mirror_step|eapply Refresh_mirror_step]; eauto.
Qed.

Lemma run_mirror_step (c : call) (w w' : world) :
  run c w = Returns w' → mirror_step w w'.
Proof.
  intros H. destruct c; cbn in H; apply after_Returns in H as [out H].
  - apply Open_cases in H as [->| ->]; [apply mirror_step_refl|by apply mirror_step_same].
  - apply Close_cases in H as [->|(tk & T & _ & _ & ->)];
      [apply mirror_step_refl|by apply mirror_step_same].
  - unfold All in H. destruct (load_Token t w) as [T|]; [|discriminate].
    destruct (kc T =? 0); [simplify_eq; apply mirror_step_refl|].
    destruct (c_ctls w !! kc T); [|discriminate].
    eapply All_loop_mirror_step; eauto.
  - eapply Lookup_mirror_step; eauto.
  - apply Token_GetNamed_cases in H as (stats & err & w1 & HL & [->|HG]).
    + eapply Lookup_mirror_step; eauto.
    + apply KStat_GetNamed_world in HG as [e HG].
      eapply mirror_step_trans;
        [eapply Lookup_mirror_step|eapply setup_mirror_step]; eauto.
  - eapply Refresh_mirror_step; eauto.
  - apply KStat_GetNamed_world in H as [e H]. eapply setup_mirror_step; eauto.
  - apply AllNamed_world in H as [e H]. eapply setup_mirror_step; eauto.
Qed.

Lemma reachable_mirrored (w : world) : reachable w → mirrored w.
Proof.
  induction 1 as [w Ht Hk|c w w' _ IH Hrun].
  - intros a K HK. rewrite Hk in HK. discriminate.
  - eapply mirrored_step; [done|]. eapply run_mirror_step; eauto.
Qed.



(** X23: in every world a program can get to, [Refresh] and [setup] return,
    on every descriptor ([nil] and stale ones included) and whatever libkstat
    answers: they dereference no nil [KStat] and no [kstat_t] that is not
    there. *)
Theorem Refresh_and_setup_return (w : world) :
  reachable w →
  (∀ k rd, ∃ e w', Refresh k rd w = Returns (e, w'))
  ∧ (∀ k rd, ∃ e w', setup k rd w = Returns (e, w')).
Proof.
  intros Hr. pose proof (reachable_mirrored _ Hr) as Hm.
  assert (∀ k rd, ∃ e w', Refresh k rd w = Returns (e, w')) as HR.
  { intros k rd. destruct (invalid k w) eqn:Hv.
    - rewrite Refresh_invalid by done. eauto.
    - destruct k as [a|]; [|discriminate].
      destruct (invalid_false _ _ Hv) as (K & T & HK & _).
      destruct (Hm _ _ HK) as (s & Hs & _).
      rewrite (Refresh_valid _ _ _ _ Hv HK), Hs.
      destruct (rd_res rd =? -1); eauto. }
  split; [exact HR|]. intros k rd. destruct (invalid k w) eqn:Hv.
  - rewrite setup_invalid by done. eauto.
  - destruct k as [a|]; [|discriminate].
    destruct (invalid_false _ _ Hv) as (K & T & HK & _).
    destruct (Hm _ _ HK) as (s & Hs & _).
    rewrite (setup_valid _ _ _ _ _ Hv HK Hs).
    destruct (negb _); [eauto|]. destruct (ks_data s); [eauto|apply HR].
Qed.

Lemma Refresh_and_setup_return_witness :
  (∀ k rd, ∃ e w', Refresh k rd listed_world = Returns (e, w'))
  ∧ (∀ k rd, ∃ e w', setup k rd listed_world = Returns (e, w')).
Proof. apply (Refresh_and_setup_return listed_world). exact listed_world_reachable. Defined.
